(** * acpx: the per-session queue-owner runtime

    A shallow embedding of the coordination code of acpx (the TypeScript
    sources [session-owner-runtime.ts], [queue-ipc-client.ts],
    [session-owner-spawn.ts], [output.ts], [cli.ts] and [session.ts])
    together with properties of that code.  The turn controller
    ([queue-owner-turn-controller.ts]) is not among the sources at hand:
    its lifecycle state is modelled from the specification, and each such
    definition says so; what its cancel methods answer is supplied from
    outside.

    Conventions.
    - A listener of a socket runs to completion before the next event is
      delivered.  An async function of the owner is cut at its awaits:
      what happens elsewhere in the process may happen between the pieces.
    - What the code obtains from outside (the clock, the socket, the
      answers of the lease store, of the queue server and of the turn
      controller, the result of a connection attempt) is supplied as an
      explicit script, so every function below is executable.
    - Each component keeps a log of the effects it performs; statements
      such as "the lease is released" are statements about that log. *)

From Stdlib Require Import ZArith QArith Qround Lqa List String Bool Lia Arith.
Import ListNotations.

Local Open Scope Z_scope.

(* ================================================================== *)
(** * Part I. The embedding                                            *)
(* ================================================================== *)

(* ------------------------------------------------------------------ *)
(** ** JavaScript numbers                                              *)
(* ------------------------------------------------------------------ *)

(** A JavaScript number is NaN, an infinity, the negative zero, or a
    finite value.  Finite doubles are rationals, so finite values are
    carried by [Q]; [Math.round] and the comparisons used by the code are
    specified exactly by ECMAScript, hence need no rounding mode here. *)
Module Js.

Inductive Number : Type :=
| NaN
| PosInf
| NegInf
| NegZero
| Fin (q : Q).

(** [Number.isFinite(x)] *)
Definition isFinite (x : Number) : bool :=
  match x with
  | Fin _ | NegZero => true
  | NaN | PosInf | NegInf => false
  end.

(** [q1 < q2] on rationals, as a boolean *)
Definition Qltb (a b : Q) : bool := negb (Qle_bool b a).

(** [x < 0] *)
Definition ltZero (x : Number) : bool :=
  match x with
  | Fin q => Qltb q 0
  | NegInf => true
  | NaN | PosInf | NegZero => false
  end.

(** [x > 0] *)
Definition gtZero (x : Number) : bool :=
  match x with
  | Fin q => Qltb 0 q
  | PosInf => true
  | NaN | NegInf | NegZero => false
  end.

(** [x === 0]: both zeros compare equal to [0]. *)
Definition isZero (x : Number) : bool :=
  match x with
  | Fin q => Qeq_bool q 0
  | NegZero => true
  | NaN | PosInf | NegInf => false
  end.

(** The nearest integer, ties towards plus infinity. *)
Definition roundHalfUp (q : Q) : Z := Qfloor (q + (1 # 2)).

(** [Math.round(x)]: values in [-0.5, 0) round to the negative zero. *)
Definition Math_round (x : Number) : Number :=
  match x with
  | Fin q =>
      if Qle_bool (- (1 # 2)) q && Qltb q 0
      then NegZero
      else Fin (inject_Z (roundHalfUp q))
  | other => other
  end.

(** [Math.max(0, x)] *)
Definition Math_max0 (x : Number) : Number :=
  match x with
  | NaN => NaN
  | PosInf => PosInf
  | NegInf => Fin 0
  | NegZero => Fin 0
  | Fin q => if Qltb 0 q then Fin q else Fin 0
  end.

(** An integer as a JavaScript number. *)
Definition ofZ (z : Z) : Number := Fin (inject_Z z).

End Js.

(* ------------------------------------------------------------------ *)
(** ** session-owner-runtime.ts: TTL normalisation                     *)
(* ------------------------------------------------------------------ *)

Module Ttl.

Definition DEFAULT_QUEUE_OWNER_TTL_MS : Js.Number := Js.ofZ 300000.

(** [normalizeQueueOwnerTtlMs(ttlMs: number | undefined): number].
    [None] stands for [undefined] and [null] alike ([ttlMs == null]). *)
Definition normalizeQueueOwnerTtlMs (ttlMs : option Js.Number) : Js.Number :=
  match ttlMs with
  | None => DEFAULT_QUEUE_OWNER_TTL_MS
  | Some t =>
      if negb (Js.isFinite t) || Js.ltZero t
      then DEFAULT_QUEUE_OWNER_TTL_MS
      else Js.Math_round t
  end.

(** [const idleWaitMs = queueOwnerTtlMs === 0 ? undefined
                                              : Math.max(0, queueOwnerTtlMs)]
    [None] is [undefined]: [nextTask] then waits without a bound. *)
Definition idleWaitMs (queueOwnerTtlMs : Js.Number) : option Js.Number :=
  if Js.isZero queueOwnerTtlMs then None
  else Some (Js.Math_max0 queueOwnerTtlMs).

End Ttl.

(* ------------------------------------------------------------------ *)
(** ** queue-owner-turn-controller.ts: the turn controller             *)
(* ------------------------------------------------------------------ *)

(** Effects recorded by the owner side: calls on the turn controller and
    the steps of the owner process. *)
Module Trace.

Inductive TurnState : Type := idle | starting | active | closing.

Inductive Effect : Type :=
| E_beginTurn
| E_endTurn
| E_beginClosing
| E_setActiveController
| E_clearActiveController
| E_markPromptActive
| E_requestCancel
    (* [turnController.requestCancel()] was called *)
| E_applyPendingCancel
    (* [turnController.applyPendingCancel()] was called *)
| E_cancelResult (cancelled : bool)
    (* what [controlHandlers.cancelPrompt] returned to the queue server *)
| E_cancelThrew
    (* [controlHandlers.cancelPrompt] rejected *)
| E_applyFailed
    (* the [catch] handler of [scheduleApplyPendingCancel] ran *)
| E_setSessionMode
    (* [turnController.setSessionMode(...)] was called *)
| E_setSessionConfigOption
    (* [turnController.setSessionConfigOption(...)] was called *)
| E_nextTask (state : TurnState) (idleWait : option Js.Number)
    (* [owner.nextTask(idleWaitMs)] was called in lifecycle state [state] *)
| E_ttlExpiredNotice         (* the notice written to stderr at the [break] *)
| E_alreadyActiveNotice      (* the notice written when the lease is taken *)
| E_taskOutcome (failed : bool)
    (* the promise of [deps.runQueuedTask] has settled; [failed]: rejected *)
| E_serverStart              (* [SessionQueueOwner.start] was called *)
| E_heartbeat                (* an awaited [refreshHeartbeat()] *)
| E_timerStart               (* [setInterval] *)
| E_timerHeartbeat           (* a [refreshHeartbeat()] started by the timer *)
| E_timerStop                (* [clearInterval] *)
| E_serverClose              (* [owner.close()] was called *)
| E_leaseRelease.            (* [releaseQueueOwnerLease] was called *)

(** The lifecycle states of a turn under way. *)
Definition inTurn (s : TurnState) : Prop := s = starting \/ s = active.

Definition isIdle (s : TurnState) : bool :=
  match s with idle => true | _ => false end.

(** Counting the effects of one kind in a log. *)
Definition countOf (f : Effect -> bool) (l : list Effect) : nat :=
  List.length (List.filter f l).

Definition isTaskOutcome (e : Effect) : bool :=
  match e with E_taskOutcome _ => true | _ => false end.

Definition isTaskSuccess (e : Effect) : bool :=
  match e with E_taskOutcome false => true | _ => false end.

Definition isNextTask (e : Effect) : bool :=
  match e with E_nextTask _ _ => true | _ => false end.

(** The effects of the main function of the owner process itself,
    outside the turns. *)
Definition isProcessEffect (e : Effect) : bool :=
  match e with
  | E_serverStart | E_heartbeat | E_timerStart | E_timerStop | E_serverClose
  | E_leaseRelease | E_beginClosing | E_ttlExpiredNotice
  | E_alreadyActiveNotice => true
  | _ => false
  end.

(** The wait of every [nextTask] in a log is [wait]. *)
Definition waitsAre (wait : option Js.Number) (l : list Effect) : Prop :=
  Forall (fun e => match e with E_nextTask _ x => x = wait | _ => True end) l.

(** The outcomes of the tasks of a log, in their order. *)
Fixpoint outcomes (l : list Effect) : list bool :=
  match l with
  | [] => []
  | E_taskOutcome failed :: l' => failed :: outcomes l'
  | _ :: l' => outcomes l'
  end.

(** Reading a log for its turns.  The reader is [inside] a turn or not,
    and inside a turn the task has [finished] or not.  [beginTurn] opens a
    turn and is out of place inside one; the calls that the task makes on
    the controller and the outcome of the task belong inside a turn, before
    the outcome; [endTurn] closes a turn whose task has finished;
    [nextTask] belongs outside the turns, with the controller idle.  The
    other effects may stand anywhere.  [None]: the effect is out of
    place. *)
Definition bracketStep (st : bool * bool) (e : Effect) : option (bool * bool) :=
  let (inside, finished) := st in
  match e with
  | E_beginTurn => if inside then None else Some (true, false)
  | E_setActiveController | E_clearActiveController | E_markPromptActive =>
      if inside && negb finished then Some st else None
  | E_taskOutcome _ =>
      if inside && negb finished then Some (true, true) else None
  | E_endTurn => if inside && finished then Some (false, false) else None
  | E_nextTask s _ => if negb inside && isIdle s then Some st else None
  | _ => Some st
  end.

Fixpoint bracketRun (st : bool * bool) (l : list Effect) : option (bool * bool) :=
  match l with
  | [] => Some st
  | e :: l' =>
      match bracketStep st e with
      | Some st' => bracketRun st' l'
      | None => None
      end
  end.

(** Every task of the log ran in a turn of its own, between a
    [beginTurn] and an [endTurn], every [nextTask] was called between two
    turns with the controller idle, and no turn is left open. *)
Definition bracketed (l : list Effect) : bool :=
  match bracketRun (false, false) l with
  | Some (false, false) => true
  | _ => false
  end.

(** The effects that the reading of turns passes over. *)
Definition isFree (e : Effect) : bool :=
  match e with
  | E_beginTurn | E_endTurn | E_taskOutcome _ | E_nextTask _ _
  | E_setActiveController | E_clearActiveController | E_markPromptActive => false
  | _ => true
  end.

End Trace.

Module TurnController.
Import Trace.

(** Modelled from the spec: the class [QueueOwnerTurnController] of
    [queue-owner-turn-controller.ts] is not among the sources.  The
    control flow of the owner runtime depends on the controller through
    its lifecycle state alone, and the lifecycle state is all that is
    modelled here; what [requestCancel] and [applyPendingCancel] do and
    answer is left open (their answers are supplied from outside).  A new
    controller is idle: the lifecycle test of [turn-controller.test.ts]
    asserts it. *)
Definition create : TurnState := idle.

(** Modelled from the spec: the [beginTurn] column of the state machine
    table of section 4.E, the controller source being absent (a dash is
    "nothing happens"): idle -> starting. *)
Definition beginTurn (s : TurnState) : TurnState :=
  match s with
  | idle => starting
  | starting | active | closing => s
  end.

(** Modelled from the spec: the [markPromptActive] column of the table
    in section 4.E, the controller source being absent: starting ->
    active, "idem" when active, nothing when idle or closing. *)
Definition markPromptActive (s : TurnState) : TurnState :=
  match s with
  | starting | active => active
  | idle | closing => s
  end.

(** Modelled from the spec: the [endTurn] column of the table in
    section 4.E, the controller source being absent: starting and active
    go to idle. *)
Definition endTurn (s : TurnState) : TurnState :=
  match s with
  | starting | active => idle
  | idle | closing => s
  end.

(** Modelled from the spec: the [beginClosing] column of the table in
    section 4.E, the controller source being absent. *)
Definition beginClosing (s : TurnState) : TurnState :=
  match s with
  | idle | starting | active => closing
  | closing => s
  end.

End TurnController.

(* ------------------------------------------------------------------ *)
(** ** session-owner-runtime.ts: the owner runtime                     *)
(* ------------------------------------------------------------------ *)

Module OwnerRuntime.
Import Trace.

(** The owner process: the lifecycle state of its turn controller; the
    calls of [scheduleApplyPendingCancel] whose [applyPendingCancel()] has
    not settled; the [cancelPrompt] calls that are suspended at their
    first and at their second [await]; the variables [owner] and
    [heartbeatTimer] of [runQueueOwnerProcess], as set or not; and the
    log. *)
Record World : Type := {
  lifecycleState : TurnState;
  scheduled : nat;
  awaitingAnswer : nat;
  awaitingApply : nat;
  owner : bool;
  heartbeatTimer : bool;
  log : list Effect
}.

(** The process before [runQueueOwnerProcess] has done anything. *)
Definition initial : World :=
  {| lifecycleState := TurnController.create;
     scheduled := 0;
     awaitingAnswer := 0;
     awaitingApply := 0;
     owner := false;
     heartbeatTimer := false;
     log := [] |}.

Definition emit (e : Effect) (w : World) : World :=
  {| lifecycleState := lifecycleState w;
     scheduled := scheduled w;
     awaitingAnswer := awaitingAnswer w;
     awaitingApply := awaitingApply w;
     owner := owner w;
     heartbeatTimer := heartbeatTimer w;
     log := log w ++ [e] |}.

Definition onCtl (f : TurnState -> TurnState) (w : World) : World :=
  {| lifecycleState := f (lifecycleState w);
     scheduled := scheduled w;
     awaitingAnswer := awaitingAnswer w;
     awaitingApply := awaitingApply w;
     owner := owner w;
     heartbeatTimer := heartbeatTimer w;
     log := log w |}.

Definition withSuspended (sched answer apply : nat) (w : World) : World :=
  {| lifecycleState := lifecycleState w;
     scheduled := sched;
     awaitingAnswer := answer;
     awaitingApply := apply;
     owner := owner w;
     heartbeatTimer := heartbeatTimer w;
     log := log w |}.

Definition withOwner (o : bool) (w : World) : World :=
  {| lifecycleState := lifecycleState w;
     scheduled := scheduled w;
     awaitingAnswer := awaitingAnswer w;
     awaitingApply := awaitingApply w;
     owner := o;
     heartbeatTimer := heartbeatTimer w;
     log := log w |}.

Definition withTimer (t : bool) (w : World) : World :=
  {| lifecycleState := lifecycleState w;
     scheduled := scheduled w;
     awaitingAnswer := awaitingAnswer w;
     awaitingApply := awaitingApply w;
     owner := owner w;
     heartbeatTimer := t;
     log := log w |}.

(** A controller call made by the runtime: the call is logged and the
    lifecycle state follows the table. *)
Definition call (e : Effect) (f : TurnState -> TurnState) (w : World) : World :=
  emit e (onCtl f w).

(** [applyPendingCancel = async () => await turnController.applyPendingCancel()].
    The method of the controller is called at once; what it does is not
    among the sources, and it has no column in the table (the lifecycle
    state stays). *)
Definition applyPendingCancel (w : World) : World :=
  emit E_applyPendingCancel w.

(** [scheduleApplyPendingCancel]:
    [void applyPendingCancel().catch((error) => { ... })].  The call is
    made at once and is not awaited. *)
Definition scheduleApplyPendingCancel (w : World) : World :=
  withSuspended (S (scheduled w)) (awaitingAnswer w) (awaitingApply w)
    (applyPendingCancel w).

(** A scheduled [applyPendingCancel()] has settled.  When it rejected,
    the [catch] handler runs (it writes a notice to stderr under
    [options.verbose]). *)
Definition scheduledApply_settled (ok : bool) (w : World) : World :=
  match scheduled w with
  | O => w
  | S n =>
      let w1 := withSuspended n (awaitingAnswer w) (awaitingApply w) w in
      if ok then w1 else emit E_applyFailed w1
  end.

(** [beginClosing: () => { turnController.beginClosing(); }] *)
Definition beginClosing (w : World) : World :=
  call E_beginClosing TurnController.beginClosing w.

(** [onClientAvailable]: [setActiveController(controller)], then
    [scheduleApplyPendingCancel()].  [setActiveController] has no column
    in the table: the lifecycle state stays. *)
Definition onClientAvailable (w : World) : World :=
  scheduleApplyPendingCancel (emit E_setActiveController w).

(** [onClientClosed: () => { turnController.clearActiveController(); }] *)
Definition onClientClosed (w : World) : World :=
  emit E_clearActiveController w.

(** [onPromptActive]: [markPromptActive()], then
    [await applyPendingCancel()], after which nothing is left to do: how
    the await ends is passed on to [runQueuedTask], which called. *)
Definition onPromptActive (w : World) : World :=
  applyPendingCancel (call E_markPromptActive TurnController.markPromptActive w).

(** [controlHandlers.cancelPrompt] is an async function with two awaits:
    [accepted = await turnController.requestCancel();
     if (!accepted) return false;
     await applyPendingCancel(); return true].
    It runs in three steps, and whatever else happens in the process may
    happen between them.  First step: [requestCancel()] is called and the
    handler is suspended. *)
Definition cancelPrompt_call (w : World) : World :=
  withSuspended (scheduled w) (S (awaitingAnswer w)) (awaitingApply w)
    (emit E_requestCancel w).

(** Second step: [requestCancel()] has settled, with the answer of a
    controller whose code is absent ([None]: it rejected).  A handler
    suspended at the first await throws, returns false, or calls
    [applyPendingCancel()] and is suspended again. *)
Definition cancelPrompt_answered (answer : option bool) (w : World) : World :=
  match awaitingAnswer w with
  | O => w
  | S n =>
      match answer with
      | None =>
          emit E_cancelThrew (withSuspended (scheduled w) n (awaitingApply w) w)
      | Some false =>
          emit (E_cancelResult false)
            (withSuspended (scheduled w) n (awaitingApply w) w)
      | Some true =>
          applyPendingCancel
            (withSuspended (scheduled w) n (S (awaitingApply w)) w)
      end
  end.

(** Third step: [applyPendingCancel()] has settled; a handler suspended
    at the second await returns true, or throws when the call rejected. *)
Definition cancelPrompt_applied (ok : bool) (w : World) : World :=
  match awaitingApply w with
  | O => w
  | S n =>
      emit (if ok then E_cancelResult true else E_cancelThrew)
        (withSuspended (scheduled w) (awaitingAnswer w) n w)
  end.

(** [controlHandlers.setSessionMode]:
    [await turnController.setSessionMode(modeId, timeoutMs)]; the handler
    does nothing after the await. *)
Definition setSessionMode (w : World) : World :=
  emit E_setSessionMode w.

(** [controlHandlers.setSessionConfigOption]:
    [return await turnController.setSessionConfigOption(...)]. *)
Definition setSessionConfigOption (w : World) : World :=
  emit E_setSessionConfigOption w.

(** [refreshHeartbeat()]: with [owner] set it rewrites the lease file; a
    failure of that is caught and logged, so it never throws. *)
Definition refreshHeartbeat (w : World) : World :=
  if owner w then emit E_heartbeat w else w.

(** What the timer runs every two seconds: [void refreshHeartbeat()]. *)
Definition onTimer (w : World) : World :=
  if heartbeatTimer w && owner w then emit E_timerHeartbeat w else w.

(** What can happen in the process while its main function is suspended
    at an [await]: the queue server calls a control handler, a suspended
    [cancelPrompt] goes on, a scheduled [applyPendingCancel()] settles,
    the heartbeat timer fires. *)
Inductive Outside : Type :=
| CancelCalled
| CancelAnswered (answer : option bool)
| CancelApplied (ok : bool)
| ScheduledApplySettled (ok : bool)
| SetSessionModeCalled
| SetSessionConfigOptionCalled
| TimerTick.

Definition outside (o : Outside) (w : World) : World :=
  match o with
  | CancelCalled => cancelPrompt_call w
  | CancelAnswered answer => cancelPrompt_answered answer w
  | CancelApplied ok => cancelPrompt_applied ok w
  | ScheduledApplySettled ok => scheduledApply_settled ok w
  | SetSessionModeCalled => setSessionMode w
  | SetSessionConfigOptionCalled => setSessionConfigOption w
  | TimerTick => onTimer w
  end.

(** What happens outside during one [await] of the main function. *)
Definition outsideAll (os : list Outside) (w : World) : World :=
  fold_left (fun acc o => outside o acc) os w.

(** What can happen between [beginTurn] and [endTurn]: the callbacks
    that [runQueuedTask] is given, and what happens outside meanwhile. *)
Inductive TurnEvent : Type :=
| ClientAvailable
| ClientClosed
| PromptActive
| Meanwhile (o : Outside).

Definition handle (e : TurnEvent) (w : World) : World :=
  match e with
  | ClientAvailable => onClientAvailable w
  | ClientClosed => onClientClosed w
  | PromptActive => onPromptActive w
  | Meanwhile o => outside o w
  end.

Definition handleAll (es : list TurnEvent) (w : World) : World :=
  fold_left (fun acc e => handle e acc) es w.

(** One task of the queue: the events that its run by
    [deps.runQueuedTask] gives rise to, and whether the promise of that
    run is rejected in the end; then what happens outside once the turn
    is over, before the main function goes on ([afterTurn]) and while it
    awaits the [refreshHeartbeat()] that follows a task that succeeded
    ([duringRefresh]). *)
Record Task : Type := {
  events : list TurnEvent;
  failed : bool;
  afterTurn : list Outside;
  duringRefresh : list Outside
}.

Definition runQueuedTask (task : Task) (w : World) : bool * World :=
  let w1 := handleAll (events task) w in
  (failed task, emit (E_taskOutcome (failed task)) w1).

(** [runPromptTurn]:
    [turnController.beginTurn(); try { return await run(); }
     finally { turnController.endTurn(); }].
    The boolean tells whether [run] threw; it is passed on either way. *)
Definition runPromptTurn (run : World -> bool * World) (w : World)
    : bool * World :=
  let w1 := call E_beginTurn TurnController.beginTurn w in
  let (threw, w2) := run w1 in
  (threw, call E_endTurn TurnController.endTurn w2).

(** What a pending [owner.nextTask(idleWaitMs)] meets: it resolves with a
    task or with nothing, it rejects, or something happens outside while
    it is pending. *)
Inductive NextTask : Type :=
| Returns (task : option Task)
| Rejects
| While (o : Outside).

(** How the [while (true)] loop of [runQueueOwnerProcess] is left. *)
Inductive LoopExit : Type :=
| NoTask          (* [nextTask] returned nothing: [break] *)
| TaskThrew       (* [runPromptTurn] rejected: the exception leaves the loop *)
| NextTaskThrew   (* [nextTask] rejected: the exception leaves the loop *)
| Waiting.        (* [nextTask] has not returned *)

(** [const task = await owner.nextTask(idleWaitMs)]: the call. *)
Definition callNextTask (queueOwnerTtlMs : Js.Number) (w : World) : World :=
  emit (E_nextTask (lifecycleState w) (Ttl.idleWaitMs queueOwnerTtlMs)) w.

(** The loop from a pending [nextTask] on.  [script] lists what the
    successive calls of [nextTask] meet; when the script is used up the
    owner is blocked in [nextTask]. *)
Fixpoint awaitNextTask (queueOwnerTtlMs : Js.Number) (verbose : bool)
    (script : list NextTask) (w : World) : LoopExit * World :=
  match script with
  | [] => (Waiting, w)
  | While o :: rest => awaitNextTask queueOwnerTtlMs verbose rest (outside o w)
  | Rejects :: _ => (NextTaskThrew, w)
  | Returns None :: _ =>
      (NoTask,
       if Js.gtZero queueOwnerTtlMs && verbose
       then emit E_ttlExpiredNotice w else w)
  | Returns (Some task) :: rest =>
      let (threw, w1) := runPromptTurn (runQueuedTask task) w in
      let w2 := outsideAll (afterTurn task) w1 in
      if threw then (TaskThrew, w2)
      else
        let w3 := outsideAll (duringRefresh task) (refreshHeartbeat w2) in
        awaitNextTask queueOwnerTtlMs verbose rest
          (callNextTask queueOwnerTtlMs w3)
  end.

(** The main loop. *)
Definition mainLoop (queueOwnerTtlMs : Js.Number) (verbose : bool)
    (script : list NextTask) (w : World) : LoopExit * World :=
  awaitNextTask queueOwnerTtlMs verbose script (callNextTask queueOwnerTtlMs w).

(** The tasks that the loop takes from the queue: those that [nextTask]
    returns until it returns nothing or rejects, or a task fails. *)
Fixpoint taken (script : list NextTask) : list Task :=
  match script with
  | [] => []
  | While _ :: rest => taken rest
  | Rejects :: _ => []
  | Returns None :: _ => []
  | Returns (Some task) :: rest =>
      task :: (if failed task then [] else taken rest)
  end.

(** The number of tasks taken that succeed. *)
Definition successes (script : list NextTask) : nat :=
  List.length (List.filter (fun task => negb (failed task)) (taken script)).

(** How the loop is left, read off the script. *)
Fixpoint leaves (script : list NextTask) : LoopExit :=
  match script with
  | [] => Waiting
  | While _ :: rest => leaves rest
  | Rejects :: _ => NextTaskThrew
  | Returns None :: _ => NoTask
  | Returns (Some task) :: rest =>
      if failed task then TaskThrew else leaves rest
  end.

(** How [tryAcquireQueueOwnerLease] ends. *)
Inductive Acquired : Type :=
| Lease
| NoLease           (* [undefined]: another owner holds the lease *)
| AcquireRejects.

(** How the calls that [runQueueOwnerProcess] makes on the lease store
    and on the queue server end: [tryAcquireQueueOwnerLease], and whether
    [SessionQueueOwner.start], [owner.close()] and
    [releaseQueueOwnerLease] resolve (or reject); and what happens
    outside while the main function awaits [SessionQueueOwner.start],
    the first [refreshHeartbeat()], [owner.close()] and
    [releaseQueueOwnerLease]. *)
Record Host : Type := {
  acquire : Acquired;
  starts : bool;
  closes : bool;
  releases : bool;
  duringStart : list Outside;
  duringFirstRefresh : list Outside;
  duringClose : list Outside;
  duringRelease : list Outside
}.

Inductive ProcessExit : Type :=
| NotOwner     (* the lease was not acquired *)
| Returned     (* the process ran to the end of [runQueueOwnerProcess] *)
| Rejected     (* ... or left it by an exception *)
| Running.     (* the process is blocked in [nextTask] *)

(** [owner = await SessionQueueOwner.start(lease, runtime.controlHandlers)]:
    the call, and what happens until it settles. *)
Definition serverStarting (host : Host) : World :=
  outsideAll (duringStart host) (emit E_serverStart initial).

(** The process at the head of the loop: it holds the lease, its server
    has started, the lease was refreshed once and the timer runs. *)
Definition started (host : Host) : World :=
  emit E_timerStart
    (withTimer true
       (outsideAll (duringFirstRefresh host)
          (refreshHeartbeat (withOwner true (serverStarting host))))).

(** [await releaseQueueOwnerLease(lease)]; the boolean tells whether it
    rejected. *)
Definition release (host : Host) (w : World) : bool * World :=
  (negb (releases host), outsideAll (duringRelease host) (emit E_leaseRelease w)).

(** The [finally] block of [runQueueOwnerProcess]; the boolean tells
    whether the block itself threw.  When [owner.close()] rejects, the
    release of the lease is not reached. *)
Definition finally_ (host : Host) (w : World) : bool * World :=
  let w1 :=
    if heartbeatTimer w then emit E_timerStop (withTimer false w) else w in
  let w2 := beginClosing w1 in
  if owner w2 then
    let w3 := outsideAll (duringClose host) (emit E_serverClose w2) in
    if closes host then release host w3 else (true, w3)
  else release host w2.

(** [runQueueOwnerProcess]. *)
Definition runQueueOwnerProcess (ttlMs : option Js.Number) (verbose : bool)
    (host : Host) (script : list NextTask) : ProcessExit * World :=
  let queueOwnerTtlMs := Ttl.normalizeQueueOwnerTtlMs ttlMs in
  match acquire host with
  | AcquireRejects => (Rejected, initial)
  | NoLease =>
      (NotOwner, if verbose then emit E_alreadyActiveNotice initial else initial)
  | Lease =>
      if negb (starts host)
      then (Rejected, snd (finally_ host (serverStarting host)))
      else
        let (exit, w4) := mainLoop queueOwnerTtlMs verbose script (started host) in
        match exit with
        | Waiting => (Running, w4)
        | NoTask =>
            let (threw, w5) := finally_ host w4 in
            (if threw then Rejected else Returned, w5)
        | TaskThrew | NextTaskThrew => (Rejected, snd (finally_ host w4))
        end
  end.

(** Every [nextTask] recorded in the log was called in the idle state. *)
Definition nextTaskWhenIdle (l : list Effect) : Prop :=
  Forall (fun e => match e with E_nextTask s _ => s = idle | _ => True end) l.

(** The effects of what happens outside the main function. *)
Definition outsideEffect (e : Effect) : Prop :=
  match e with
  | E_requestCancel | E_applyPendingCancel | E_cancelResult _ | E_cancelThrew
  | E_applyFailed | E_setSessionMode | E_setSessionConfigOption
  | E_timerHeartbeat => True
  | _ => False
  end.

(** The effects that can occur inside a turn, before the outcome of its
    task. *)
Definition insideTurn (e : Effect) : Prop :=
  match e with
  | E_setActiveController | E_clearActiveController | E_markPromptActive => True
  | _ => outsideEffect e
  end.

End OwnerRuntime.

(* ------------------------------------------------------------------ *)
(** ** errors.ts: what the client code throws                          *)
(* ------------------------------------------------------------------ *)

Module Errors.
Local Open Scope string_scope.

Inductive ErrorClass : Type := QueueConnectionError | QueueProtocolError.

(** The options object given to the two error constructors; a field that
    the caller leaves out is [None] (or [false] for the flag). *)
Record QueueError : Type := {
  errorClass : ErrorClass;
  message : string;
  detailCode : option string;
  origin : option string;
  retryable : option bool;
  outputCode : option string;
  acp : option string;
  outputAlreadyEmitted : bool
}.

(** A [NodeJS.ErrnoException]: only its [code] matters here. *)
Record ErrnoException : Type := {
  code : option string;
  errnoMessage : string
}.

Inductive Thrown : Type :=
| QueueErr (e : QueueError)
| SystemErr (e : ErrnoException).

(** [new QueueProtocolError(msg, {detailCode, origin: "queue", retryable: true})] *)
Definition protocolError (msg detail : string) : QueueError :=
  {| errorClass := QueueProtocolError;
     message := msg;
     detailCode := Some detail;
     origin := Some "queue";
     retryable := Some true;
     outputCode := None;
     acp := None;
     outputAlreadyEmitted := false |}.

(** [new QueueConnectionError(msg, {detailCode, origin: "queue", retryable: true})] *)
Definition connectionError (msg detail : string) : QueueError :=
  {| errorClass := QueueConnectionError;
     message := msg;
     detailCode := Some detail;
     origin := Some "queue";
     retryable := Some true;
     outputCode := None;
     acp := None;
     outputAlreadyEmitted := false |}.

Definition optEqb (a : option string) (b : string) : bool :=
  match a with
  | Some s => String.eqb s b
  | None => false
  end.

End Errors.

(* ------------------------------------------------------------------ *)
(** ** queue-ipc-client.ts: connecting to the owner                    *)
(* ------------------------------------------------------------------ *)

Module QueueConnect.
Import Errors.
Local Open Scope string_scope.
Local Open Scope list_scope.

Definition QUEUE_CONNECT_ATTEMPTS : nat := 40.
Definition QUEUE_CONNECT_RETRY_MS : Z := 50.

(** [shouldRetryQueueConnect] *)
Definition shouldRetryQueueConnect (error : ErrnoException) : bool :=
  optEqb (code error) "ENOENT" || optEqb (code error) "ECONNREFUSED".

Inductive Effect : Type :=
| C_connect (attempt : nat)
| C_isProcessAlive
| C_wait (ms : Z).

Inductive Outcome (Socket : Type) : Type :=
| Connected (s : Socket)
| NoOwner                       (* [undefined] *)
| Throws (e : ErrnoException).

Arguments Connected {Socket} s.
Arguments NoOwner {Socket}.
Arguments Throws {Socket} e.

Section Connect.
Context {Socket : Type}.

(** What the outside answers at each attempt: the result of
    [connectToSocket(owner.socketPath)] and, if it is asked, of
    [isProcessAlive(owner.pid)]. *)
Variable connectToSocket : nat -> Socket + ErrnoException.
Variable isProcessAlive : nat -> bool.

(** The statements after the [for] loop. *)
Definition afterLoop (lastError : option ErrnoException) : Outcome Socket :=
  match lastError with
  | Some e => if negb (shouldRetryQueueConnect e) then Throws e else NoOwner
  | None => NoOwner
  end.

(** The [for] loop of [connectToQueueOwner], with [remaining] iterations
    to go from [attempt] on. *)
Fixpoint connectLoop (remaining attempt : nat)
    (lastError : option ErrnoException) (log : list Effect)
    : Outcome Socket * list Effect :=
  match remaining with
  | O => (afterLoop lastError, log)
  | S remaining' =>
      let log1 := log ++ [C_connect attempt] in
      match connectToSocket attempt with
      | inl socket => (Connected socket, log1)
      | inr error =>
          if negb (shouldRetryQueueConnect error) then (Throws error, log1)
          else
            let log2 := log1 ++ [C_isProcessAlive] in
            if negb (isProcessAlive attempt) then (NoOwner, log2)
            else
              connectLoop remaining' (S attempt) (Some error)
                (log2 ++ [C_wait QUEUE_CONNECT_RETRY_MS])
      end
  end.

Definition connectToQueueOwner : Outcome Socket * list Effect :=
  connectLoop QUEUE_CONNECT_ATTEMPTS 0%nat None [].

(** The log of [k] failed attempts in a row, the first being number
    [from]: each connects, probes the owner's pid and waits. *)
Definition rounds (from k : nat) : list Effect :=
  List.flat_map
    (fun i => [C_connect i; C_isProcessAlive; C_wait QUEUE_CONNECT_RETRY_MS])
    (List.seq from k).

(** Attempt [i] failed with an error worth a retry while the owner's
    process was alive. *)
Definition retried (i : nat) : Prop :=
  exists e, connectToSocket i = inr e
            /\ shouldRetryQueueConnect e = true
            /\ isProcessAlive i = true.

(** How the loop ends after [k] retried attempts, the next attempt being
    number [n] and [left] attempts being left. *)
Definition ending (left n : nat) (out : Outcome Socket) (final : list Effect) : Prop :=
  (left = 0%nat /\ out = NoOwner /\ final = [])
  \/ ((0 < left)%nat /\ exists s, connectToSocket n = inl s
                   /\ out = Connected s /\ final = [C_connect n])
  \/ ((0 < left)%nat /\ exists e, connectToSocket n = inr e
                   /\ shouldRetryQueueConnect e = false
                   /\ out = Throws e /\ final = [C_connect n])
  \/ ((0 < left)%nat /\ exists e, connectToSocket n = inr e
                   /\ shouldRetryQueueConnect e = true
                   /\ isProcessAlive n = false
                   /\ out = NoOwner /\ final = [C_connect n; C_isProcessAlive]).

End Connect.

Definition isConnect (e : Effect) : bool :=
  match e with C_connect _ => true | _ => false end.

Definition attemptsMade (log : list Effect) : nat :=
  List.length (List.filter isConnect log).

End QueueConnect.

(* ------------------------------------------------------------------ *)
(** ** queue-ipc-client.ts: submitting a prompt                        *)
(* ------------------------------------------------------------------ *)

Module QueueSubmit.
Import Errors.
Local Open Scope string_scope.
Local Open Scope list_scope.

(** The [error] message of the owner. *)
Record ErrorMessage : Type := {
  em_code : option string;
  em_detailCode : option string;
  em_origin : option string;
  em_message : string;
  em_retryable : option bool;
  em_acp : option string
}.

(** The payload of a [result] message; [rest] stands for the fields
    other than [stopReason]. *)
Record PromptResult : Type := {
  stopReason : string;
  rest : string
}.

(** The messages of the owner ([queue-messages.ts]); notifications and
    operations are carried as opaque text. *)
Inductive Body : Type :=
| accepted
| session_update (notification : string)
| client_operation (operation : string)
| done (stopReason : string)
| result (r : PromptResult)
| cancel_result (cancelled : bool)
| set_mode_result
| set_config_option_result (response : string)
| error (e : ErrorMessage).

(** One non-empty line received from the socket, after [JSON.parse] and
    [parseQueueOwnerMessage]. *)
Inductive Line : Type :=
| InvalidJson                         (* [JSON.parse] threw *)
| Unrecognised                        (* [parseQueueOwnerMessage] gave nothing *)
| Message (requestId : string) (body : Body).

Section Framing.
(** [String.prototype.trim], and [JSON.parse] followed by
    [parseQueueOwnerMessage] ([queue-messages.ts]). *)
Variable trim : string -> string.
Variable parse : string -> Line.

(** The loop of the ['data'] listener on [buffer + chunk]: the text up to
    each newline is a line, what follows the last newline stays in the
    buffer.  [current] is the line being read. *)
Fixpoint splitLines (text current : string) : list string * string :=
  match text with
  | EmptyString => ([], current)
  | String c text' =>
      if Ascii.eqb c (Ascii.ascii_of_nat 10)
      then let (ls, buffer) := splitLines text' EmptyString in
           (current :: ls, buffer)
      else splitLines text' (current ++ String c EmptyString)
  end.

(** The lines that a chunk hands to [processLine], and the new buffer:
    each line is trimmed, and skipped when nothing is left of it. *)
Definition frame (buffer chunk : string) : list Line * string :=
  let (ls, buffer') := splitLines (buffer ++ chunk) EmptyString in
  (List.map parse
     (List.filter (fun l => negb (Nat.eqb (String.length l) 0))
        (List.map trim ls)),
   buffer').

End Framing.

(** What the socket reports.  A ['data'] event is represented by the
    non-empty lines that the chunk completes, in order ([frame] above):
    the handler calls [processLine] on each of them. *)
Inductive SocketEvent : Type :=
| Data (lines : list Line)
| SocketError (e : ErrnoException)
| Close.

(** [SessionSendOutcome] *)
Inductive SessionSendOutcome : Type :=
| Queued (sessionId requestId : string)      (* [{queued: true, sessionId, requestId}] *)
| Completed (r : PromptResult).

(** Calls on [options.outputFormatter]. *)
Inductive FormatterCall : Type :=
| F_setContext (sessionId requestId stream : string)
| F_onError (codeField : string) (detail : option string) (originField : string)
    (msg : string) (retry : option bool) (acpField : option string)
| F_onSessionUpdate (notification : string)
| F_onClientOperation (operation : string)
| F_onDone (stopReason : string)
| F_flush.

Inductive Effect : Type :=
| Fmt (c : FormatterCall)
| SocketWrite
| SocketEnd
| SocketDestroy
| RemoveAllListeners
| Resolve (r : SessionSendOutcome)
| Reject (e : Thrown).

(** [SubmitToQueueOwnerOptions], with the [requestId] that [randomUUID()]
    drew.  [queueErrorAlreadyEmitted] is
    [options.errorEmissionPolicy?.queueErrorAlreadyEmitted]. *)
Record Options : Type := {
  sessionId : string;
  requestId : string;
  waitForCompletion : bool;
  queueErrorAlreadyEmitted : option bool
}.

(** The variables closed over by the promise executor, the listeners of
    the socket, and the log. *)
Record State : Type := {
  settled : bool;
  acknowledged : bool;
  sawDone : bool;
  listening : bool;
  trace : list Effect
}.

Definition log (es : list Effect) (st : State) : State :=
  {| settled := settled st;
     acknowledged := acknowledged st;
     sawDone := sawDone st;
     listening := listening st;
     trace := trace st ++ es |}.

Definition settle (es : list Effect) (st : State) : State :=
  {| settled := true;
     acknowledged := acknowledged st;
     sawDone := sawDone st;
     listening := false;
     trace := trace st ++ es |}.

Definition setAcknowledged (st : State) : State :=
  {| settled := settled st;
     acknowledged := true;
     sawDone := sawDone st;
     listening := listening st;
     trace := trace st |}.

Definition setSawDone (st : State) : State :=
  {| settled := settled st;
     acknowledged := acknowledged st;
     sawDone := true;
     listening := listening st;
     trace := trace st |}.

(** [finishResolve]; [destroyed] is [socket.destroyed] at that moment:
    false while the socket delivers data, true once it reports an error
    or its closing. *)
Definition finishResolve (destroyed : bool) (r : SessionSendOutcome)
    (st : State) : State :=
  if settled st then st
  else settle ([RemoveAllListeners]
               ++ (if destroyed then [] else [SocketEnd])
               ++ [Resolve r]) st.

(** [finishReject] *)
Definition finishReject (destroyed : bool) (e : Thrown) (st : State) : State :=
  if settled st then st
  else settle ([RemoveAllListeners]
               ++ (if destroyed then [] else [SocketDestroy])
               ++ [Reject e]) st.

Definition orElse {A : Type} (o : option A) (d : A) : A :=
  match o with Some a => a | None => d end.

Section Submit.
Variable options : Options.

Definition promptContext (rid : string) : Effect :=
  Fmt (F_setContext (sessionId options) rid "prompt").

(** The error built from an [error] message. *)
Definition ownerError (m : ErrorMessage) : QueueError :=
  {| errorClass := QueueConnectionError;
     message := em_message m;
     detailCode := em_detailCode m;
     origin := Some (orElse (em_origin m) "queue");
     retryable := em_retryable m;
     outputCode := em_code m;
     acp := em_acp m;
     outputAlreadyEmitted := orElse (queueErrorAlreadyEmitted options) true |}.

(** [processLine] *)
Definition processLine (line : Line) (st : State) : State :=
  match line with
  | InvalidJson =>
      finishReject false
        (QueueErr (protocolError "Queue owner sent invalid JSON payload"
                     "QUEUE_PROTOCOL_INVALID_JSON")) st
  | Unrecognised =>
      finishReject false
        (QueueErr (protocolError "Queue owner sent malformed message"
                     "QUEUE_PROTOCOL_MALFORMED_MESSAGE")) st
  | Message rid body =>
      if negb (String.eqb rid (requestId options)) then
        finishReject false
          (QueueErr (protocolError "Queue owner sent malformed message"
                       "QUEUE_PROTOCOL_MALFORMED_MESSAGE")) st
      else
        match body with
        | accepted =>
            let st1 := log [promptContext rid] (setAcknowledged st) in
            if negb (waitForCompletion options)
            then finishResolve false (Queued (sessionId options) (requestId options)) st1
            else st1
        | error m =>
            let st1 :=
              log [promptContext rid;
                   Fmt (F_onError (orElse (em_code m) "RUNTIME") (em_detailCode m)
                          (orElse (em_origin m) "queue") (em_message m)
                          (em_retryable m) (em_acp m));
                   Fmt F_flush] st in
            finishReject false (QueueErr (ownerError m)) st1
        | _ =>
            if negb (acknowledged st) then
              finishReject false
                (QueueErr (connectionError "Queue owner did not acknowledge request"
                             "QUEUE_ACK_MISSING")) st
            else
              match body with
              | session_update n => log [Fmt (F_onSessionUpdate n)] st
              | client_operation op => log [Fmt (F_onClientOperation op)] st
              | done sr => setSawDone (log [Fmt (F_onDone sr)] st)
              | result r =>
                  let st1 :=
                    if negb (sawDone st)
                    then log [Fmt (F_onDone (stopReason r))] st else st in
                  finishResolve false (Completed r) (log [Fmt F_flush] st1)
              | _ =>
                  finishReject false
                    (QueueErr (protocolError "Queue owner returned unexpected response"
                                 "QUEUE_PROTOCOL_UNEXPECTED_RESPONSE")) st
              end
        end
  end.

(** The ['data'] listener: every line of the chunk goes through
    [processLine], also those that follow the line that settled the call. *)
Definition onData (lines : list Line) (st : State) : State :=
  fold_left (fun acc l => processLine l acc) lines st.

(** The ['close'] listener. *)
Definition onClose (st : State) : State :=
  if settled st then st
  else if negb (acknowledged st) then
    finishReject true
      (QueueErr (connectionError "Queue owner disconnected before acknowledging request"
                   "QUEUE_DISCONNECTED_BEFORE_ACK")) st
  else if negb (waitForCompletion options) then
    finishResolve true (Queued (sessionId options) (requestId options)) st
  else
    finishReject true
      (QueueErr (connectionError "Queue owner disconnected before prompt completion"
                   "QUEUE_DISCONNECTED_BEFORE_COMPLETION")) st.

(** The ['error'] listener. *)
Definition onSocketError (e : ErrnoException) (st : State) : State :=
  finishReject true (SystemErr e) st.

(** A socket event reaches its listener only while the listeners are
    attached ([finishResolve] and [finishReject] remove them all). *)
Definition step (st : State) (ev : SocketEvent) : State :=
  if negb (listening st) then st
  else
    match ev with
    | Data lines => onData lines st
    | SocketError e => onSocketError e st
    | Close => onClose st
    end.

(** The state once the promise executor has run: the context is set, the
    listeners are attached and the request is written. *)
Definition start : State :=
  {| settled := false;
     acknowledged := false;
     sawDone := false;
     listening := true;
     trace := [promptContext (requestId options); SocketWrite] |}.

(** [submitToQueueOwner] on a connected socket that reports [events]. *)
Definition submitToQueueOwner (events : list SocketEvent) : State :=
  fold_left step events start.

End Submit.

(** How the promise of [submitToQueueOwner] was settled, if it was: the
    first [resolve] or [reject] of the log. *)
Fixpoint settlement (l : list Effect) : option (SessionSendOutcome + Thrown) :=
  match l with
  | [] => None
  | Resolve r :: _ => Some (inl r)
  | Reject e :: _ => Some (inr e)
  | _ :: l' => settlement l'
  end.

Definition isOnDone (e : Effect) : bool :=
  match e with Fmt (F_onDone _) => true | _ => false end.

Definition isResolve (e : Effect) : bool :=
  match e with Resolve _ => true | _ => false end.

(** The part of a log that precedes its first [resolve]. *)
Fixpoint beforeResolve (l : list Effect) : list Effect :=
  match l with
  | [] => []
  | e :: l' => if isResolve e then [] else e :: beforeResolve l'
  end.

(** Number of [onDone] calls in a log. *)
Definition onDoneCalls (l : list Effect) : nat :=
  List.length (List.filter isOnDone l).

Definition isDoneLine (requestId : string) (l : Line) : bool :=
  match l with
  | Message rid (done _) => String.eqb rid requestId
  | _ => false
  end.

Definition isSettle (e : Effect) : bool :=
  match e with Resolve _ | Reject _ => true | _ => false end.

(** 1 for a [done] message for [requestId], 0 for any other line. *)
Definition doneStep (options : Options) (line : Line) : nat :=
  if isDoneLine (requestId options) line then 1%nat else 0%nat.

(** The lines that a sequence of socket events delivers. *)
Definition allLines (events : list SocketEvent) : list Line :=
  List.flat_map (fun ev => match ev with Data ls => ls | _ => [] end) events.

(** Number of [done] messages for [requestId] among some lines. *)
Definition doneLines (requestId : string) (ls : list Line) : nat :=
  List.length (List.filter (isDoneLine requestId) ls).

(** A call that is not settled still listens and has neither resolved
    nor rejected. *)
Definition wellFormed (st : State) : Prop :=
  settled st = false -> listening st = true /\ settlement (trace st) = None.

(** The account of [onDone] calls once [n] [done] messages have come in. *)
Definition doneAccount (n : nat) (st : State) : Prop :=
  (settled st = false ->
     settlement (trace st) = None
     /\ (onDoneCalls (trace st) <= n)%nat
     /\ (sawDone st = true <-> (1 <= onDoneCalls (trace st))%nat))
  /\ (forall out, settlement (trace st) = Some (inl out) ->
        (exists r, out = Completed r)
        /\ (1 <= onDoneCalls (beforeResolve (trace st)))%nat
        /\ (onDoneCalls (beforeResolve (trace st)) <= Nat.max 1 n)%nat).

(** What one handler run did, given the entries [added] to the log: the
    call stays as it was, or it is rejected, or it is resolved. *)
Definition lineEffect (options : Options) (line : Line) (st st' : State)
    (added : list Effect) : Prop :=
  if settled st then settled st' = true /\ settlement added = None
  else
    match settlement added with
    | None =>
        settled st' = false /\ listening st' = listening st
        /\ ((onDoneCalls added = 0%nat /\ sawDone st' = sawDone st)
            \/ (onDoneCalls added = 1%nat /\ sawDone st' = true
                /\ isDoneLine (requestId options) line = true
                /\ acknowledged st = true))
    | Some (inr _) => settled st' = true /\ listening st' = false
    | Some (inl out) =>
        settled st' = true /\ listening st' = false
        /\ (waitForCompletion options = true ->
            acknowledged st = true
            /\ (exists r, out = Completed r)
            /\ onDoneCalls (beforeResolve added)
               = if sawDone st then 0%nat else 1%nat)
    end.

(** Number of [resolve] and [reject] calls in a log. *)
Definition settlements (l : list Effect) : nat :=
  List.length (List.filter isSettle l).

(** The formatter calls that carry what the owner streams. *)
Definition isStreamCall (e : Effect) : bool :=
  match e with
  | Fmt (F_onSessionUpdate _) | Fmt (F_onClientOperation _) | Fmt (F_onDone _) => true
  | _ => false
  end.

Definition streamCalls (l : list Effect) : nat :=
  List.length (List.filter isStreamCall l).

(** What holds of a [QueueProtocolError]: it is retryable, of origin
    [queue], with one of three detail codes. *)
Definition protocolErrorShape (e : QueueError) : Prop :=
  errorClass e = QueueProtocolError ->
  retryable e = Some true
  /\ origin e = Some "queue"
  /\ (detailCode e = Some "QUEUE_PROTOCOL_INVALID_JSON"
      \/ detailCode e = Some "QUEUE_PROTOCOL_MALFORMED_MESSAGE"
      \/ detailCode e = Some "QUEUE_PROTOCOL_UNEXPECTED_RESPONSE").

Definition rejectShape (x : Effect) : Prop :=
  match x with
  | Reject (QueueErr e) => protocolErrorShape e
  | _ => True
  end.

(** What one run of [processLine] keeps, [added] being what it logs. *)
Definition lineFacts (options : Options) (st st' : State) (added : list Effect)
    : Prop :=
  settlements added
  = (if settled st then 0 else if settled st' then 1 else 0)%nat
  /\ (settled st = true -> settled st' = true)
  /\ listening st'
     = (if settled st' then (if settled st then listening st else false)
        else listening st)
  /\ (acknowledged st = true -> acknowledged st' = true)
  /\ (streamCalls added = 0%nat \/ acknowledged st = true)
  /\ (existsb isResolve added = false \/ acknowledged st' = true)
  /\ Forall rejectShape added
  /\ (waitForCompletion options = false -> acknowledged st = false ->
      settled st = false ->
      (settled st' = false -> acknowledged st' = false)
      /\ (forall out, settlement added = Some (inl out) ->
                      out = Queued (sessionId options) (requestId options))).

(** What every state of a submission keeps. *)
Record Kept (options : Options) (st : State) : Prop := {
  kept_settlements :
    settlements (trace st) = (if settled st then 1 else 0)%nat;
  kept_deaf : settled st = true -> listening st = false;
  kept_unacknowledged :
    acknowledged st = false ->
    streamCalls (trace st) = 0%nat /\ existsb isResolve (trace st) = false;
  kept_rejects : Forall rejectShape (trace st);
  kept_queued_pending :
    waitForCompletion options = false -> settled st = false ->
    acknowledged st = false;
  kept_queued :
    waitForCompletion options = false ->
    forall out, settlement (trace st) = Some (inl out) ->
                out = Queued (sessionId options) (requestId options)
}.

End QueueSubmit.

(* ------------------------------------------------------------------ *)
(** ** queue-ipc-client.ts and session-owner-spawn.ts: spawn-or-attach  *)
(* ------------------------------------------------------------------ *)

Module Spawn.
Import Errors.
Local Abbreviation SessionSendOutcome := QueueSubmit.SessionSendOutcome.
Local Open Scope string_scope.
Local Open Scope list_scope.

Definition QUEUE_OWNER_STARTUP_TIMEOUT_MS : Z := 10000.
Definition QUEUE_OWNER_RESPAWN_BACKOFF_MS : Z := 250.
Definition QUEUE_CONNECT_RETRY_MS : Z := QueueConnect.QUEUE_CONNECT_RETRY_MS.

(** What the outside answers during one round of the loop of
    [sendViaDetachedQueueOwner]: the lease store and the socket during
    [trySubmitToRunningOwner], then the clock. *)
Record Round : Type := {
  ownerRecord : bool;            (* [readQueueOwnerRecord] found a record *)
  usableBefore : bool;           (* first [ensureOwnerIsUsable] *)
  submitted : option SessionSendOutcome + Thrown;
                                 (* [submitToQueueOwner]: a value or a throw *)
  usableAfter : bool;            (* second [ensureOwnerIsUsable] *)
  now : Z                        (* [Date.now()] read after the attempt *)
}.

Definition notAccepting : QueueError :=
  connectionError "Session queue owner is running but not accepting queue requests"
    "QUEUE_NOT_ACCEPTING_REQUESTS".

(** [trySubmitToRunningOwner] *)
Definition trySubmitToRunningOwner (r : Round)
    : option SessionSendOutcome + Thrown :=
  if negb (ownerRecord r) then inl None
  else if negb (usableBefore r) then inl None
  else
    match submitted r with
    | inr e => inr e
    | inl (Some outcome) => inl (Some outcome)
    | inl None =>
        if negb (usableAfter r) then inl None
        else inr (QueueErr notAccepting)
    end.

(** [isQueueNotAcceptingError] *)
Definition isQueueNotAcceptingError (e : Thrown) : bool :=
  match e with
  | QueueErr q =>
      match errorClass q with
      | QueueConnectionError => optEqb (detailCode q) "QUEUE_NOT_ACCEPTING_REQUESTS"
      | QueueProtocolError => false
      end
  | SystemErr _ => false
  end.

Definition timedOutAccepting : QueueError :=
  connectionError
    "Timed out waiting for detached queue owner to accept prompt requests"
    "QUEUE_NOT_ACCEPTING_REQUESTS".

Definition timedOutStarting : QueueError :=
  connectionError "Timed out waiting for detached queue owner to start"
    "QUEUE_NOT_ACCEPTING_REQUESTS".

Inductive Effect : Type :=
| S_trySubmit
| S_spawn (at_ : Z)              (* [spawnDetachedQueueOwner(ownerSpawn)] *)
| S_wait (ms : Z).

Inductive Outcome : Type :=
| Returns (o : SessionSendOutcome)
| Raises (e : Thrown)
| Pending.                       (* the script is used up: still looping *)

(** The [for (;;)] loop. *)
Fixpoint loop (startupDeadline lastSpawnAttemptAt : Z) (script : list Round)
    (log : list Effect) : Outcome * list Effect :=
  match script with
  | [] => (Pending, log)
  | r :: script' =>
      let log1 := log ++ [S_trySubmit] in
      match trySubmitToRunningOwner r with
      | inl (Some queuedToOwner) => (Returns queuedToOwner, log1)
      | inr error =>
          if negb (isQueueNotAcceptingError error) then (Raises error, log1)
          else if now r >=? startupDeadline
          then (Raises (QueueErr timedOutAccepting), log1)
          else loop startupDeadline lastSpawnAttemptAt script'
                 (log1 ++ [S_wait QUEUE_CONNECT_RETRY_MS])
      | inl None =>
          if now r >=? startupDeadline
          then (Raises (QueueErr timedOutStarting), log1)
          else if now r - lastSpawnAttemptAt >=? QUEUE_OWNER_RESPAWN_BACKOFF_MS
          then loop startupDeadline (now r) script'
                 (log1 ++ [S_spawn (now r); S_wait QUEUE_CONNECT_RETRY_MS])
          else loop startupDeadline lastSpawnAttemptAt script'
                 (log1 ++ [S_wait QUEUE_CONNECT_RETRY_MS])
      end
  end.

(** [sendViaDetachedQueueOwner], once [ownerSpawn] is built; [start] is
    the [Date.now()] that fixes the deadline. *)
Definition sendViaDetachedQueueOwner (start : Z) (script : list Round)
    : Outcome * list Effect :=
  loop (start + QUEUE_OWNER_STARTUP_TIMEOUT_MS) 0 script [].

(** The moments at which a detached owner was started. *)
Fixpoint spawnTimes (log : list Effect) : list Z :=
  match log with
  | [] => []
  | S_spawn t :: l => t :: spawnTimes l
  | _ :: l => spawnTimes l
  end.

(** Each moment of [ts] is at least the respawn backoff after the one
    before it, [last] being the one before the first. *)
Fixpoint spaced (last : Z) (ts : list Z) : Prop :=
  match ts with
  | [] => True
  | t :: ts' => last + QUEUE_OWNER_RESPAWN_BACKOFF_MS <= t /\ spaced t ts'
  end.

(** The attempt of round [r] found no owner, or an owner that does not
    accept requests yet. *)
Definition stalled (r : Round) : Prop :=
  trySubmitToRunningOwner r = inl None
  \/ exists e, trySubmitToRunningOwner r = inr e
               /\ isQueueNotAcceptingError e = true.

(** ... and the clock had not reached the deadline, so the loop goes on. *)
Definition continuing (deadline : Z) (r : Round) : Prop :=
  stalled r /\ now r < deadline.

Definition isWait (e : Effect) : bool :=
  match e with S_wait _ => true | _ => false end.

Definition isTrySubmit (e : Effect) : bool :=
  match e with S_trySubmit => true | _ => false end.

Definition count (f : Effect -> bool) (log : list Effect) : nat :=
  List.length (List.filter f log).

End Spawn.

(* ------------------------------------------------------------------ *)
(** ** output.ts: the output formatters                                *)
(* ------------------------------------------------------------------ *)

Module Output.
Local Open Scope string_scope.
Local Open Scope list_scope.

Inductive OutputFormat : Type := text | json | quiet.

Inductive Content : Type :=
| TextContent (t : string)
| OtherContent.

Record PlanEntry : Type := {
  entryContent : string;
  entryStatus : string;
  entryPriority : string
}.

(** [notification.update], by its [sessionUpdate] tag. *)
Inductive SessionUpdate : Type :=
| agent_message_chunk (c : Content)
| agent_thought_chunk (c : Content)
| tool_call (title toolCallId : string) (status : option string)
| tool_call_update (title : option string) (toolCallId : string)
    (status : option string)
| plan (entries : list PlanEntry)
| other_update (tag : string).

(** The events that the json formatter serialises. *)
Inductive OutputEvent : Type :=
| ev_text (content timestamp : string)
| ev_thought (content timestamp : string)
| ev_tool_call (title : option string) (toolCallId : string)
    (status : option string) (timestamp : string)
| ev_plan (entries : list PlanEntry) (timestamp : string)
| ev_update (tag timestamp : string)
| ev_done (stopReason timestamp : string).

(** One [stdout.write]: plain text, or [JSON.stringify(event)] followed by
    a newline. *)
Inductive Written : Type :=
| Plain (s : string)
| JsonLine (e : OutputEvent).

(** A formatter object: what it has written and, for the quiet one, the
    chunks it keeps. *)
Record Formatter : Type := {
  format : OutputFormat;
  stdout : list Written;
  chunks : list string
}.

(** [createOutputFormatter] *)
Definition createOutputFormatter (f : OutputFormat) : Formatter :=
  {| format := f; stdout := []; chunks := [] |}.

Definition write (ws : list Written) (o : Formatter) : Formatter :=
  {| format := format o; stdout := stdout o ++ ws; chunks := chunks o |}.

Definition push (c : string) (o : Formatter) : Formatter :=
  {| format := format o; stdout := stdout o; chunks := chunks o ++ [c] |}.

(** [asStatus] *)
Definition asStatus (status : option string) : string :=
  match status with Some s => s | None => "unknown" end.

Definition newline : string := String (Ascii.ascii_of_nat 10) EmptyString.

Fixpoint endsWithNewline (s : string) : bool :=
  match s with
  | EmptyString => false
  | String c EmptyString => Ascii.eqb c (Ascii.ascii_of_nat 10)
  | String _ s' => endsWithNewline s'
  end.

Definition toolLine (title status : string) : string :=
  newline ++ "[tool] " ++ title ++ " (" ++ status ++ ")" ++ newline.

(** [TextOutputFormatter.onSessionUpdate] *)
Definition text_onSessionUpdate (u : SessionUpdate) (o : Formatter) : Formatter :=
  match u with
  | agent_message_chunk (TextContent t) => write [Plain t] o
  | agent_thought_chunk (TextContent t) =>
      write [Plain (newline ++ "[thought] " ++ t ++ newline)] o
  | tool_call title _ status => write [Plain (toolLine title (asStatus status))] o
  | tool_call_update title toolCallId status =>
      write [Plain (toolLine (match title with Some t => t | None => toolCallId end)
                      (asStatus status))] o
  | plan entries =>
      write
        (Plain (newline ++ "[plan]" ++ newline)
         :: List.map (fun e => Plain ("- (" ++ entryStatus e ++ ") "
                                      ++ entryContent e ++ newline)) entries) o
  | _ => o
  end.

(** [JsonOutputFormatter.onSessionUpdate]; [timestamp] is [nowIso()]. *)
Definition json_onSessionUpdate (timestamp : string) (u : SessionUpdate)
    (o : Formatter) : Formatter :=
  match u with
  | agent_message_chunk (TextContent t) => write [JsonLine (ev_text t timestamp)] o
  | agent_message_chunk OtherContent => o
  | agent_thought_chunk (TextContent t) => write [JsonLine (ev_thought t timestamp)] o
  | agent_thought_chunk OtherContent => o
  | tool_call title toolCallId status =>
      write [JsonLine (ev_tool_call (Some title) toolCallId status timestamp)] o
  | tool_call_update title toolCallId status =>
      write [JsonLine (ev_tool_call title toolCallId status timestamp)] o
  | plan entries => write [JsonLine (ev_plan entries timestamp)] o
  | other_update tag => write [JsonLine (ev_update tag timestamp)] o
  end.

(** [QuietOutputFormatter.onSessionUpdate] *)
Definition quiet_onSessionUpdate (u : SessionUpdate) (o : Formatter) : Formatter :=
  match u with
  | agent_message_chunk (TextContent t) => push t o
  | _ => o
  end.

(** The three [onDone] methods. *)
Definition text_onDone (stopReason : string) (o : Formatter) : Formatter :=
  write [Plain (newline ++ "[done] " ++ stopReason ++ newline)] o.

Definition json_onDone (timestamp stopReason : string) (o : Formatter) : Formatter :=
  write [JsonLine (ev_done stopReason timestamp)] o.

Definition quiet_onDone (o : Formatter) : Formatter :=
  let t := String.concat "" (chunks o) in
  write [Plain (if endsWithNewline t then t else t ++ newline)] o.

(** The members a caller may try to invoke on a formatter: those of the
    classes, and the two more that [submitToQueueOwner] calls. *)
Inductive Member : Type :=
| m_onSessionUpdate | m_onDone | m_flush
| m_onError | m_setContext | m_onClientOperation.

(** The methods that each class of [output.ts] offers to its callers.
    ([JsonOutputFormatter] has a private helper [emit] besides, which only
    its own methods call; it is written out in [json_onSessionUpdate] and
    [json_onDone].) *)
Definition members (f : OutputFormat) : list Member :=
  match f with
  | text => [m_onSessionUpdate; m_onDone; m_flush]
  | json => [m_onSessionUpdate; m_onDone; m_flush]
  | quiet => [m_onSessionUpdate; m_onDone; m_flush]
  end.

Definition Member_eqb (a b : Member) : bool :=
  match a, b with
  | m_onSessionUpdate, m_onSessionUpdate
  | m_onDone, m_onDone
  | m_flush, m_flush
  | m_onError, m_onError
  | m_setContext, m_setContext
  | m_onClientOperation, m_onClientOperation => true
  | _, _ => false
  end.

Definition declares (f : OutputFormat) (m : Member) : bool :=
  List.existsb (Member_eqb m) (members f).

(** A method call with its arguments; [timestamp] is what [nowIso()]
    returns during the call. *)
Inductive Call : Type :=
| onSessionUpdate (timestamp : string) (u : SessionUpdate)
| onDone (timestamp stopReason : string)
| flush
| onError (codeField : string) (detail : option string) (originField msg : string)
| setContext (sessionId requestId stream : string)
| onClientOperation (operation : string).

Definition memberOf (c : Call) : Member :=
  match c with
  | onSessionUpdate _ _ => m_onSessionUpdate
  | onDone _ _ => m_onDone
  | flush => m_flush
  | onError _ _ _ _ => m_onError
  | setContext _ _ _ => m_setContext
  | onClientOperation _ => m_onClientOperation
  end.

(** [formatter.member(args)]: the call of a member that the object does
    not have throws a [TypeError] ([None]). *)
Definition invoke (c : Call) (o : Formatter) : option Formatter :=
  if negb (declares (format o) (memberOf c)) then None
  else
    match c, format o with
    | onSessionUpdate _ u, text => Some (text_onSessionUpdate u o)
    | onSessionUpdate ts u, json => Some (json_onSessionUpdate ts u o)
    | onSessionUpdate _ u, quiet => Some (quiet_onSessionUpdate u o)
    | onDone _ sr, text => Some (text_onDone sr o)
    | onDone ts sr, json => Some (json_onDone ts sr o)
    | onDone _ _, quiet => Some (quiet_onDone o)
    | flush, _ => Some o
    | onError _ _ _ _, _ => None
    | setContext _ _ _, _ => None
    | onClientOperation _, _ => None
    end.

(** A sequence of calls on a formatter; a call that throws ends it. *)
Definition feed (calls : list Call) (o : Formatter) : option Formatter :=
  fold_left
    (fun acc c => match acc with Some o' => invoke c o' | None => None end)
    calls (Some o).

(** The texts of the agent's message chunks among some updates. *)
Definition messageTexts (updates : list SessionUpdate) : list string :=
  List.flat_map
    (fun u => match u with
              | agent_message_chunk (TextContent t) => [t]
              | _ => []
              end) updates.

(** The [onSessionUpdate] calls for some updates, all stamped [timestamp]. *)
Definition updateCalls (timestamp : string) (updates : list SessionUpdate)
    : list Call :=
  List.map (onSessionUpdate timestamp) updates.

Definition isJsonLine (w : Written) : bool :=
  match w with JsonLine _ => true | Plain _ => false end.

(** A message or thought chunk whose content is not text. *)
Definition isOtherChunk (u : SessionUpdate) : bool :=
  match u with
  | agent_message_chunk OtherContent | agent_thought_chunk OtherContent => true
  | _ => false
  end.

Definition isMessageChunk (u : SessionUpdate) : bool :=
  match u with agent_message_chunk _ => true | _ => false end.

(** What a reader of the stream sees of the plain writes. *)
Fixpoint plainText (ws : list Written) : string :=
  match ws with
  | [] => ""
  | Plain s :: ws' => s ++ plainText ws'
  | JsonLine _ :: ws' => plainText ws'
  end.

(** [chunks.join("")] *)
Fixpoint join (chunks : list string) : string :=
  match chunks with
  | [] => ""
  | c :: chunks' => c ++ join chunks'
  end.

End Output.

(* ------------------------------------------------------------------ *)
(** ** queue-ipc-client.ts: control requests                           *)
(* ------------------------------------------------------------------ *)

Module QueueControl.
Import Errors.
Local Open Scope string_scope.
Local Open Scope list_scope.

Local Abbreviation Body := QueueSubmit.Body.
Local Abbreviation Line := QueueSubmit.Line.
Local Abbreviation SocketEvent := QueueSubmit.SocketEvent.

Inductive Effect : Type :=
| SocketWrite
| SocketEnd
| SocketDestroy
| RemoveAllListeners
| Resolve (requestId : string) (body : Body)     (* [resolve(message)] *)
| Reject (e : Thrown).

(** The variables closed over by the promise executor of
    [submitControlToQueueOwner], the listeners and the log. *)
Record State : Type := {
  settled : bool;
  acknowledged : bool;
  listening : bool;
  trace : list Effect
}.

Definition settle (es : list Effect) (st : State) : State :=
  {| settled := true;
     acknowledged := acknowledged st;
     listening := false;
     trace := trace st ++ es |}.

Definition setAcknowledged (st : State) : State :=
  {| settled := settled st;
     acknowledged := true;
     listening := listening st;
     trace := trace st |}.

(** [finishResolve] and [finishReject] of [submitControlToQueueOwner];
    [destroyed] is [socket.destroyed] at that moment. *)
Definition finishResolve (destroyed : bool) (rid : string) (body : Body)
    (st : State) : State :=
  if settled st then st
  else settle ([RemoveAllListeners]
               ++ (if destroyed then [] else [SocketEnd])
               ++ [Resolve rid body]) st.

Definition finishReject (destroyed : bool) (e : Thrown) (st : State) : State :=
  if settled st then st
  else settle ([RemoveAllListeners]
               ++ (if destroyed then [] else [SocketDestroy])
               ++ [Reject e]) st.

Section Control.
(** [request.requestId] and the type guard [isExpectedResponse]. *)
Variable requestId : string.
Variable isExpectedResponse : string -> Body -> bool.

(** The error built from an [error] message. *)
Definition ownerError (m : QueueSubmit.ErrorMessage) : QueueError :=
  {| errorClass := QueueConnectionError;
     message := QueueSubmit.em_message m;
     detailCode := QueueSubmit.em_detailCode m;
     origin := Some (QueueSubmit.orElse (QueueSubmit.em_origin m) "queue");
     retryable := QueueSubmit.em_retryable m;
     outputCode := QueueSubmit.em_code m;
     acp := QueueSubmit.em_acp m;
     outputAlreadyEmitted := false |}.

(** [processLine] of [submitControlToQueueOwner] *)
Definition processLine (line : Line) (st : State) : State :=
  match line with
  | QueueSubmit.InvalidJson =>
      finishReject false
        (QueueErr (protocolError "Queue owner sent invalid JSON payload"
                     "QUEUE_PROTOCOL_INVALID_JSON")) st
  | QueueSubmit.Unrecognised =>
      finishReject false
        (QueueErr (protocolError "Queue owner sent malformed message"
                     "QUEUE_PROTOCOL_MALFORMED_MESSAGE")) st
  | QueueSubmit.Message rid body =>
      if negb (String.eqb rid requestId) then
        finishReject false
          (QueueErr (protocolError "Queue owner sent malformed message"
                       "QUEUE_PROTOCOL_MALFORMED_MESSAGE")) st
      else
        match body with
        | QueueSubmit.accepted => setAcknowledged st
        | QueueSubmit.error m => finishReject false (QueueErr (ownerError m)) st
        | _ =>
            if negb (acknowledged st) then
              finishReject false
                (QueueErr (connectionError "Queue owner did not acknowledge request"
                             "QUEUE_ACK_MISSING")) st
            else if negb (isExpectedResponse rid body) then
              finishReject false
                (QueueErr (protocolError "Queue owner returned unexpected response"
                             "QUEUE_PROTOCOL_UNEXPECTED_RESPONSE")) st
            else finishResolve false rid body st
        end
  end.

Definition onData (lines : list Line) (st : State) : State :=
  fold_left (fun acc l => processLine l acc) lines st.

(** The ['close'] listener of [submitControlToQueueOwner]. *)
Definition onClose (st : State) : State :=
  if settled st then st
  else if negb (acknowledged st) then
    finishReject true
      (QueueErr (connectionError "Queue owner disconnected before acknowledging request"
                   "QUEUE_DISCONNECTED_BEFORE_ACK")) st
  else
    finishReject true
      (QueueErr (connectionError "Queue owner disconnected before responding"
                   "QUEUE_DISCONNECTED_BEFORE_COMPLETION")) st.

Definition step (st : State) (ev : SocketEvent) : State :=
  if negb (listening st) then st
  else
    match ev with
    | QueueSubmit.Data lines => onData lines st
    | QueueSubmit.SocketError e => finishReject true (SystemErr e) st
    | QueueSubmit.Close => onClose st
    end.

Definition start : State :=
  {| settled := false;
     acknowledged := false;
     listening := true;
     trace := [SocketWrite] |}.

(** The promise of [submitControlToQueueOwner] on a connected socket that
    reports [events]. *)
Definition exchange (events : list SocketEvent) : State :=
  fold_left step events start.

End Control.

(** How the promise was settled, if it was. *)
Fixpoint settlement (l : list Effect) : option (string * Body + Thrown) :=
  match l with
  | [] => None
  | Resolve rid body :: _ => Some (inl (rid, body))
  | Reject e :: _ => Some (inr e)
  | _ :: l' => settlement l'
  end.

Definition isSettle (e : Effect) : bool :=
  match e with Resolve _ _ | Reject _ => true | _ => false end.

(** Number of [resolve] and [reject] calls in a log. *)
Definition settlements (l : list Effect) : nat :=
  List.length (List.filter isSettle l).

(** What an [await] of one of the client's functions yields. *)
Inductive Result (A : Type) : Type :=
| Value (a : A)
| Undefined
| Throws (e : Thrown)
| Unsettled.                    (* the promise has not settled *)

Arguments Value {A} a.
Arguments Undefined {A}.
Arguments Throws {A} e.
Arguments Unsettled {A}.

(** What [connectToQueueOwner] gave: a socket, taken as the events it
    will report, or nothing, or an error. *)
Definition Connection : Type := QueueConnect.Outcome (list SocketEvent).

(** [submitControlToQueueOwner] *)
Definition submitControlToQueueOwner (connection : Connection)
    (requestId : string) (isExpectedResponse : string -> Body -> bool)
    : Result (string * Body) :=
  match connection with
  | QueueConnect.NoOwner => Undefined
  | QueueConnect.Throws e => Throws (SystemErr e)
  | QueueConnect.Connected events =>
      match settlement (trace (exchange requestId isExpectedResponse events)) with
      | Some (inl message) => Value message
      | Some (inr e) => Throws e
      | None => Unsettled
      end
  end.

Definition isCancelResult (_ : string) (body : Body) : bool :=
  match body with QueueSubmit.cancel_result _ => true | _ => false end.

Definition isSetModeResult (_ : string) (body : Body) : bool :=
  match body with QueueSubmit.set_mode_result => true | _ => false end.

Definition isSetConfigOptionResult (_ : string) (body : Body) : bool :=
  match body with QueueSubmit.set_config_option_result _ => true | _ => false end.

Definition mismatched (what : string) : Thrown :=
  QueueErr (protocolError ("Queue owner returned mismatched " ++ what ++ " response")
              "QUEUE_PROTOCOL_MALFORMED_MESSAGE").

(** [submitCancelToQueueOwner]; [requestId] is what [randomUUID()] drew. *)
Definition submitCancelToQueueOwner (connection : Connection) (requestId : string)
    : Result bool :=
  match submitControlToQueueOwner connection requestId isCancelResult with
  | Undefined => Undefined
  | Throws e => Throws e
  | Unsettled => Unsettled
  | Value (rid, body) =>
      if negb (String.eqb rid requestId) then Throws (mismatched "cancel")
      else
        match body with
        | QueueSubmit.cancel_result cancelled => Value cancelled
        | _ => Undefined      (* excluded by the type guard *)
        end
  end.

(** [submitSetModeToQueueOwner] *)
Definition submitSetModeToQueueOwner (connection : Connection) (requestId : string)
    : Result bool :=
  match submitControlToQueueOwner connection requestId isSetModeResult with
  | Undefined => Undefined
  | Throws e => Throws e
  | Unsettled => Unsettled
  | Value (rid, _) =>
      if negb (String.eqb rid requestId) then Throws (mismatched "set_mode")
      else Value true
  end.

(** [submitSetConfigOptionToQueueOwner]; the response is carried as text. *)
Definition submitSetConfigOptionToQueueOwner (connection : Connection)
    (requestId : string) : Result string :=
  match submitControlToQueueOwner connection requestId isSetConfigOptionResult with
  | Undefined => Undefined
  | Throws e => Throws e
  | Unsettled => Unsettled
  | Value (rid, body) =>
      if negb (String.eqb rid requestId)
      then Throws (mismatched "set_config_option")
      else
        match body with
        | QueueSubmit.set_config_option_result response => Value response
        | _ => Undefined      (* excluded by the type guard *)
        end
  end.

(** What the lease store answers around one control request. *)
Record Owner : Type := {
  ownerRecord : bool;            (* [readQueueOwnerRecord] found a record *)
  usableBefore : bool;           (* first [ensureOwnerIsUsable] *)
  connection : Connection;
  usableAfter : bool             (* second [ensureOwnerIsUsable] *)
}.

Definition notAccepting (what : string) : Thrown :=
  QueueErr (connectionError
              ("Session queue owner is running but not accepting " ++ what ++ " requests")
              "QUEUE_NOT_ACCEPTING_REQUESTS").

(** The common shape of the three [try...OnRunningOwner] functions:
    [submit] is the request, [present] tells whether its value counts as
    an answer. *)
Definition tryOnRunningOwner {A : Type} (o : Owner) (submit : Result A)
    (present : A -> bool) (what : string) : Result A :=
  if negb (ownerRecord o) then Undefined
  else if negb (usableBefore o) then Undefined
  else
    match submit with
    | Throws e => Throws e
    | Unsettled => Unsettled
    | Value a =>
        if present a then Value a
        else if negb (usableAfter o) then Undefined
        else Throws (notAccepting what)
    | Undefined =>
        if negb (usableAfter o) then Undefined
        else Throws (notAccepting what)
    end.

(** [tryCancelOnRunningOwner]: [cancelled !== undefined]. *)
Definition tryCancelOnRunningOwner (o : Owner) (requestId : string) : Result bool :=
  tryOnRunningOwner o (submitCancelToQueueOwner (connection o) requestId)
    (fun _ => true) "cancel".

(** [trySetModeOnRunningOwner]: [if (submitted)]. *)
Definition trySetModeOnRunningOwner (o : Owner) (requestId : string) : Result bool :=
  tryOnRunningOwner o (submitSetModeToQueueOwner (connection o) requestId)
    (fun submitted => submitted) "set_mode".

(** [trySetConfigOptionOnRunningOwner]: [if (response)], the response
    being an object. *)
Definition trySetConfigOptionOnRunningOwner (o : Owner) (requestId : string)
    : Result string :=
  tryOnRunningOwner o (submitSetConfigOptionToQueueOwner (connection o) requestId)
    (fun _ => true) "set_config_option".

(** What an entry of the log of an exchange for [requestId] can be: a
    [resolve] carries a message with that id which the type guard takes; a
    [reject] carries no error of the kind the callers throw on a
    mismatched id. *)
Definition entryOk (requestId : string)
    (isExpectedResponse : string -> Body -> bool) (e : Effect) : Prop :=
  match e with
  | Resolve rid body => rid = requestId /\ isExpectedResponse rid body = true
  | Reject e => forall what, e <> mismatched what
  | _ => True
  end.

(** What holds of the state of an exchange at every moment. *)
Record Sane (requestId : string) (isExpectedResponse : string -> Body -> bool)
    (st : State) : Prop := {
  sane_listening : listening st = negb (settled st);
  sane_count : settlements (trace st) = if settled st then 1%nat else 0%nat;
  sane_pending : settled st = false -> settlement (trace st) = None;
  sane_settled : settled st = true -> settlement (trace st) <> None;
  sane_ack : acknowledged st = false ->
             forall message, settlement (trace st) <> Some (inl message);
  sane_entries : Forall (entryOk requestId isExpectedResponse) (trace st)
}.

End QueueControl.

(* ------------------------------------------------------------------ *)
(** ** cli.ts: the permission flags                                    *)
(* ------------------------------------------------------------------ *)

Module Cli.
Local Open Scope string_scope.
Local Open Scope list_scope.

(** [PermissionFlags]: each flag is absent ([None]) or a boolean. *)
Record PermissionFlags : Type := {
  approveAll : option bool;
  approveReads : option bool;
  denyAll : option bool
}.

Inductive PermissionMode : Type := approve_all | approve_reads | deny_all.

(** [Boolean(flag)] *)
Definition truthy (flag : option bool) : bool :=
  match flag with Some true => true | _ => false end.

(** [resolvePermissionMode]; [inr] is the [InvalidArgumentError] with its
    message. *)
Definition resolvePermissionMode (flags : PermissionFlags)
    : PermissionMode + string :=
  let selected :=
    List.length
      (List.filter truthy [approveAll flags; approveReads flags; denyAll flags]) in
  if Nat.ltb 1 selected then
    inr "Use only one permission mode: --approve-all, --approve-reads, or --deny-all"
  else if truthy (approveAll flags) then inl approve_all
  else if truthy (denyAll flags) then inl deny_all
  else inl approve_reads.

(** [result.permissionStats] *)
Record PermissionStats : Type := {
  requested : nat;
  approved : nat;
  denied : nat;
  cancelled : nat
}.

(** [applyPermissionExitCode]: the new value of [process.exitCode], given
    the old one and [EXIT_CODES.PERMISSION_DENIED]. *)
Definition applyPermissionExitCode (PERMISSION_DENIED : Z) (stats : PermissionStats)
    (exitCode : option Z) : option Z :=
  let deniedOrCancelled := (denied stats + cancelled stats)%nat in
  if Nat.ltb 0 (requested stats) && Nat.eqb (approved stats) 0
     && Nat.ltb 0 deniedOrCancelled
  then Some PERMISSION_DENIED
  else exitCode.

(** A session as [printSessionsByFormat] receives it. *)
Record SessionLine : Type := {
  id : string;
  sessionId : string;
  cwd : string;
  agentCommand : string;
  lastUsedAt : string
}.

(** One [process.stdout.write]: text, or [JSON.stringify(sessions)]
    followed by a newline. *)
Inductive Written : Type :=
| Plain (s : string)
| JsonSessions (sessions : list SessionLine).

Definition tab : string := String (Ascii.ascii_of_nat 9) EmptyString.

(** [printSessionsByFormat] *)
Definition printSessionsByFormat (sessions : list SessionLine)
    (format : Output.OutputFormat) : list Written :=
  match format with
  | Output.json => [JsonSessions sessions]
  | Output.quiet => List.map (fun s => Plain (id s ++ Output.newline)) sessions
  | Output.text =>
      match sessions with
      | [] => [Plain ("No sessions" ++ Output.newline)]
      | _ =>
          List.map
            (fun s => Plain (id s ++ tab ++ cwd s ++ tab ++ lastUsedAt s
                             ++ Output.newline)) sessions
      end
  end.

End Cli.

(* ------------------------------------------------------------------ *)
(** ** session.ts: finding a session record                            *)
(* ------------------------------------------------------------------ *)

Module Sessions.
Local Open Scope string_scope.
Local Open Scope list_scope.

Record SessionRecord : Type := {
  id : string;
  sessionId : string;
  agentCommand : string;
  cwd : string;
  createdAt : string;
  lastUsedAt : string
}.

(** [s.endsWith(suffix)]: [suffix] is one of the tails of [s]. *)
Fixpoint endsWith (s suffix : string) : bool :=
  if String.eqb s suffix then true
  else
    match s with
    | EmptyString => false
    | String _ s' => endsWith s' suffix
    end.

Definition isExact (query : string) (session : SessionRecord) : bool :=
  String.eqb (id session) query || String.eqb (sessionId session) query.

Definition isSuffixMatch (query : string) (session : SessionRecord) : bool :=
  endsWith (id session) query || endsWith (sessionId session) query.

(** [resolveSessionRecord].  [direct] is the record read from the file
    named after the id, if the file exists and parses; [sessions] is what
    [listSessions()] returns; [inr] is the message of the [Error]. *)
Definition resolveSessionRecord (direct : option SessionRecord)
    (sessions : list SessionRecord) (query : string) : SessionRecord + string :=
  match direct with
  | Some directRecord => inl directRecord
  | None =>
      match List.filter (isExact query) sessions with
      | [only] => inl only
      | _ :: _ :: _ => inr ("Multiple sessions match id: " ++ query)%string
      | [] =>
          match List.filter (isSuffixMatch query) sessions with
          | [only] => inl only
          | _ :: _ :: _ => inr ("Session id is ambiguous: " ++ query)%string
          | [] => inr ("Session not found: " ++ query)%string
          end
      end
  end.

(** [withInterrupt]: what happens to the promise it returns.  [Sigint] is
    the signal; [InterruptDone] is the settling of the [onInterrupt()]
    call it triggers; the other two are the settling of [run()]. *)
Inductive InterruptEvent (T : Type) : Type :=
| RunFulfilled (result : T)
| RunRejected (error : string)
| Sigint
| InterruptDone.

Arguments RunFulfilled {T} result.
Arguments RunRejected {T} error.
Arguments Sigint {T}.
Arguments InterruptDone {T}.

Inductive Settled (T : Type) : Type :=
| Fulfilled (result : T)
| Rejected (error : string)
| Interrupted.                   (* rejected with [InterruptedError] *)

Arguments Fulfilled {T} result.
Arguments Rejected {T} error.
Arguments Interrupted {T}.

(** The promise, the [SIGINT] listener ([process.once]), the number of
    [onInterrupt()] calls made and of those still running. *)
Record InterruptState (T : Type) : Type := {
  settled : option (Settled T);
  listening : bool;
  interruptCalls : nat;
  interrupting : nat
}.

Arguments settled {T} _.
Arguments listening {T} _.
Arguments interruptCalls {T} _.
Arguments interrupting {T} _.

(** [finish(cb)] *)
Definition finish {T : Type} (outcome : Settled T) (st : InterruptState T)
    : InterruptState T :=
  match settled st with
  | Some _ => st
  | None =>
      {| settled := Some outcome;
         listening := false;
         interruptCalls := interruptCalls st;
         interrupting := interrupting st |}
  end.

Definition interruptStep {T : Type} (st : InterruptState T)
    (ev : InterruptEvent T) : InterruptState T :=
  match ev with
  | RunFulfilled result => finish (Fulfilled result) st
  | RunRejected error => finish (Rejected error) st
  | Sigint =>
      if listening st
      then {| settled := settled st;
              listening := false;
              interruptCalls := S (interruptCalls st);
              interrupting := S (interrupting st) |}
      else st
  | InterruptDone =>
      match interrupting st with
      | O => st
      | S n =>
          finish Interrupted
            {| settled := settled st;
               listening := listening st;
               interruptCalls := interruptCalls st;
               interrupting := n |}
      end
  end.

(** [withInterrupt(run, onInterrupt)] under the events [evs]. *)
Definition withInterrupt {T : Type} (evs : list (InterruptEvent T))
    : InterruptState T :=
  fold_left interruptStep evs
    {| settled := None; listening := true; interruptCalls := 0; interrupting := 0 |}.

(** What holds of [withInterrupt] after the events [seen]. *)
Definition interruptInv {T : Type} (st : InterruptState T)
    (seen : list (InterruptEvent T)) : Prop :=
  (interruptCalls st <= 1)%nat
  /\ (listening st = true -> interruptCalls st = 0%nat /\ settled st = None)
  /\ (interrupting st <= interruptCalls st)%nat
  /\ (settled st = Some Interrupted -> interruptCalls st = 1%nat)
  /\ (interruptCalls st = 1%nat -> In Sigint seen).

End Sessions.

(* ================================================================== *)
(** * Part II. Properties                                              *)
(* ================================================================== *)

(* ------------------------------------------------------------------ *)
(** ** TTL normalisation and the idle wait                             *)
(* ------------------------------------------------------------------ *)

Section TtlFacts.
Import Js Ttl.
Local Open Scope Q_scope.

Lemma Qltb_true (a b : Q) : Qltb a b = true <-> a < b.
Proof.
  unfold Qltb. rewrite negb_true_iff. split.
  - intros H. apply Qnot_le_lt. intros Hle.
    apply Qle_bool_iff in Hle. congruence.
  - intros H. destruct (Qle_bool b a) eqn:E; [|reflexivity].
    apply Qle_bool_iff in E. exfalso. apply (Qlt_not_le _ _ H E).
Qed.

Lemma Qltb_false (a b : Q) : Qltb a b = false <-> b <= a.
Proof.
  unfold Qltb. rewrite negb_false_iff. apply Qle_bool_iff.
Qed.

(** [roundHalfUp] is the nearest integer, ties going up. *)
Lemma roundHalfUp_nearest (q : Q) :
  inject_Z (roundHalfUp q) - (1 # 2) <= q /\ q < inject_Z (roundHalfUp q) + (1 # 2).
Proof.
  unfold roundHalfUp.
  pose proof (Qfloor_le (q + (1 # 2))) as Hlo.
  pose proof (Qlt_floor (q + (1 # 2))) as Hhi.
  rewrite inject_Z_plus in Hhi. change (inject_Z 1) with 1 in Hhi.
  split; lra.
Qed.

Lemma roundHalfUp_nonneg (q : Q) : 0 <= q -> (0 <= roundHalfUp q)%Z.
Proof.
  intros H. unfold roundHalfUp.
  change 0%Z with (Qfloor 0).
  apply Qfloor_resp_le. lra.
Qed.

Lemma normalize_nonneg (q : Q) :
  0 <= q -> normalizeQueueOwnerTtlMs (Some (Fin q)) = ofZ (roundHalfUp q).
Proof.
  intros H. unfold normalizeQueueOwnerTtlMs. cbn [isFinite negb orb ltZero].
  assert (E : Qltb q 0 = false) by (apply Qltb_false; exact H).
  rewrite E. cbn [Math_round]. rewrite E, andb_false_r. reflexivity.
Qed.

Lemma roundHalfUp_zero (q : Q) : q == 0 -> roundHalfUp q = 0%Z.
Proof.
  intros H. unfold roundHalfUp. rewrite H. reflexivity.
Qed.

End TtlFacts.

(* ------------------------------------------------------------------ *)
(** ** The owner process: what stays as it is                          *)
(* ------------------------------------------------------------------ *)

Section OwnerFacts.
Import Trace OwnerRuntime.
Implicit Types (w : World).
Local Open Scope nat_scope.

(** What happens outside leaves the lifecycle state and the variables of
    the main function alone. *)
Lemma outside_keeps (o : Outside) w :
  lifecycleState (outside o w) = lifecycleState w
  /\ owner (outside o w) = owner w
  /\ heartbeatTimer (outside o w) = heartbeatTimer w.
Proof.
  destruct o as [|answer|ok|ok| | |]; cbn [outside].
  - repeat split.
  - unfold cancelPrompt_answered.
    destruct (awaitingAnswer w); [repeat split|].
    destruct answer as [[|]|]; repeat split.
  - unfold cancelPrompt_applied. destruct (awaitingApply w); repeat split.
  - unfold scheduledApply_settled. destruct (scheduled w); [repeat split|].
    destruct ok; repeat split.
  - repeat split.
  - repeat split.
  - unfold onTimer. destruct (heartbeatTimer w && owner w); repeat split.
Qed.

Lemma outside_log (o : Outside) w :
  exists l, log (outside o w) = log w ++ l /\ Forall outsideEffect l.
Proof.
  assert (Hnil : exists l, log w = log w ++ l /\ Forall outsideEffect l).
  { exists []. split; [symmetry; apply app_nil_r | constructor]. }
  destruct o as [|answer|ok|ok| | |]; cbn [outside].
  - exists [E_requestCancel]. split; [reflexivity | repeat constructor].
  - unfold cancelPrompt_answered.
    destruct (awaitingAnswer w); [exact Hnil|].
    destruct answer as [[|]|].
    + exists [E_applyPendingCancel]. split; [reflexivity | repeat constructor].
    + exists [E_cancelResult false]. split; [reflexivity | repeat constructor].
    + exists [E_cancelThrew]. split; [reflexivity | repeat constructor].
  - unfold cancelPrompt_applied.
    destruct (awaitingApply w); [exact Hnil|].
    destruct ok.
    + exists [E_cancelResult true]. split; [reflexivity | repeat constructor].
    + exists [E_cancelThrew]. split; [reflexivity | repeat constructor].
  - unfold scheduledApply_settled.
    destruct (scheduled w); [exact Hnil|].
    destruct ok; [exact Hnil|].
    exists [E_applyFailed]. split; [reflexivity | repeat constructor].
  - exists [E_setSessionMode]. split; [reflexivity | repeat constructor].
  - exists [E_setSessionConfigOption]. split; [reflexivity | repeat constructor].
  - unfold onTimer. destruct (heartbeatTimer w && owner w); [|exact Hnil].
    exists [E_timerHeartbeat]. split; [reflexivity | repeat constructor].
Qed.

Lemma outsideAll_keeps (os : list Outside) : forall w,
  lifecycleState (outsideAll os w) = lifecycleState w
  /\ owner (outsideAll os w) = owner w
  /\ heartbeatTimer (outsideAll os w) = heartbeatTimer w.
Proof.
  induction os as [|o os IH]; intros w; [repeat split|].
  cbn [outsideAll fold_left].
  destruct (IH (outside o w)) as (H1 & H2 & H3).
  destruct (outside_keeps o w) as (H4 & H5 & H6).
  unfold outsideAll in *. repeat split; congruence.
Qed.

Lemma outsideAll_log (os : list Outside) : forall w,
  exists l, log (outsideAll os w) = log w ++ l /\ Forall outsideEffect l.
Proof.
  induction os as [|o os IH]; intros w.
  - exists []. split; [symmetry; apply app_nil_r | constructor].
  - cbn [outsideAll fold_left].
    destruct (IH (outside o w)) as (l2 & Hl2 & Hall2).
    destruct (outside_log o w) as (l1 & Hl1 & Hall1).
    exists (l1 ++ l2). unfold outsideAll in Hl2. rewrite Hl2, Hl1, <- app_assoc.
    split; [reflexivity | rewrite Forall_app; auto].
Qed.

(** The process at the head of the loop. *)
Lemma started_keeps (host : Host) :
  lifecycleState (started host) = idle
  /\ owner (started host) = true
  /\ heartbeatTimer (started host) = true.
Proof.
  unfold started, serverStarting.
  set (w0 := emit E_serverStart initial).
  destruct (outsideAll_keeps (duringStart host) w0) as (H1 & _ & _).
  set (w1 := outsideAll (duringStart host) w0) in *.
  set (w2 := refreshHeartbeat (withOwner true w1)).
  assert (H2 : lifecycleState w2 = idle /\ owner w2 = true).
  { unfold w2, refreshHeartbeat. cbn. rewrite H1. split; reflexivity. }
  destruct (outsideAll_keeps (duringFirstRefresh host) w2) as (H3 & H4 & _).
  destruct H2 as [H2 H2'].
  cbn [emit withTimer lifecycleState owner heartbeatTimer].
  rewrite H3, H4. repeat split; assumption.
Qed.

(** How the [finally] block ends. *)
Lemma finally_exit (host : Host) w :
  fst (finally_ host w)
  = if owner w then negb (closes host && releases host)
    else negb (releases host).
Proof.
  unfold finally_, release, beginClosing, call.
  destruct (heartbeatTimer w); cbn [emit onCtl withTimer owner];
    destruct (owner w); destruct (closes host); destruct (releases host);
    reflexivity.
Qed.

End OwnerFacts.

(* ------------------------------------------------------------------ *)
(** ** TTL normalisation and the main loop                             *)
(* ------------------------------------------------------------------ *)

Section TtlClaim.
Import Js Ttl.
Local Open Scope Q_scope.

(** C7.  TTL normalisation: [normalizeQueueOwnerTtlMs] sends a missing
    value (null or undefined), every non-finite value and every negative
    value to the default of 300 000 ms; it sends zero to zero, for which the
    idle wait of [nextTask] is unbounded ([undefined]), and a positive TTL
    gives a bounded wait of that length; any other value is returned
    rounded to the nearest integer.  In the main loop of the owner a null
    task ends the loop, in particular when the TTL is positive, and the
    owner process then runs to its end: it returns, unless the closing of
    the server or the release of the lease fails. *)
Theorem C7_ttl_normalization :
  normalizeQueueOwnerTtlMs None = ofZ 300000
  /\ (forall t, isFinite t = false ->
        normalizeQueueOwnerTtlMs (Some t) = ofZ 300000)
  /\ (forall q, q < 0 -> normalizeQueueOwnerTtlMs (Some (Fin q)) = ofZ 300000)
  /\ (forall q, q == 0 ->
        normalizeQueueOwnerTtlMs (Some (Fin q)) = ofZ 0
        /\ idleWaitMs (normalizeQueueOwnerTtlMs (Some (Fin q))) = None)
  /\ (normalizeQueueOwnerTtlMs (Some NegZero) = NegZero
      /\ idleWaitMs NegZero = None)
  /\ (forall q, 0 <= q ->
        exists z : Z,
          normalizeQueueOwnerTtlMs (Some (Fin q)) = ofZ z
          /\ (0 <= z)%Z
          /\ inject_Z z - (1 # 2) <= q /\ q < inject_Z z + (1 # 2))
  /\ (forall z : Z, (0 < z)%Z -> idleWaitMs (ofZ z) = Some (ofZ z))
  /\ (forall (ttl : Number) (verbose : bool)
        (rest : list OwnerRuntime.NextTask) (w : OwnerRuntime.World),
        gtZero ttl = true ->
        fst (OwnerRuntime.mainLoop ttl verbose (OwnerRuntime.Returns None :: rest) w)
        = OwnerRuntime.NoTask)
  /\ (forall (ttlMs : option Number) (verbose : bool) (host : OwnerRuntime.Host)
        (rest : list OwnerRuntime.NextTask),
        gtZero (normalizeQueueOwnerTtlMs ttlMs) = true ->
        OwnerRuntime.acquire host = OwnerRuntime.Lease ->
        OwnerRuntime.starts host = true ->
        fst (OwnerRuntime.runQueueOwnerProcess ttlMs verbose host
               (OwnerRuntime.Returns None :: rest))
        = if OwnerRuntime.closes host && OwnerRuntime.releases host
          then OwnerRuntime.Returned else OwnerRuntime.Rejected).
Proof.
  repeat apply conj.
  - reflexivity.
  - intros t Ht. unfold normalizeQueueOwnerTtlMs. rewrite Ht. reflexivity.
  - intros q Hq. unfold normalizeQueueOwnerTtlMs. cbn [isFinite negb orb ltZero].
    apply Qltb_true in Hq. rewrite Hq. reflexivity.
  - intros q Hq.
    assert (E : normalizeQueueOwnerTtlMs (Some (Fin q)) = ofZ 0).
    { rewrite normalize_nonneg by (rewrite Hq; apply Qle_refl).
      rewrite roundHalfUp_zero by assumption. reflexivity. }
    rewrite E. split; reflexivity.
  - reflexivity.
  - reflexivity.
  - intros q Hq. exists (roundHalfUp q).
    pose proof (roundHalfUp_nearest q) as [Hlo Hhi].
    repeat apply conj; auto using normalize_nonneg, roundHalfUp_nonneg.
  - intros z Hz. unfold idleWaitMs, ofZ, isZero, Math_max0.
    assert (Hq : 0 < inject_Z z).
    { change 0 with (inject_Z 0). rewrite <- Zlt_Qlt. exact Hz. }
    destruct (Qeq_bool (inject_Z z) 0) eqn:E.
    + apply Qeq_bool_iff in E. rewrite E in Hq. exfalso. apply (Qlt_irrefl _ Hq).
    + apply Qltb_true in Hq. rewrite Hq. reflexivity.
  - intros ttl verbose rest w _. reflexivity.
  - intros ttlMs verbose host rest _ Hlease Hstart.
    unfold OwnerRuntime.runQueueOwnerProcess. rewrite Hlease, Hstart.
    cbn [negb OwnerRuntime.mainLoop OwnerRuntime.awaitNextTask].
    match goal with |- context [OwnerRuntime.finally_ host ?w] =>
      pose proof (finally_exit host w) as Hexit;
      assert (Howner : OwnerRuntime.owner w = true)
        by (destruct (gtZero (normalizeQueueOwnerTtlMs ttlMs) && verbose);
            exact (proj1 (proj2 (started_keeps host))));
      rewrite Howner in Hexit;
      destruct (OwnerRuntime.finally_ host w) as [threw w5]
    end.
    cbn [fst] in *. subst threw.
    destruct (OwnerRuntime.closes host && OwnerRuntime.releases host);
      reflexivity.
Qed.

(** The statement at concrete values: a TTL of -5 and of 2.5 ms, a
    positive TTL of 500 ms in the loop. *)
Lemma C7_ttl_normalization_witness :
  normalizeQueueOwnerTtlMs (Some (Fin (-5 # 1))) = ofZ 300000
  /\ normalizeQueueOwnerTtlMs (Some PosInf) = ofZ 300000
  /\ normalizeQueueOwnerTtlMs (Some (Fin (0 # 3))) = ofZ 0
  /\ (exists z : Z, normalizeQueueOwnerTtlMs (Some (Fin (5 # 2))) = ofZ z)
  /\ idleWaitMs (ofZ 500) = Some (ofZ 500)
  /\ fst (OwnerRuntime.mainLoop (ofZ 500) true (OwnerRuntime.Returns None :: [])
            OwnerRuntime.initial)
     = OwnerRuntime.NoTask
  /\ fst (OwnerRuntime.runQueueOwnerProcess (Some (Fin (500 # 1))) false
            {| OwnerRuntime.acquire := OwnerRuntime.Lease;
               OwnerRuntime.starts := true;
               OwnerRuntime.closes := true;
               OwnerRuntime.releases := true;
               OwnerRuntime.duringStart := [];
               OwnerRuntime.duringFirstRefresh := [];
               OwnerRuntime.duringClose := [OwnerRuntime.CancelCalled];
               OwnerRuntime.duringRelease := [] |}
            (OwnerRuntime.Returns None :: []))
     = OwnerRuntime.Returned.
Proof.
  destruct C7_ttl_normalization
    as (_ & Hinf & Hneg & Hzero & _ & Hround & Hwait & Hloop & Hproc).
  split; [apply Hneg; reflexivity|].
  split; [apply Hinf; reflexivity|].
  split; [apply Hzero; reflexivity|].
  split; [destruct (Hround (5 # 2)) as (z & Hz & _);
          [discriminate | exists z; exact Hz]|].
  split; [apply Hwait; reflexivity|].
  split; [apply Hloop; reflexivity|].
  exact (Hproc (Some (Fin (500 # 1))) false
           {| OwnerRuntime.acquire := OwnerRuntime.Lease;
              OwnerRuntime.starts := true;
              OwnerRuntime.closes := true;
              OwnerRuntime.releases := true;
              OwnerRuntime.duringStart := [];
              OwnerRuntime.duringFirstRefresh := [];
              OwnerRuntime.duringClose := [OwnerRuntime.CancelCalled];
              OwnerRuntime.duringRelease := [] |}
           [] eq_refl eq_refl eq_refl).
Defined.

End TtlClaim.

(* ------------------------------------------------------------------ *)
(** ** The lifecycle of the turn controller                            *)
(* ------------------------------------------------------------------ *)

Section ControllerTests.
Import Trace TurnController.

(** The lifecycle above is the one that the first test of
    [turn-controller.test.ts] walks through. *)
Example test_tracks_explicit_lifecycle_states :
  let c0 := create in
  let c1 := beginTurn c0 in
  let c2 := markPromptActive c1 in
  let c3 := endTurn c2 in
  let c4 := beginClosing c3 in
  c0 = idle /\ c1 = starting /\ c2 = active /\ c3 = idle /\ c4 = closing.
Proof. cbn. repeat split; reflexivity. Qed.

End ControllerTests.

(* ------------------------------------------------------------------ *)
(** ** Turns are bracketed                                             *)
(* ------------------------------------------------------------------ *)

Section TurnFacts.
Import Trace OwnerRuntime.
Implicit Types (w : World) (e : TurnEvent) (es : list TurnEvent).
Local Open Scope nat_scope.

Lemma outsideEffect_insideTurn (x : Effect) : outsideEffect x -> insideTurn x.
Proof. destruct x; cbn; auto. Qed.

Lemma outsideEffect_free (x : Effect) : outsideEffect x -> isFree x = true.
Proof. destruct x; cbn; intros H; try reflexivity; destruct H. Qed.

(** The callbacks of a task keep the turn under way. *)
Lemma handle_state e w :
  inTurn (lifecycleState w) -> inTurn (lifecycleState (handle e w)).
Proof.
  intros H. destruct e as [| | |o]; cbn [handle].
  - exact H.
  - exact H.
  - cbn. destruct H as [H | H]; rewrite H; right; reflexivity.
  - rewrite (proj1 (outside_keeps o w)). exact H.
Qed.

Lemma handle_keeps e w :
  owner (handle e w) = owner w /\ heartbeatTimer (handle e w) = heartbeatTimer w.
Proof.
  destruct e as [| | |o]; cbn [handle]; try (split; reflexivity).
  destruct (outside_keeps o w) as (_ & H1 & H2). split; assumption.
Qed.

(** Between [beginTurn] and the outcome of the task the log only receives
    the effects of the task's callbacks and of what happens outside. *)
Lemma handle_log e w :
  exists l, log (handle e w) = log w ++ l /\ Forall insideTurn l.
Proof.
  destruct e as [| | |o]; cbn [handle].
  - exists [E_setActiveController; E_applyPendingCancel].
    split; [cbn; rewrite <- app_assoc; reflexivity | repeat constructor].
  - exists [E_clearActiveController]. split; [reflexivity | repeat constructor].
  - exists [E_markPromptActive; E_applyPendingCancel].
    split; [cbn; rewrite <- app_assoc; reflexivity | repeat constructor].
  - destruct (outside_log o w) as (l & Hl & Hall). exists l. split; [exact Hl|].
    eapply Forall_impl; [|exact Hall]. apply outsideEffect_insideTurn.
Qed.

Lemma handleAll_state es : forall w,
  inTurn (lifecycleState w) -> inTurn (lifecycleState (handleAll es w)).
Proof.
  induction es as [|e es IH]; intros w H; [exact H|].
  cbn [handleAll fold_left]. apply IH. apply handle_state. exact H.
Qed.

Lemma handleAll_keeps es : forall w,
  owner (handleAll es w) = owner w
  /\ heartbeatTimer (handleAll es w) = heartbeatTimer w.
Proof.
  induction es as [|e es IH]; intros w; [split; reflexivity|].
  cbn [handleAll fold_left].
  destruct (IH (handle e w)) as [H1 H2]. destruct (handle_keeps e w) as [H3 H4].
  unfold handleAll in *. split; congruence.
Qed.

Lemma handleAll_log es : forall w,
  exists l, log (handleAll es w) = log w ++ l /\ Forall insideTurn l.
Proof.
  induction es as [|e es IH]; intros w.
  - exists []. split; [symmetry; apply app_nil_r | constructor].
  - cbn [handleAll fold_left].
    destruct (IH (handle e w)) as (l2 & Hl2 & Hall2).
    destruct (handle_log e w) as (l1 & Hl1 & Hall1).
    exists (l1 ++ l2). unfold handleAll in Hl2. rewrite Hl2, Hl1, <- app_assoc.
    split; [reflexivity | rewrite Forall_app; auto].
Qed.

(** The log of one turn, in whatever state it is entered. *)
Lemma runPromptTurn_log (task : Task) w :
  fst (runPromptTurn (runQueuedTask task) w) = failed task
  /\ owner (snd (runPromptTurn (runQueuedTask task) w)) = owner w
  /\ heartbeatTimer (snd (runPromptTurn (runQueuedTask task) w)) = heartbeatTimer w
  /\ exists inner,
       log (snd (runPromptTurn (runQueuedTask task) w))
       = log w ++ [E_beginTurn] ++ inner ++ [E_taskOutcome (failed task); E_endTurn]
       /\ Forall insideTurn inner.
Proof.
  unfold runPromptTurn, runQueuedTask. cbn zeta. cbn [fst snd].
  set (w1 := call E_beginTurn TurnController.beginTurn w).
  destruct (handleAll_keeps (events task) w1) as [Ho Ht].
  destruct (handleAll_log (events task) w1) as (inner & Hlog & Hall).
  repeat apply conj; [reflexivity | exact Ho | exact Ht|].
  exists inner. split; [|exact Hall].
  cbn [call emit onCtl log]. rewrite Hlog. unfold w1. cbn [call emit onCtl log].
  rewrite <- !app_assoc. reflexivity.
Qed.

(** One whole turn, from the idle state: the turn ends idle. *)
Lemma runPromptTurn_state (task : Task) w :
  lifecycleState w = idle ->
  lifecycleState (snd (runPromptTurn (runQueuedTask task) w)) = idle.
Proof.
  intros Hidle. unfold runPromptTurn, runQueuedTask. cbn zeta. cbn [fst snd].
  set (w1 := call E_beginTurn TurnController.beginTurn w).
  assert (H1 : inTurn (lifecycleState w1)).
  { unfold w1. cbn. rewrite Hidle. left. reflexivity. }
  pose proof (handleAll_state (events task) w1 H1) as H2.
  cbn. destruct H2 as [H2 | H2]; rewrite H2; reflexivity.
Qed.

(** Reading logs piece by piece. *)
Lemma bracketRun_app (l1 l2 : list Effect) : forall st,
  bracketRun st (l1 ++ l2)
  = match bracketRun st l1 with
    | Some st' => bracketRun st' l2
    | None => None
    end.
Proof.
  induction l1 as [|x l1 IH]; intros st; [reflexivity|].
  cbn [app bracketRun]. destruct (bracketStep st x); [apply IH | reflexivity].
Qed.

Lemma outcomes_app (l1 l2 : list Effect) :
  outcomes (l1 ++ l2) = outcomes l1 ++ outcomes l2.
Proof.
  induction l1 as [|x l1 IH]; [reflexivity|].
  destruct x; cbn [app outcomes]; rewrite ?IH; reflexivity.
Qed.

Lemma bracketRun_free (l : list Effect) (st : bool * bool) :
  Forall (fun x => isFree x = true) l ->
  bracketRun st l = Some st /\ outcomes l = [].
Proof.
  induction 1 as [|x l Hx _ IH]; [split; reflexivity|].
  destruct IH as [IH1 IH2]. destruct st as [inside finished].
  destruct x; try discriminate Hx; cbn [bracketRun bracketStep outcomes];
    split; assumption.
Qed.

Lemma bracketRun_inside (l : list Effect) :
  Forall insideTurn l ->
  bracketRun (true, false) l = Some (true, false) /\ outcomes l = [].
Proof.
  induction 1 as [|x l Hx _ IH]; [split; reflexivity|].
  destruct IH as [IH1 IH2].
  destruct x; try destruct Hx; cbn [bracketRun bracketStep outcomes andb negb];
    split; assumption.
Qed.

Lemma bracketRun_turn (inner : list Effect) (failed : bool) :
  Forall insideTurn inner ->
  bracketRun (false, false)
    ([E_beginTurn] ++ inner ++ [E_taskOutcome failed; E_endTurn])
  = Some (false, false)
  /\ outcomes ([E_beginTurn] ++ inner ++ [E_taskOutcome failed; E_endTurn])
     = [failed].
Proof.
  intros Hin. destruct (bracketRun_inside inner Hin) as [Hrun Hout].
  split.
  - cbn [app bracketRun bracketStep]. rewrite bracketRun_app, Hrun. reflexivity.
  - cbn [app outcomes]. rewrite outcomes_app, Hout. reflexivity.
Qed.

(** What a well read log says of its [nextTask] calls. *)
Lemma bracketRun_nextTaskWhenIdle (l : list Effect) : forall st st',
  bracketRun st l = Some st' -> nextTaskWhenIdle l.
Proof.
  induction l as [|x l IH]; intros st st' H; [constructor|].
  cbn [bracketRun] in H.
  destruct (bracketStep st x) as [st1|] eqn:Hstep; [|discriminate].
  constructor; [|exact (IH _ _ H)].
  destruct x; try exact I. destruct st as [inside finished].
  cbn [bracketStep] in Hstep. destruct state; try reflexivity;
    destruct inside; discriminate Hstep.
Qed.

(** What happens outside, read for turns: it can stand anywhere. *)
Lemma outsideAll_free (os : list Outside) w :
  exists l, log (outsideAll os w) = log w ++ l
            /\ Forall (fun x => isFree x = true) l.
Proof.
  destruct (outsideAll_log os w) as (l & Hl & Hall). exists l.
  split; [exact Hl|]. eapply Forall_impl; [|exact Hall]. apply outsideEffect_free.
Qed.

(** The invariant of the main loop, from a pending [nextTask] on: the log
    reads well and stands between two turns, the controller is idle, and
    the outcomes logged are those of the tasks taken. *)
Lemma awaitNextTask_bracket (ttl : Js.Number) (verbose : bool)
    (script : list NextTask) : forall w,
  lifecycleState w = idle ->
  bracketRun (false, false) (log w) = Some (false, false) ->
  lifecycleState (snd (awaitNextTask ttl verbose script w)) = idle
  /\ bracketRun (false, false) (log (snd (awaitNextTask ttl verbose script w)))
     = Some (false, false)
  /\ outcomes (log (snd (awaitNextTask ttl verbose script w)))
     = outcomes (log w) ++ List.map failed (taken script)
  /\ fst (awaitNextTask ttl verbose script w) = leaves script.
Proof.
  induction script as [|[[task|]| |o] rest IH]; intros w Hidle Hlog;
    cbn [awaitNextTask taken leaves List.map].
  - rewrite app_nil_r. repeat split; assumption.
  - pose proof (runPromptTurn_state task w Hidle) as Hs.
    destruct (runPromptTurn_log task w) as (Hf & _ & _ & inner & Hl & Hin).
    destruct (bracketRun_turn inner (failed task) Hin) as [Hrun Hout].
    destruct (runPromptTurn (runQueuedTask task) w) as [threw w1].
    cbn [fst snd] in Hs, Hf, Hl. subst threw.
    assert (Hlog1 : bracketRun (false, false) (log w1) = Some (false, false)).
    { rewrite Hl, bracketRun_app, Hlog. exact Hrun. }
    assert (Hout1 : outcomes (log w1) = outcomes (log w) ++ [failed task]).
    { rewrite Hl, outcomes_app, Hout. reflexivity. }
    cbn zeta.
    destruct (outsideAll_keeps (afterTurn task) w1) as (Hs2 & _ & _).
    destruct (outsideAll_free (afterTurn task) w1) as (l2 & Hl2 & Hfree2).
    destruct (bracketRun_free l2 (false, false) Hfree2) as [Hrun2 Hout2].
    set (w2 := outsideAll (afterTurn task) w1) in *.
    assert (Hlog2 : bracketRun (false, false) (log w2) = Some (false, false)).
    { rewrite Hl2, bracketRun_app, Hlog1. exact Hrun2. }
    assert (Houtc2 : outcomes (log w2) = outcomes (log w) ++ [failed task]).
    { rewrite Hl2, outcomes_app, Hout2, app_nil_r. exact Hout1. }
    destruct (failed task) eqn:Ef.
    + cbn [fst snd List.map]. repeat split; try assumption. congruence.
    + set (w2' := refreshHeartbeat w2).
      assert (H2' : lifecycleState w2' = idle
                    /\ bracketRun (false, false) (log w2') = Some (false, false)
                    /\ outcomes (log w2') = outcomes (log w2)).
      { unfold w2', refreshHeartbeat.
        destruct (owner w2); cbn [emit log lifecycleState];
          rewrite ?bracketRun_app, ?outcomes_app, ?Hlog2; cbn;
          rewrite ?app_nil_r; repeat split; congruence. }
      destruct H2' as (Hs2' & Hlog2' & Hout2').
      destruct (outsideAll_keeps (duringRefresh task) w2') as (Hs3 & _ & _).
      destruct (outsideAll_free (duringRefresh task) w2') as (l3 & Hl3 & Hfree3).
      destruct (bracketRun_free l3 (false, false) Hfree3) as [Hrun3 Hout3].
      set (w3 := outsideAll (duringRefresh task) w2') in *.
      set (w4 := callNextTask ttl w3).
      assert (Hidle4 : lifecycleState w4 = idle) by (unfold w4; cbn; congruence).
      assert (Hlog4 : bracketRun (false, false) (log w4) = Some (false, false)
                      /\ outcomes (log w4) = outcomes (log w) ++ [false]).
      { unfold w4, callNextTask. cbn [emit log].
        rewrite bracketRun_app, outcomes_app, Hl3, bracketRun_app, outcomes_app,
          Hlog2', Hrun3, Hout3, Hout2', Houtc2, Hs3, Hs2'.
        cbn. rewrite !app_nil_r. split; reflexivity. }
      destruct Hlog4 as [Hlog4 Hout4].
      destruct (IH w4 Hidle4 Hlog4) as (H1 & H2 & H3 & H4).
      repeat split; try assumption.
      rewrite H3, Hout4, <- app_assoc. reflexivity.
  - rewrite app_nil_r.
    destruct (Js.gtZero ttl && verbose); cbn [fst snd emit log lifecycleState];
      repeat split; try assumption.
    + rewrite bracketRun_app, Hlog. reflexivity.
    + rewrite outcomes_app. cbn. apply app_nil_r.
  - rewrite app_nil_r. repeat split; assumption.
  - destruct (outside_keeps o w) as (Hs & _ & _).
    destruct (outside_log o w) as (l & Hl & Hall).
    assert (Hfree : Forall (fun x => isFree x = true) l).
    { eapply Forall_impl; [|exact Hall]. apply outsideEffect_free. }
    destruct (bracketRun_free l (false, false) Hfree) as [Hrun Hout].
    destruct (IH (outside o w)) as (H1 & H2 & H3 & H4).
    + rewrite Hs. exact Hidle.
    + rewrite Hl, bracketRun_app, Hlog. exact Hrun.
    + repeat split; try assumption.
      rewrite H3, Hl, outcomes_app, Hout, app_nil_r. reflexivity.
Qed.

Lemma mainLoop_bracket (ttl : Js.Number) (verbose : bool)
    (script : list NextTask) w :
  lifecycleState w = idle ->
  bracketRun (false, false) (log w) = Some (false, false) ->
  lifecycleState (snd (mainLoop ttl verbose script w)) = idle
  /\ bracketRun (false, false) (log (snd (mainLoop ttl verbose script w)))
     = Some (false, false)
  /\ outcomes (log (snd (mainLoop ttl verbose script w)))
     = outcomes (log w) ++ List.map failed (taken script)
  /\ fst (mainLoop ttl verbose script w) = leaves script.
Proof.
  intros Hidle Hlog. unfold mainLoop.
  destruct (awaitNextTask_bracket ttl verbose script (callNextTask ttl w))
    as (H1 & H2 & H3 & H4).
  - exact Hidle.
  - unfold callNextTask. cbn [emit log].
    rewrite bracketRun_app, Hlog, Hidle. reflexivity.
  - repeat split; try assumption.
    rewrite H3. unfold callNextTask. cbn [emit log].
    rewrite outcomes_app. cbn. rewrite app_nil_r. reflexivity.
Qed.

(** What the [finally] block does: the timer is stopped if it was set,
    the controller begins closing, the server is closed if it had started,
    and the lease is released unless the closing of the server failed;
    what happens outside while the server closes and while the lease is
    released stands in between. *)
Lemma finally_log (host : Host) w :
  exists during after,
    log (snd (finally_ host w))
    = log w
      ++ (if heartbeatTimer w then [E_timerStop] else [])
      ++ [E_beginClosing]
      ++ (if owner w then E_serverClose :: during else [])
      ++ (if owner w && negb (closes host) then [] else E_leaseRelease :: after)
    /\ Forall outsideEffect during /\ Forall outsideEffect after.
Proof.
  unfold finally_, release.
  set (w1 := if heartbeatTimer w then emit E_timerStop (withTimer false w) else w).
  assert (H1 : log w1 = log w ++ (if heartbeatTimer w then [E_timerStop] else [])
               /\ owner w1 = owner w).
  { unfold w1. destruct (heartbeatTimer w); cbn; rewrite ?app_nil_r;
      split; reflexivity. }
  destruct H1 as [Hl1 Ho1].
  set (w2 := beginClosing w1).
  assert (H2 : log w2 = log w1 ++ [E_beginClosing] /\ owner w2 = owner w).
  { unfold w2. cbn. split; [reflexivity | exact Ho1]. }
  destruct H2 as [Hl2 Ho2].
  rewrite Ho2.
  destruct (owner w) eqn:Eo.
  - destruct (outsideAll_log (duringClose host) (emit E_serverClose w2))
      as (during & Hd & Hdall).
    set (w3 := outsideAll (duringClose host) (emit E_serverClose w2)) in *.
    destruct (closes host); cbn [andb negb fst snd].
    + destruct (outsideAll_log (duringRelease host) (emit E_leaseRelease w3))
        as (after & Ha & Haall).
      exists during, after. split; [|split; assumption].
      rewrite Ha. cbn [emit log]. rewrite Hd. cbn [emit log].
      rewrite Hl2, Hl1, <- !app_assoc. reflexivity.
    + exists during, []. split; [|split; [assumption | constructor]].
      rewrite Hd. cbn [emit log]. rewrite Hl2, Hl1, <- !app_assoc.
      cbn [app]. rewrite app_nil_r. reflexivity.
  - destruct (outsideAll_log (duringRelease host) (emit E_leaseRelease w2))
      as (after & Ha & Haall).
    exists [], after. split; [|split; [constructor | assumption]].
    cbn [andb fst snd]. rewrite Ha. cbn [emit log].
    rewrite Hl2, Hl1, <- !app_assoc. reflexivity.
Qed.

Lemma finally_free (host : Host) w :
  exists l, log (snd (finally_ host w)) = log w ++ l
            /\ Forall (fun x => isFree x = true) l.
Proof.
  destruct (finally_log host w) as (during & after & Hl & Hd & Ha).
  eexists. split; [exact Hl|].
  assert (Hd' : Forall (fun x => isFree x = true) during).
  { eapply Forall_impl; [|exact Hd]. apply outsideEffect_free. }
  assert (Ha' : Forall (fun x => isFree x = true) after).
  { eapply Forall_impl; [|exact Ha]. apply outsideEffect_free. }
  rewrite !Forall_app.
  destruct (heartbeatTimer w); destruct (owner w); destruct (closes host);
    cbn [andb negb]; repeat split; repeat constructor; assumption.
Qed.

(** The process before the loop, read for its turns. *)
Lemma serverStarting_free (host : Host) :
  lifecycleState (serverStarting host) = idle
  /\ bracketRun (false, false) (log (serverStarting host)) = Some (false, false)
  /\ outcomes (log (serverStarting host)) = [].
Proof.
  unfold serverStarting.
  destruct (outsideAll_keeps (duringStart host) (emit E_serverStart initial))
    as (Hs & _ & _).
  destruct (outsideAll_free (duringStart host) (emit E_serverStart initial))
    as (l & Hl & Hfree).
  destruct (bracketRun_free l (false, false) Hfree) as [Hrun Hout].
  rewrite Hs, Hl. cbn [emit initial log app lifecycleState].
  cbn [bracketRun bracketStep outcomes]. repeat split; assumption.
Qed.

Lemma started_free (host : Host) :
  bracketRun (false, false) (log (started host)) = Some (false, false)
  /\ outcomes (log (started host)) = [].
Proof.
  destruct (serverStarting_free host) as (_ & Hrun0 & Hout0).
  unfold started.
  set (w1 := refreshHeartbeat (withOwner true (serverStarting host))).
  assert (H1 : log w1 = log (serverStarting host) ++ [E_heartbeat]) by reflexivity.
  destruct (outsideAll_free (duringFirstRefresh host) w1) as (l & Hl & Hfree).
  destruct (bracketRun_free l (false, false) Hfree) as [Hrun Hout].
  cbn [emit withTimer log]. rewrite Hl, H1.
  rewrite !bracketRun_app, !outcomes_app, Hrun0, Hout0, Hout.
  cbn [bracketRun bracketStep]. rewrite Hrun. split; reflexivity.
Qed.

(** The owner process read for its turns. *)
Lemma process_bracket (ttlMs : option Js.Number) (verbose : bool)
    (host : Host) (script : list NextTask) :
  bracketRun (false, false)
    (log (snd (runQueueOwnerProcess ttlMs verbose host script)))
  = Some (false, false)
  /\ outcomes (log (snd (runQueueOwnerProcess ttlMs verbose host script)))
     = match acquire host with
       | Lease => if starts host then List.map failed (taken script) else []
       | NoLease | AcquireRejects => []
       end.
Proof.
  unfold runQueueOwnerProcess.
  destruct (acquire host).
  - destruct (starts host); cbn [negb].
    + destruct (started_free host) as [Hrun0 Hout0].
      destruct (started_keeps host) as (Hidle0 & _ & _).
      match goal with |- context [mainLoop ?t ?v ?s ?w] =>
        destruct (mainLoop_bracket t v s w Hidle0 Hrun0) as (_ & Hrun & Hout & _);
        destruct (mainLoop t v s w) as [exit w4]
      end.
      cbn [snd] in Hrun, Hout. rewrite Hout0 in Hout. cbn [app] in Hout.
      destruct (finally_free host w4) as (l & Hl & Hfree).
      destruct (bracketRun_free l (false, false) Hfree) as [Hrunl Houtl].
      assert (Hfin : bracketRun (false, false) (log (snd (finally_ host w4)))
                     = Some (false, false)
                     /\ outcomes (log (snd (finally_ host w4)))
                        = List.map failed (taken script)).
      { rewrite Hl, bracketRun_app, Hrun, outcomes_app, Hout, Houtl, app_nil_r.
        split; [exact Hrunl | reflexivity]. }
      destruct exit; cbn [snd]; try exact Hfin; [|split; assumption].
      destruct (finally_ host w4) as [threw w5]. exact Hfin.
    + destruct (serverStarting_free host) as (_ & Hrun0 & Hout0).
      destruct (finally_free host (serverStarting host)) as (l & Hl & Hfree).
      destruct (bracketRun_free l (false, false) Hfree) as [Hrunl Houtl].
      cbn [snd]. rewrite Hl, bracketRun_app, outcomes_app, Hrun0, Hout0, Houtl.
      split; [exact Hrunl | reflexivity].
  - destruct verbose; split; reflexivity.
  - split; reflexivity.
Qed.

End TurnFacts.

Section BracketClaim.
Import Trace OwnerRuntime.

(** C8.  Every prompt turn is bracketed.  [runPromptTurn], entered in the
    idle state, logs [beginTurn] before anything the queued task does and
    [endTurn] after the task has finished, whether the task succeeded or
    failed; its result is the task's, and the controller is idle again when
    it returns.  In the main loop, and in the whole owner process however
    its calls on the lease store and on the queue server end, the log reads
    as a sequence of turns: every task taken from the queue runs between a
    [beginTurn] and an [endTurn] of its own, the outcomes logged are those
    of the tasks taken, in their order, and every call of [nextTask] stands
    between two turns and finds the controller idle. *)
Theorem C8_turns_bracketed (task : Task) (w : World) (ttlMs : option Js.Number)
    (verbose : bool) (host : Host) (script : list NextTask) :
  lifecycleState w = idle ->
  (fst (runPromptTurn (runQueuedTask task) w) = failed task
   /\ lifecycleState (snd (runPromptTurn (runQueuedTask task) w)) = idle
   /\ exists inner,
        log (snd (runPromptTurn (runQueuedTask task) w))
        = log w ++ [E_beginTurn] ++ inner
            ++ [E_taskOutcome (failed task); E_endTurn]
        /\ Forall insideTurn inner)
  /\ (bracketed (log w) = true ->
      bracketed (log (snd (mainLoop (Ttl.normalizeQueueOwnerTtlMs ttlMs) verbose
                             script w))) = true
      /\ lifecycleState (snd (mainLoop (Ttl.normalizeQueueOwnerTtlMs ttlMs) verbose
                                script w)) = idle
      /\ outcomes (log (snd (mainLoop (Ttl.normalizeQueueOwnerTtlMs ttlMs) verbose
                               script w)))
         = outcomes (log w) ++ List.map failed (taken script))
  /\ bracketed (log (snd (runQueueOwnerProcess ttlMs verbose host script))) = true
  /\ outcomes (log (snd (runQueueOwnerProcess ttlMs verbose host script)))
     = match acquire host with
       | Lease => if starts host then List.map failed (taken script) else []
       | NoLease | AcquireRejects => []
       end
  /\ nextTaskWhenIdle (log (snd (runQueueOwnerProcess ttlMs verbose host script))).
Proof.
  intros Hidle.
  destruct (process_bracket ttlMs verbose host script) as [Hrun Hout].
  repeat apply conj.
  - apply runPromptTurn_log.
  - apply runPromptTurn_state. exact Hidle.
  - destruct (runPromptTurn_log task w) as (_ & _ & _ & H). exact H.
  - intros Hw. unfold bracketed in *.
    destruct (bracketRun (false, false) (log w)) as [[[|] [|]]|] eqn:Hlog;
      try discriminate Hw.
    destruct (mainLoop_bracket (Ttl.normalizeQueueOwnerTtlMs ttlMs) verbose script w
                Hidle Hlog) as (H1 & H2 & H3 & _).
    rewrite H2. repeat split; assumption.
  - unfold bracketed. rewrite Hrun. reflexivity.
  - exact Hout.
  - exact (bracketRun_nextTaskWhenIdle _ _ _ Hrun).
Qed.

(** The statement on a failing and on a succeeding task, with cancel
    requests in, after and between the turns, for a process whose server
    closes badly in the end. *)
Lemma C8_turns_bracketed_witness :
  let failing : Task :=
    {| events := [ClientAvailable; Meanwhile CancelCalled; PromptActive];
       failed := true;
       afterTurn := [CancelAnswered (Some true)];
       duringRefresh := [] |} in
  let passing : Task :=
    {| events := [PromptActive; Meanwhile (CancelAnswered None)];
       failed := false;
       afterTurn := [ScheduledApplySettled false];
       duringRefresh := [CancelCalled; TimerTick] |} in
  let host : Host :=
    {| acquire := Lease; starts := true; closes := false; releases := true;
       duringStart := []; duringFirstRefresh := [CancelCalled];
       duringClose := [CancelApplied true]; duringRelease := [] |} in
  let script :=
    [While CancelCalled; Returns (Some passing); While TimerTick;
     Returns (Some failing); Returns (Some passing)] in
  lifecycleState initial = idle
  /\ lifecycleState (snd (runPromptTurn (runQueuedTask failing) initial)) = idle
  /\ bracketed (log (snd (runQueueOwnerProcess (Some (Js.ofZ 500)) false host script)))
     = true
  /\ outcomes (log (snd (runQueueOwnerProcess (Some (Js.ofZ 500)) false host script)))
     = [false; true].
Proof.
  cbn zeta. split; [reflexivity|].
  match goal with
  | |- lifecycleState (snd (runPromptTurn (runQueuedTask ?t) ?w)) = idle
       /\ bracketed (log (snd (runQueueOwnerProcess ?ttl ?v ?h ?s))) = true /\ _ =>
      destruct (C8_turns_bracketed t w ttl v h s eq_refl)
        as ((_ & Hidle & _) & _ & Hb & Ho & _)
  end.
  split; [exact Hidle|]. split; [exact Hb | exact Ho].
Defined.

End BracketClaim.
(* ------------------------------------------------------------------ *)
(** ** The queue client: how a submission settles                      *)
(* ------------------------------------------------------------------ *)

Section SubmitFacts.
Import Errors QueueSubmit.
Variable options : Options.
Implicit Types (st : State) (l : list Effect).

Lemma settlement_app l l' :
  settlement (l ++ l')
  = match settlement l with Some x => Some x | None => settlement l' end.
Proof.
  induction l as [|e l IH]; [reflexivity|].
  destruct e; cbn; auto.
Qed.

Lemma settlement_quiet l :
  forallb (fun e => negb (isSettle e)) l = true -> settlement l = None.
Proof.
  induction l as [|e l IH]; [reflexivity|].
  cbn. destruct e; cbn; auto; discriminate.
Qed.

End SubmitFacts.

Section SubmitInvariants.
Import Errors QueueSubmit.
Variable options : Options.
Implicit Types (st : State) (l : list Effect).
Local Open Scope nat_scope.

Lemma settlement_none_no_resolve l :
  settlement l = None -> existsb isResolve l = false.
Proof.
  induction l as [|e l IH]; [reflexivity|].
  destruct e; cbn; auto; discriminate.
Qed.

Lemma settlement_resolved l out :
  settlement l = Some (inl out) -> existsb isResolve l = true.
Proof.
  induction l as [|e l IH]; [discriminate|].
  destruct e; cbn; auto; discriminate.
Qed.

Lemma beforeResolve_app l l' :
  beforeResolve (l ++ l')
  = if existsb isResolve l then beforeResolve l else l ++ beforeResolve l'.
Proof.
  induction l as [|e l IH]; [reflexivity|].
  cbn. destruct (isResolve e); cbn; [reflexivity|].
  rewrite IH. destruct (existsb isResolve l); reflexivity.
Qed.

Lemma onDoneCalls_app l l' :
  onDoneCalls (l ++ l') = onDoneCalls l + onDoneCalls l'.
Proof. unfold onDoneCalls. rewrite filter_app, length_app. reflexivity. Qed.

(** Every run of [processLine] only adds to the log, and what it adds
    tells what happened to the call. *)
Lemma processLine_effect line st :
  exists added,
    trace (processLine options line st) = trace st ++ added
    /\ lineEffect options line st (processLine options line st) added.
Proof.
  destruct st as [se ak sd li tr].
  assert (Hnil : forall st', trace st' = tr -> settled st' = true ->
                   exists added, trace st' = tr ++ added
                     /\ lineEffect options line
                          {| settled := true; acknowledged := ak; sawDone := sd;
                             listening := li; trace := tr |} st' added).
  { intros st' Ht Hs. exists []. rewrite app_nil_r.
    split; [exact Ht | split; [exact Hs | reflexivity]]. }
  unfold processLine, lineEffect.
  destruct line as [| |rid body].
  1,2: destruct se; cbn;
       [exists []; rewrite app_nil_r; split; [reflexivity | split; reflexivity]
       | eexists; split; [reflexivity | cbn; auto]].
  cbn [isDoneLine].
  destruct (String.eqb rid (requestId options)) eqn:Erid; cbn [negb].
  2: destruct se; cbn;
       [exists []; rewrite app_nil_r; split; [reflexivity | split; reflexivity]
       | eexists; split; [reflexivity | cbn; auto]].
  destruct body, se, ak, sd, (waitForCompletion options) eqn:Ew;
    cbn -[String.eqb]; rewrite <- ?app_assoc;
    first
      [ exists []; rewrite app_nil_r; split; [reflexivity | cbn; auto; fail]
      | eexists; split;
        [reflexivity
        | cbn; rewrite ?Erid; intuition (try discriminate; eauto); fail] ].
Qed.

Lemma processLine_wellFormed line st :
  wellFormed st -> wellFormed (processLine options line st).
Proof.
  intros Hwf Hs'.
  destruct (processLine_effect line st) as (added & Ht & Heff).
  unfold lineEffect in Heff. destruct (settled st) eqn:Es.
  - destruct Heff as [Heff _]. congruence.
  - destruct (Hwf Es) as [Hl Hn].
    rewrite Ht, settlement_app, Hn.
    destruct (settlement added) as [[out|e]|].
    + destruct Heff as [Heff _]. congruence.
    + destruct Heff as [Heff _]. congruence.
    + destruct Heff as (_ & Hl' & _). split; [congruence | reflexivity].
Qed.

Lemma onData_wellFormed lines : forall st,
  wellFormed st -> wellFormed (onData options lines st).
Proof.
  induction lines as [|line lines IH]; intros st Hwf; [exact Hwf|].
  cbn [onData fold_left]. apply IH. apply processLine_wellFormed. exact Hwf.
Qed.

Lemma finishReject_wellFormed d e st : wellFormed (finishReject d e st).
Proof.
  unfold finishReject, wellFormed. destruct (settled st) eqn:Es.
  - congruence.
  - cbn. discriminate.
Qed.

Lemma finishResolve_wellFormed d r st : wellFormed (finishResolve d r st).
Proof.
  unfold finishResolve, wellFormed. destruct (settled st) eqn:Es.
  - congruence.
  - cbn. discriminate.
Qed.

Lemma step_wellFormed ev st :
  wellFormed st -> wellFormed (step options st ev).
Proof.
  intros Hwf. unfold step. destruct (listening st); cbn [negb]; [|exact Hwf].
  destruct ev as [lines|e|].
  - apply onData_wellFormed. exact Hwf.
  - apply finishReject_wellFormed.
  - unfold onClose. destruct (settled st) eqn:Es; [exact Hwf|].
    destruct (acknowledged st); cbn [negb]; [|apply finishReject_wellFormed].
    destruct (waitForCompletion options); cbn [negb];
      [apply finishReject_wellFormed | apply finishResolve_wellFormed].
Qed.

Lemma run_wellFormed events : forall st,
  wellFormed st -> wellFormed (fold_left (step options) events st).
Proof.
  induction events as [|ev events IH]; intros st Hwf; [exact Hwf|].
  cbn [fold_left]. apply IH. apply step_wellFormed. exact Hwf.
Qed.

Lemma submit_wellFormed events :
  wellFormed (submitToQueueOwner options events).
Proof.
  apply run_wellFormed. intros _. split; reflexivity.
Qed.

(** The log only grows. *)
Lemma onData_appends lines : forall st,
  exists added, trace (onData options lines st) = trace st ++ added.
Proof.
  induction lines as [|line lines IH]; intros st.
  - exists []. symmetry. apply app_nil_r.
  - cbn [onData fold_left].
    destruct (IH (processLine options line st)) as (l2 & Hl2).
    destruct (processLine_effect line st) as (l1 & Hl1 & _).
    exists (l1 ++ l2). unfold onData in Hl2. rewrite Hl2, Hl1, app_assoc.
    reflexivity.
Qed.

Lemma finishReject_appends d e st :
  exists added, trace (finishReject d e st) = trace st ++ added.
Proof.
  unfold finishReject. destruct (settled st).
  - exists []. symmetry. apply app_nil_r.
  - eexists. reflexivity.
Qed.

Lemma finishResolve_appends d r st :
  exists added, trace (finishResolve d r st) = trace st ++ added.
Proof.
  unfold finishResolve. destruct (settled st).
  - exists []. symmetry. apply app_nil_r.
  - eexists. reflexivity.
Qed.

Lemma step_appends ev st :
  exists added, trace (step options st ev) = trace st ++ added.
Proof.
  unfold step. destruct (listening st); cbn [negb].
  - destruct ev as [lines|e|].
    + apply onData_appends.
    + apply finishReject_appends.
    + unfold onClose. destruct (settled st).
      * exists []. symmetry. apply app_nil_r.
      * destruct (acknowledged st); cbn [negb]; [|apply finishReject_appends].
        destruct (waitForCompletion options); cbn [negb];
          [apply finishReject_appends | apply finishResolve_appends].
  - exists []. symmetry. apply app_nil_r.
Qed.

(** Once the call is settled, whatever the socket still reports leaves
    the settlement as it is. *)
Lemma run_settlement_stable events : forall st x,
  settlement (trace st) = Some x ->
  settlement (trace (fold_left (step options) events st)) = Some x.
Proof.
  induction events as [|ev events IH]; intros st x Hx; [exact Hx|].
  cbn [fold_left]. apply IH.
  destruct (step_appends ev st) as (added & ->).
  rewrite settlement_app, Hx. reflexivity.
Qed.

End SubmitInvariants.

(* ------------------------------------------------------------------ *)
(** ** Prompt submission: what the call keeps                          *)
(* ------------------------------------------------------------------ *)

Section SubmitMore.
Import Errors QueueSubmit.
Variable options : Options.
Implicit Types (st : State) (l : list Effect).
Local Open Scope string_scope.
Local Open Scope nat_scope.
Local Open Scope list_scope.

Lemma settlements_app l l' : settlements (l ++ l') = settlements l + settlements l'.
Proof. unfold settlements. rewrite filter_app, length_app. reflexivity. Qed.

Lemma streamCalls_app l l' : streamCalls (l ++ l') = streamCalls l + streamCalls l'.
Proof. unfold streamCalls. rewrite filter_app, length_app. reflexivity. Qed.

Ltac solveShape :=
  unfold protocolErrorShape; cbn;
  first
    [ intros H; discriminate H
    | intros _; split;
      [ reflexivity
      | split;
        [ reflexivity
        | first [ left; reflexivity
                | right; left; reflexivity
                | right; right; reflexivity ] ] ] ].

Ltac solveForall :=
  repeat first
    [ apply Forall_nil
    | apply Forall_cons; [cbn [rejectShape]; first [exact I | solveShape] |] ].

Ltac solveFact :=
  first
    [ reflexivity
    | solve [solveForall]
    | left; reflexivity
    | right; reflexivity
    | solve [intros; first [reflexivity | discriminate | assumption | congruence]]
    | solve [intros; split;
             [ intros; first [reflexivity | discriminate | congruence]
             | intros out Hout;
               first [ discriminate Hout | congruence
                     | injection Hout as <-; reflexivity ] ]] ].

Ltac lineFactsCase :=
  unfold lineFacts; cbn; repeat apply conj; solveFact.

Lemma processLine_facts line st :
  exists added,
    trace (processLine options line st) = trace st ++ added
    /\ lineFacts options st (processLine options line st) added.
Proof.
  destruct st as [se ak sd li tr].
  unfold processLine.
  destruct line as [| |rid body].
  1,2: destruct se; cbn;
       [ exists []; rewrite app_nil_r; split; [reflexivity | lineFactsCase]
       | eexists; split; [reflexivity | lineFactsCase] ].
  destruct (String.eqb rid (requestId options)) eqn:Erid; cbn [negb].
  2: destruct se; cbn;
       [ exists []; rewrite app_nil_r; split; [reflexivity | lineFactsCase]
       | eexists; split; [reflexivity | lineFactsCase] ].
  destruct body, se, ak, sd, (waitForCompletion options) eqn:Ew;
    cbn -[String.eqb]; rewrite <- ?app_assoc;
    first
      [ exists []; rewrite app_nil_r; split; [reflexivity | lineFactsCase; fail]
      | eexists; split; [reflexivity | lineFactsCase; fail] ].
Qed.

Lemma settlements_none l : settlements l = 0 -> settlement l = None.
Proof.
  induction l as [|e l IH]; [reflexivity|].
  unfold settlements in *. destruct e; cbn; auto; discriminate.
Qed.

Lemma settlement_rejected l x : settlement l = Some (inr x) -> In (Reject x) l.
Proof.
  induction l as [|e l IH]; [discriminate|].
  destruct e; cbn; auto; try discriminate.
  intros H. injection H as ->. left. reflexivity.
Qed.

(** A handler that logs [added] and keeps [lineFacts] keeps [Kept]. *)
Lemma kept_extend st st' added :
  Kept options st ->
  trace st' = trace st ++ added ->
  lineFacts options st st' added ->
  Kept options st'.
Proof.
  intros [Hn Hd Hu Hr Hqp Hq] Ht (Fn & Fs & Fl & Fa & Fstream & Fres & Frej & Fq).
  constructor; rewrite ?Ht.
  - rewrite settlements_app, Hn, Fn.
    destruct (settled st) eqn:Es; [rewrite (Fs eq_refl); reflexivity|].
    destruct (settled st'); reflexivity.
  - intros Hs'. rewrite Fl, Hs'.
    destruct (settled st) eqn:Es; [apply Hd; reflexivity | reflexivity].
  - intros Ha'.
    assert (Ha : acknowledged st = false).
    { destruct (acknowledged st) eqn:Ea; [|reflexivity].
      rewrite (Fa eq_refl) in Ha'. discriminate. }
    destruct (Hu Ha) as [Hs0 Hr0].
    rewrite streamCalls_app, existsb_app, Hs0, Hr0.
    destruct Fstream as [-> | Hc]; [|congruence].
    destruct Fres as [-> | Hc]; [|congruence].
    split; reflexivity.
  - apply Forall_app. split; assumption.
  - intros Hw Hs'.
    assert (Hs : settled st = false).
    { destruct (settled st) eqn:Es; [|reflexivity].
      rewrite (Fs eq_refl) in Hs'. discriminate. }
    destruct (Fq Hw (Hqp Hw Hs) Hs) as [Hack _]. apply Hack. exact Hs'.
  - intros Hw out. rewrite settlement_app.
    destruct (settlement (trace st)) as [x|] eqn:Hx.
    + intros Hout. injection Hout as ->. apply (Hq Hw). reflexivity.
    + intros Hout.
      assert (Hs : settled st = false).
      { destruct (settled st) eqn:Es; [|reflexivity].
        assert (Hz : settlements (trace st) = 0).
        { clear - Hx. induction (trace st) as [|e l IH]; [reflexivity|].
          unfold settlements in *. destruct e; cbn in *; auto; discriminate. }
        rewrite Hn in Hz. discriminate. }
      destruct (Fq Hw (Hqp Hw Hs) Hs) as [_ Hres]. apply Hres. exact Hout.
Qed.

Lemma onClose_facts st :
  exists added,
    trace (onClose options st) = trace st ++ added
    /\ lineFacts options st (onClose options st) added.
Proof.
  destruct st as [se ak sd li tr]. unfold onClose.
  destruct se, ak, (waitForCompletion options) eqn:Ew; cbn;
    first
      [ exists []; rewrite app_nil_r; split; [reflexivity | lineFactsCase; fail]
      | eexists; split; [reflexivity | lineFactsCase; fail] ].
Qed.

Lemma onSocketError_facts e st :
  exists added,
    trace (onSocketError e st) = trace st ++ added
    /\ lineFacts options st (onSocketError e st) added.
Proof.
  destruct st as [se ak sd li tr]. unfold onSocketError.
  destruct se, ak; cbn;
    first
      [ exists []; rewrite app_nil_r; split; [reflexivity | lineFactsCase; fail]
      | eexists; split; [reflexivity | lineFactsCase; fail] ].
Qed.

Lemma onData_kept lines : forall st,
  Kept options st -> Kept options (onData options lines st).
Proof.
  induction lines as [|line lines IH]; intros st Hk; [exact Hk|].
  cbn [onData fold_left]. apply IH.
  destruct (processLine_facts line st) as (added & Ht & Hf).
  exact (kept_extend _ _ _ Hk Ht Hf).
Qed.

Lemma step_kept ev st : Kept options st -> Kept options (step options st ev).
Proof.
  intros Hk. unfold step. destruct (listening st); cbn [negb]; [|exact Hk].
  destruct ev as [lines|e|].
  - apply onData_kept. exact Hk.
  - destruct (onSocketError_facts e st) as (added & Ht & Hf).
    exact (kept_extend _ _ _ Hk Ht Hf).
  - destruct (onClose_facts st) as (added & Ht & Hf).
    exact (kept_extend _ _ _ Hk Ht Hf).
Qed.

Lemma run_kept events : forall st,
  Kept options st -> Kept options (fold_left (step options) events st).
Proof.
  induction events as [|ev events IH]; intros st Hk; [exact Hk|].
  cbn [fold_left]. apply IH. apply step_kept. exact Hk.
Qed.

Lemma submit_kept events : Kept options (submitToQueueOwner options events).
Proof.
  apply run_kept. constructor; cbn; try reflexivity; try discriminate.
  - intros _. split; reflexivity.
  - repeat constructor.
Qed.

End SubmitMore.

Section DisconnectClaim.
Import Errors QueueSubmit.
Local Open Scope string_scope.
Local Open Scope list_scope.

(** C3, as the claim words it, fails when the call has been settled
    before the socket closes.  When the socket reports an error, the
    ['error'] listener rejects the call with the error of the socket, and
    the ['close'] listener, removed with all the others, never runs.
    Below the socket is reset, once before and once after the owner has
    accepted the request; in both cases the socket has closed and the call
    is rejected with the socket's error, not with a queue error.  In the
    same way a line that is not JSON, received before any [accepted],
    rejects the call with QUEUE_PROTOCOL_INVALID_JSON, and the close that
    follows changes nothing. *)
Lemma C3_close_after_socket_error :
  let options : Options :=
    {| sessionId := "s"; requestId := "r"; waitForCompletion := true;
       queueErrorAlreadyEmitted := None |} in
  let reset : ErrnoException :=
    {| code := Some "ECONNRESET"; errnoMessage := "read ECONNRESET" |} in
  let early := [SocketError reset; Close] in
  let late := [Data [Message "r" accepted]; SocketError reset; Close] in
  let garbled := [Data [InvalidJson]; Close] in
  (acknowledged (submitToQueueOwner options early) = false
   /\ settlement (trace (submitToQueueOwner options early))
      = Some (inr (SystemErr reset))
   /\ forall e, settlement (trace (submitToQueueOwner options early))
                <> Some (inr (QueueErr e)))
  /\ (acknowledged (submitToQueueOwner options late) = true
      /\ settlement (trace (submitToQueueOwner options late))
         = Some (inr (SystemErr reset))
      /\ forall e, settlement (trace (submitToQueueOwner options late))
                   <> Some (inr (QueueErr e)))
  /\ (acknowledged (submitToQueueOwner options garbled) = false
      /\ exists e, settlement (trace (submitToQueueOwner options garbled))
                   = Some (inr (QueueErr e))
                   /\ detailCode e = Some "QUEUE_PROTOCOL_INVALID_JSON").
Proof.
  cbn zeta. repeat apply conj; try reflexivity;
    try (intros e H; discriminate H).
  eexists. split; reflexivity.
Qed.

(** C3, amended.  Take a prompt submission whose call is still pending
    after the socket has reported [pre]: no error of the socket, no
    violation of the protocol, no error of the owner and no result has
    settled it.
    - If no [accepted] message has been received and the socket closes,
      the call rejects with a retryable connection error whose detail code
      is QUEUE_DISCONNECTED_BEFORE_ACK.
    - If [accepted] has been received, [waitForCompletion] is true and
      the socket closes, the call rejects with a retryable connection
      error whose detail code is QUEUE_DISCONNECTED_BEFORE_COMPLETION.
    - If [waitForCompletion] is false, the call resolves with
      [{queued: true, sessionId, requestId}] when [accepted] arrives, and
      nothing the socket reports afterwards, a close included, changes
      that.  So a pending call of this kind has never been acknowledged:
      the ['close'] listener never has to resolve it.
    - If the socket reports an error, the call rejects with that error,
      and the close that follows changes nothing. *)
Theorem C3_disconnects (options : Options) (pre : list SocketEvent) :
  settled (submitToQueueOwner options pre) = false ->
  (acknowledged (submitToQueueOwner options pre) = false ->
     exists e,
       settlement (trace (submitToQueueOwner options (pre ++ [Close])))
       = Some (inr (QueueErr e))
       /\ errorClass e = QueueConnectionError
       /\ detailCode e = Some "QUEUE_DISCONNECTED_BEFORE_ACK"
       /\ retryable e = Some true)
  /\ (acknowledged (submitToQueueOwner options pre) = true ->
      waitForCompletion options = true ->
      exists e,
        settlement (trace (submitToQueueOwner options (pre ++ [Close])))
        = Some (inr (QueueErr e))
        /\ errorClass e = QueueConnectionError
        /\ detailCode e = Some "QUEUE_DISCONNECTED_BEFORE_COMPLETION"
        /\ retryable e = Some true)
  /\ (waitForCompletion options = false ->
      forall post,
        settlement
          (trace (submitToQueueOwner options
                    (pre ++ Data [Message (requestId options) accepted] :: post)))
        = Some (inl (Queued (sessionId options) (requestId options))))
  /\ (waitForCompletion options = false ->
      acknowledged (submitToQueueOwner options pre) = false)
  /\ (forall e post,
        settlement (trace (submitToQueueOwner options (pre ++ SocketError e :: post)))
        = Some (inr (SystemErr e))).
Proof.
  intros Hs.
  pose proof (submit_kept options pre) as Hkept.
  destruct (submit_wellFormed options pre Hs) as [Hl Hn].
  unfold submitToQueueOwner in *.
  set (st := fold_left (step options) pre (start options)) in *.
  repeat apply conj.
  - intros Hack. eexists.
    rewrite fold_left_app. cbn [fold_left]. fold st.
    unfold step. rewrite Hl. cbn [negb]. unfold onClose.
    rewrite Hs, Hack. cbn [negb]. unfold finishReject. rewrite Hs.
    cbn [settle trace]. rewrite settlement_app, Hn.
    repeat split; reflexivity.
  - intros Hack Hwait. eexists.
    rewrite fold_left_app. cbn [fold_left]. fold st.
    unfold step. rewrite Hl. cbn [negb]. unfold onClose.
    rewrite Hs, Hack, Hwait. cbn [negb]. unfold finishReject. rewrite Hs.
    cbn [settle trace]. rewrite settlement_app, Hn.
    repeat split; reflexivity.
  - intros Hwait post.
    rewrite fold_left_app. cbn [fold_left]. fold st.
    apply run_settlement_stable.
    unfold step. rewrite Hl. cbn [negb onData fold_left processLine].
    rewrite String.eqb_refl, Hwait. cbn [negb].
    unfold finishResolve. cbn [log setAcknowledged settled]. rewrite Hs.
    cbn [settle log setAcknowledged trace].
    rewrite <- app_assoc, settlement_app, Hn. reflexivity.
  - intros Hwait. exact (kept_queued_pending _ _ Hkept Hwait Hs).
  - intros e post.
    rewrite fold_left_app. cbn [fold_left]. fold st.
    apply run_settlement_stable.
    unfold step. rewrite Hl. cbn [negb]. unfold onSocketError, finishReject.
    rewrite Hs. cbn [settle trace]. rewrite settlement_app, Hn. reflexivity.
Qed.

(** The statement for a client that waits and one that does not: the
    owner closes the socket at once, or after having accepted. *)
Lemma C3_disconnects_witness :
  let waiting : Options :=
    {| sessionId := "s"; requestId := "r"; waitForCompletion := true;
       queueErrorAlreadyEmitted := None |} in
  let queued : Options :=
    {| sessionId := "s"; requestId := "r"; waitForCompletion := false;
       queueErrorAlreadyEmitted := None |} in
  (exists e,
      settlement (trace (submitToQueueOwner waiting ([] ++ [Close])))
      = Some (inr (QueueErr e))
      /\ detailCode e = Some "QUEUE_DISCONNECTED_BEFORE_ACK")
  /\ (exists e,
         settlement (trace (submitToQueueOwner waiting
                              ([Data [Message "r" accepted]] ++ [Close])))
         = Some (inr (QueueErr e))
         /\ detailCode e = Some "QUEUE_DISCONNECTED_BEFORE_COMPLETION")
  /\ settlement (trace (submitToQueueOwner queued
                          ([] ++ Data [Message "r" accepted] :: [Close])))
     = Some (inl (Queued "s" "r")).
Proof.
  cbn zeta. repeat apply conj.
  - match goal with |- context [submitToQueueOwner ?o (?p ++ _)] =>
      destruct (C3_disconnects o p eq_refl) as (H & _)
    end.
    destruct (H eq_refl) as (e & He & _ & Hd & _). exists e. split; assumption.
  - match goal with |- context [submitToQueueOwner ?o (?p ++ _)] =>
      destruct (C3_disconnects o p eq_refl) as (_ & H & _)
    end.
    destruct (H eq_refl eq_refl) as (e & He & _ & Hd & _).
    exists e. split; assumption.
  - match goal with |- context [submitToQueueOwner ?o (?p ++ _)] =>
      destruct (C3_disconnects o p eq_refl) as (_ & _ & H & _)
    end.
    apply (H eq_refl).
Defined.

End DisconnectClaim.

(* ------------------------------------------------------------------ *)
(** ** The queue client: [onDone] before the call resolves             *)
(* ------------------------------------------------------------------ *)

Section DoneFacts.
Import Errors QueueSubmit.
Variable options : Options.
Hypothesis waits : waitForCompletion options = true.
Implicit Types (st : State) (l : list Effect).
Local Open Scope nat_scope.
Local Open Scope list_scope.

Lemma settlement_none_beforeResolve l :
  settlement l = None -> beforeResolve l = l.
Proof.
  induction l as [|e l IH]; [reflexivity|].
  destruct e; cbn; intros H; try discriminate; rewrite IH; auto.
Qed.

Lemma processLine_doneAccount n line st :
  doneAccount n st -> doneAccount (n + doneStep options line) (processLine options line st).
Proof.
  intros [Hopen Hres].
  destruct (processLine_effect options line st) as (added & Ht & Heff).
  unfold lineEffect in Heff. unfold doneAccount. rewrite Ht.
  destruct (settled st) eqn:Es.
  - destruct Heff as [Hs' Hq]. split; [intros H; congruence|].
    intros out. rewrite settlement_app.
    destruct (settlement (trace st)) as [x|] eqn:Hx; [|rewrite Hq; discriminate].
    intros Hout. injection Hout as ->.
    destruct (Hres out eq_refl) as (Hr & Hlo & Hhi).
    rewrite beforeResolve_app, (settlement_resolved _ _ Hx).
    repeat split; [exact Hr | exact Hlo | lia].
  - destruct (Hopen eq_refl) as (Hn & Hle & Hiff).
    rewrite settlement_app, Hn.
    destruct (settlement added) as [[out|e]|] eqn:Ha.
    + destruct Heff as (Hs' & _ & Hw). split; [intros H; congruence|].
      intros out' Hout. injection Hout as <-.
      destruct (Hw waits) as (_ & Hr & Hc).
      rewrite beforeResolve_app, (settlement_none_no_resolve _ Hn).
      rewrite onDoneCalls_app, Hc.
      split; [exact Hr|].
      destruct (sawDone st).
      * destruct Hiff as [Hiff _]. specialize (Hiff eq_refl). lia.
      * assert (onDoneCalls (trace st) = 0).
        { destruct (onDoneCalls (trace st)); [reflexivity|].
          destruct Hiff as [_ Hiff]. discriminate Hiff. lia. }
        lia.
    + destruct Heff as (Hs' & _). split; [intros H; congruence | discriminate].
    + destruct Heff as (_ & _ & Hd). split; [|discriminate].
      intros _. split; [reflexivity|]. rewrite onDoneCalls_app. unfold doneStep.
      destruct Hd as [(Hc & Hsd) | (Hc & Hsd & Hdl & _)].
      * rewrite Hc, Hsd, Nat.add_0_r. split; [lia | exact Hiff].
      * rewrite Hc, Hsd, Hdl. split; [lia|]. split; [lia | reflexivity].
Qed.

Lemma onData_doneAccount lines : forall n st,
  doneAccount n st ->
  doneAccount (n + doneLines (requestId options) lines) (onData options lines st).
Proof.
  induction lines as [|line lines IH]; intros n st H.
  - cbn. rewrite Nat.add_0_r. exact H.
  - cbn [onData fold_left].
    replace (n + doneLines (requestId options) (line :: lines))
      with ((n + doneStep options line) + doneLines (requestId options) lines).
    + apply IH. apply processLine_doneAccount. exact H.
    + unfold doneLines, doneStep. cbn [filter].
      destruct (isDoneLine (requestId options) line); cbn [Datatypes.length]; lia.
Qed.

Lemma finishReject_doneAccount n d e st :
  doneAccount n st -> doneAccount n (finishReject d e st).
Proof.
  intros H. unfold finishReject.
  destruct (settled st) eqn:Es; [exact H|].
  destruct H as [Hopen Hres].
  destruct (Hopen Es) as (Hn & _).
  split; [cbn; discriminate|].
  intros out. cbn [settle trace]. rewrite settlement_app, Hn.
  destruct d; discriminate.
Qed.

Lemma step_doneAccount ev n st :
  doneAccount n st ->
  doneAccount (n + doneLines (requestId options) (allLines [ev]))
    (step options st ev).
Proof.
  intros H. unfold step.
  assert (Hmono : forall m, doneAccount (n + m) st).
  { intros m. destruct H as [Hopen Hres]. split.
    - intros Hs. destruct (Hopen Hs) as (Hn & Hle & Hiff).
      repeat split; try assumption; try lia; apply Hiff.
    - intros out Hout. destruct (Hres out Hout) as (Hr & Hlo & Hhi).
      repeat split; try assumption; lia. }
  destruct (listening st); cbn [negb]; [|apply Hmono].
  destruct ev as [lines|e|]; cbn [allLines flat_map].
  - rewrite app_nil_r. apply onData_doneAccount. exact H.
  - cbn. rewrite Nat.add_0_r. apply finishReject_doneAccount. exact H.
  - cbn. rewrite Nat.add_0_r. unfold onClose.
    destruct (settled st); [exact H|].
    rewrite waits. cbn [negb].
    destruct (acknowledged st); cbn [negb];
      apply finishReject_doneAccount; exact H.
Qed.

Lemma run_doneAccount events : forall n st,
  doneAccount n st ->
  doneAccount (n + doneLines (requestId options) (allLines events))
    (fold_left (step options) events st).
Proof.
  induction events as [|ev events IH]; intros n st H.
  - cbn. rewrite Nat.add_0_r. exact H.
  - cbn [fold_left].
    replace (n + doneLines (requestId options) (allLines (ev :: events)))
      with ((n + doneLines (requestId options) (allLines [ev]))
            + doneLines (requestId options) (allLines events)).
    + apply IH. apply step_doneAccount. exact H.
    + unfold doneLines, allLines. cbn [flat_map].
      rewrite app_nil_r, filter_app, length_app. lia.
Qed.

Lemma submit_doneAccount events :
  doneAccount (doneLines (requestId options) (allLines events))
    (submitToQueueOwner options events).
Proof.
  apply (run_doneAccount events 0). split.
  - intros _. cbn. repeat split; try lia; try discriminate.
  - cbn. discriminate.
Qed.

End DoneFacts.

Section DoneClaim.
Import Errors QueueSubmit.
Local Open Scope string_scope.
Local Open Scope list_scope.
Local Open Scope nat_scope.

(** C10, as the claim words it, fails: the client calls [onDone] for
    every [done] message it receives, so an owner that sends [done] twice
    before [result] has [onDone] invoked twice before the call resolves. *)
Lemma C10_onDone_twice :
  let options : Options :=
    {| sessionId := "s"; requestId := "r"; waitForCompletion := true;
       queueErrorAlreadyEmitted := None |} in
  let answer : PromptResult := {| stopReason := "end_turn"; rest := "" |} in
  let events :=
    [Data [Message "r" accepted; Message "r" (done "end_turn");
           Message "r" (done "end_turn"); Message "r" (result answer)]] in
  let tr := trace (submitToQueueOwner options events) in
  settlement tr = Some (inl (Completed answer))
  /\ onDoneCalls (beforeResolve tr) = 2
  /\ onDoneCalls (beforeResolve tr) <> 1.
Proof.
  cbn zeta. repeat apply conj; [reflexivity | reflexivity | discriminate].
Qed.

(** C10, amended.  When a prompt submission with [waitForCompletion]
    true ends in success, the call resolved with the payload of a [result]
    message and the formatter's [onDone] was invoked at least once before
    the call resolved, and at most as often as [done] messages were
    received (once if there was none): exactly once whenever the owner
    sent at most one [done] message.  An acknowledged [done] message
    triggers [onDone(stopReason)]; a [result] message that no [done]
    message preceded makes the client call [onDone(result.stopReason)]
    itself, then [flush], before it resolves with the payload. *)
Theorem C10_onDone_before_resolve (options : Options) :
  waitForCompletion options = true ->
  (forall events out,
      settlement (trace (submitToQueueOwner options events)) = Some (inl out) ->
      (exists r, out = Completed r)
      /\ 1 <= onDoneCalls (beforeResolve (trace (submitToQueueOwner options events)))
      /\ onDoneCalls (beforeResolve (trace (submitToQueueOwner options events)))
         <= Nat.max 1 (doneLines (requestId options) (allLines events))
      /\ (doneLines (requestId options) (allLines events) <= 1 ->
          onDoneCalls (beforeResolve (trace (submitToQueueOwner options events))) = 1))
  /\ (forall st sr, acknowledged st = true ->
        processLine options (Message (requestId options) (done sr)) st
        = setSawDone (log [Fmt (F_onDone sr)] st))
  /\ (forall st r, acknowledged st = true -> settled st = false ->
        sawDone st = false ->
        trace (processLine options (Message (requestId options) (result r)) st)
        = trace st ++ [Fmt (F_onDone (stopReason r)); Fmt F_flush;
                       RemoveAllListeners; SocketEnd; Resolve (Completed r)])
  /\ (forall st r, acknowledged st = true -> settled st = false ->
        sawDone st = true ->
        trace (processLine options (Message (requestId options) (result r)) st)
        = trace st ++ [Fmt F_flush; RemoveAllListeners; SocketEnd;
                       Resolve (Completed r)]).
Proof.
  intros Hwait. repeat apply conj.
  - intros events out Hout.
    destruct (submit_doneAccount options Hwait events) as [_ Hres].
    destruct (Hres out Hout) as (Hr & Hlo & Hhi).
    repeat apply conj; [exact Hr | exact Hlo | exact Hhi | lia].
  - intros st sr Hack. unfold processLine.
    rewrite String.eqb_refl, Hack. reflexivity.
  - intros st r Hack Hs Hd. unfold processLine.
    rewrite String.eqb_refl, Hack, Hd. cbn [negb].
    unfold finishResolve. cbn [log settled]. rewrite Hs.
    cbn [settle log trace]. rewrite <- !app_assoc. reflexivity.
  - intros st r Hack Hs Hd. unfold processLine.
    rewrite String.eqb_refl, Hack, Hd. cbn [negb].
    unfold finishResolve. cbn [log settled]. rewrite Hs.
    cbn [settle log trace]. rewrite <- !app_assoc. reflexivity.
Qed.

(** The amended statement on an owner that sends [result] without any
    [done] before it. *)
Lemma C10_onDone_before_resolve_witness :
  let options : Options :=
    {| sessionId := "s"; requestId := "r"; waitForCompletion := true;
       queueErrorAlreadyEmitted := None |} in
  let answer : PromptResult := {| stopReason := "end_turn"; rest := "" |} in
  let events := [Data [Message "r" accepted]; Data [Message "r" (result answer)]] in
  settlement (trace (submitToQueueOwner options events)) = Some (inl (Completed answer))
  /\ onDoneCalls (beforeResolve (trace (submitToQueueOwner options events))) = 1.
Proof.
  cbn zeta. split; [reflexivity|].
  match goal with |- context [submitToQueueOwner ?o ?ev] =>
    destruct (C10_onDone_before_resolve o eq_refl) as (H & _);
    destruct (H ev (Completed {| stopReason := "end_turn"; rest := "" |}) eq_refl)
      as (_ & _ & _ & Honce)
  end.
  apply Honce. cbn. lia.
Defined.

End DoneClaim.

(* ------------------------------------------------------------------ *)
(** ** The queue client: connecting with bounded retries               *)
(* ------------------------------------------------------------------ *)

Section ConnectFacts.
Import Errors QueueConnect.
Context {Socket : Type}.
Variable connectToSocket : nat -> Socket + ErrnoException.
Variable isProcessAlive : nat -> bool.
Local Open Scope nat_scope.
Local Open Scope list_scope.

Lemma rounds_S (from k : nat) :
  rounds from (S k)
  = [C_connect from; C_isProcessAlive; C_wait QUEUE_CONNECT_RETRY_MS]
    ++ rounds (S from) k.
Proof. reflexivity. Qed.

Lemma attemptsMade_rounds (from k : nat) : attemptsMade (rounds from k) = k.
Proof.
  revert from. induction k as [|k IH]; intros from; [reflexivity|].
  rewrite rounds_S. unfold attemptsMade in *. rewrite filter_app, length_app.
  rewrite IH. reflexivity.
Qed.

Lemma connectLoop_spec (remaining : nat) : forall attempt lastError log,
  (forall e, lastError = Some e -> shouldRetryQueueConnect e = true) ->
  exists k final,
    k <= remaining
    /\ (forall i, attempt <= i < attempt + k -> retried connectToSocket isProcessAlive i)
    /\ snd (connectLoop connectToSocket isProcessAlive remaining attempt lastError log)
       = log ++ rounds attempt k ++ final
    /\ ending connectToSocket isProcessAlive (remaining - k) (attempt + k)
         (fst (connectLoop connectToSocket isProcessAlive remaining attempt lastError log))
         final.
Proof.
  induction remaining as [|remaining IH]; intros attempt lastError log Hlast.
  - exists 0, []. repeat apply conj.
    + lia.
    + intros i Hi. lia.
    + cbn. rewrite app_nil_r. reflexivity.
    + left. repeat split. cbn. unfold afterLoop.
      destruct lastError as [e|]; [rewrite (Hlast e eq_refl)|]; reflexivity.
  - cbn [connectLoop].
    destruct (connectToSocket attempt) as [s|e] eqn:Hc.
    + exists 0, [C_connect attempt]. rewrite Nat.add_0_r, Nat.sub_0_r.
      repeat apply conj; [lia | intros i Hi; lia | reflexivity |].
      right. left. split; [lia|]. exists s. repeat split. exact Hc.
    + destruct (shouldRetryQueueConnect e) eqn:Hr; cbn [negb].
      * destruct (isProcessAlive attempt) eqn:Ha; cbn [negb].
        -- destruct (IH (S attempt) (Some e)
                       (((log ++ [C_connect attempt]) ++ [C_isProcessAlive])
                        ++ [C_wait QUEUE_CONNECT_RETRY_MS]))
             as (k & final & Hk & Hret & Hlog & Hend).
           { intros e' He'. injection He' as <-. exact Hr. }
           exists (S k), final.
           replace (attempt + S k) with (S attempt + k) by lia.
           replace (S remaining - S k) with (remaining - k) by lia.
           repeat apply conj.
           ++ lia.
           ++ intros i Hi. destruct (Nat.eq_dec i attempt) as [->|Hne].
              ** exists e. repeat split; assumption.
              ** apply Hret. lia.
           ++ rewrite Hlog, rounds_S, <- !app_assoc. reflexivity.
           ++ exact Hend.
        -- exists 0, [C_connect attempt; C_isProcessAlive].
           rewrite Nat.add_0_r, Nat.sub_0_r.
           repeat apply conj;
             [lia | intros i Hi; lia | cbn; rewrite <- app_assoc; reflexivity |].
           right. right. right. split; [lia|]. exists e. repeat split; assumption.
      * exists 0, [C_connect attempt]. rewrite Nat.add_0_r, Nat.sub_0_r.
        repeat apply conj; [lia | intros i Hi; lia | reflexivity |].
        right. right. left. split; [lia|]. exists e. repeat split; assumption.
Qed.

End ConnectFacts.

Section ConnectClaim.
Import Errors QueueConnect.
Local Open Scope nat_scope.
Local Open Scope list_scope.

Lemma optEqb_true (a : option string) (b : string) :
  optEqb a b = true <-> a = Some b.
Proof.
  destruct a as [s|]; cbn.
  - rewrite String.eqb_eq. split; [intros -> | intros H; injection H]; auto.
  - split; discriminate.
Qed.

(** C6.  [connectToQueueOwner] goes through some number [k <= 40] of
    attempts that each failed with ENOENT or ECONNREFUSED while the owner's
    process was alive, each followed by a wait of 50 ms, and then ends in
    one of four ways: all 40 attempts are used up and it returns
    [undefined]; the next attempt connects and the socket is returned; the
    next attempt fails with any other error, which is rethrown at once; or
    the next attempt fails with a retryable error and the owner's process
    is found dead, and it returns [undefined].  So at most 40 attempts are
    made, and an error is retried exactly when its code is ENOENT or
    ECONNREFUSED. *)
Theorem C6_connect_bounded_retries (Socket : Type)
    (connectToSocket : nat -> Socket + ErrnoException)
    (isProcessAlive : nat -> bool) :
  (exists k final,
      k <= 40
      /\ (forall i, i < k -> retried connectToSocket isProcessAlive i)
      /\ snd (connectToQueueOwner connectToSocket isProcessAlive)
         = rounds 0 k ++ final
      /\ ending connectToSocket isProcessAlive (40 - k) k
           (fst (connectToQueueOwner connectToSocket isProcessAlive)) final)
  /\ attemptsMade (snd (connectToQueueOwner connectToSocket isProcessAlive)) <= 40
  /\ (forall w, In (C_wait w) (snd (connectToQueueOwner connectToSocket isProcessAlive))
                -> w = 50%Z)
  /\ (forall e, shouldRetryQueueConnect e = true
                <-> (code e = Some "ENOENT"%string
                     \/ code e = Some "ECONNREFUSED"%string)).
Proof.
  destruct (connectLoop_spec connectToSocket isProcessAlive
              QUEUE_CONNECT_ATTEMPTS 0 None [])
    as (k & final & Hk & Hret & Hlog & Hend); [discriminate|].
  cbn [app Nat.add] in Hlog, Hend, Hret. fold (connectToQueueOwner connectToSocket isProcessAlive) in *.
  change QUEUE_CONNECT_ATTEMPTS with 40 in *.
  repeat apply conj.
  - exists k, final. repeat apply conj; try assumption.
    intros i Hi. apply Hret. lia.
  - rewrite Hlog. unfold attemptsMade. rewrite filter_app, length_app.
    fold (attemptsMade (rounds 0 k)). rewrite attemptsMade_rounds.
    destruct Hend as [(_ & _ & ->) | [(Hlt & s & _ & _ & ->)
                     | [(Hlt & e & _ & _ & _ & ->) | (Hlt & e & _ & _ & _ & _ & ->)]]];
      cbn; lia.
  - intros w Hin. rewrite Hlog in Hin. apply in_app_or in Hin.
    destruct Hin as [Hin | Hin].
    + unfold rounds in Hin. apply in_flat_map in Hin.
      destruct Hin as (i & _ & Hin). cbn in Hin.
      destruct Hin as [Hin | [Hin | [Hin | []]]]; try discriminate.
      injection Hin as <-. reflexivity.
    + destruct Hend as [(_ & _ & ->) | [(Hlt & s & _ & _ & ->)
                       | [(Hlt & e & _ & _ & _ & ->) | (Hlt & e & _ & _ & _ & _ & ->)]]];
        cbn in Hin; intuition discriminate.
  - intros e. unfold shouldRetryQueueConnect. rewrite orb_true_iff, !optEqb_true.
    reflexivity.
Qed.

(** The statement on an owner whose socket appears at the third attempt. *)
Lemma C6_connect_bounded_retries_witness :
  let notYet : ErrnoException := {| code := Some "ENOENT"%string; errnoMessage := ""%string |} in
  let connect (i : nat) : unit + ErrnoException :=
    if i <? 2 then inr notYet else inl tt in
  fst (connectToQueueOwner connect (fun _ => true)) = Connected tt
  /\ attemptsMade (snd (connectToQueueOwner connect (fun _ => true))) <= 40.
Proof.
  cbn zeta. split; [reflexivity|].
  match goal with |- context [connectToQueueOwner ?c ?a] =>
    destruct (C6_connect_bounded_retries unit c a) as (_ & H & _)
  end.
  exact H.
Defined.

End ConnectClaim.

(* ------------------------------------------------------------------ *)
(** ** Spawn-or-attach                                                 *)
(* ------------------------------------------------------------------ *)

Section SpawnFacts.
Import Errors Spawn.
Local Open Scope Z_scope.
Local Open Scope list_scope.

Lemma spawnTimes_app (l1 l2 : list Effect) :
  spawnTimes (l1 ++ l2) = spawnTimes l1 ++ spawnTimes l2.
Proof.
  induction l1 as [|e l1 IH]; [reflexivity|].
  destruct e; cbn; rewrite ?IH; reflexivity.
Qed.

Lemma count_app (f : Effect -> bool) (l1 l2 : list Effect) :
  count f (l1 ++ l2) = (count f l1 + count f l2)%nat.
Proof. unfold count. rewrite filter_app, length_app. reflexivity. Qed.

Ltac finalRound :=
  exists [S_trySubmit]; cbn;
  repeat apply conj;
  [ reflexivity | exact I | constructor | intros t []
  | intros ms [H|[]]; discriminate H | reflexivity ].

(** What a run of the loop adds to the log. *)
Lemma loop_log (script : list Round) : forall deadline last log,
  exists added,
    snd (loop deadline last script log) = log ++ added
    /\ spaced last (spawnTimes added)
    /\ Forall (fun t => t < deadline) (spawnTimes added)
    /\ (forall t, In t (spawnTimes added) ->
          exists r, In r script /\ trySubmitToRunningOwner r = inl None /\ now r = t)
    /\ (forall ms, In (S_wait ms) added -> ms = 50)
    /\ count isTrySubmit added
       = (count isWait added
          + match fst (loop deadline last script log) with
            | Pending => 0 | _ => 1 end)%nat.
Proof.
  induction script as [|r script IH]; intros deadline last log.
  - exists []. cbn. rewrite app_nil_r.
    repeat apply conj;
      [reflexivity | exact I | constructor | intros t [] | intros ms [] | reflexivity].
  - cbn [loop].
    destruct (trySubmitToRunningOwner r) as [[o|]|e] eqn:Htry.
    + finalRound.
    + destruct (now r >=? deadline) eqn:Hd.
      * finalRound.
      * assert (Hlt : now r < deadline).
        { destruct (Z.geb_spec (now r) deadline); [discriminate | lia]. }
        destruct (now r - last >=? QUEUE_OWNER_RESPAWN_BACKOFF_MS) eqn:Hb.
        -- destruct (IH deadline (now r)
                       ((log ++ [S_trySubmit])
                        ++ [S_spawn (now r); S_wait QUEUE_CONNECT_RETRY_MS]))
             as (added & Hlog & Hsp & Hdl & Hfrom & Hw & Hc).
           exists ([S_trySubmit; S_spawn (now r); S_wait QUEUE_CONNECT_RETRY_MS] ++ added).
           rewrite Hlog. cbn [app spawnTimes].
           repeat apply conj.
           ++ rewrite <- !app_assoc. reflexivity.
           ++ destruct (Z.geb_spec (now r - last) QUEUE_OWNER_RESPAWN_BACKOFF_MS);
                [lia | discriminate].
           ++ exact Hsp.
           ++ constructor; assumption.
           ++ intros t [<- | Hin].
              ** exists r. repeat split; [left; reflexivity | exact Htry].
              ** destruct (Hfrom t Hin) as (r' & Hr' & Hu & Hn).
                 exists r'. repeat split; [right; exact Hr' | exact Hu | exact Hn].
           ++ intros ms [H | [H | [H | Hin]]]; try discriminate.
              ** injection H as <-. reflexivity.
              ** apply Hw. exact Hin.
           ++ change (S_trySubmit :: S_spawn (now r) :: S_wait QUEUE_CONNECT_RETRY_MS :: added)
                with ([S_trySubmit; S_spawn (now r); S_wait QUEUE_CONNECT_RETRY_MS] ++ added).
              rewrite !count_app, Hc. cbn. lia.
        -- destruct (IH deadline last
                       ((log ++ [S_trySubmit]) ++ [S_wait QUEUE_CONNECT_RETRY_MS]))
             as (added & Hlog & Hsp & Hdl & Hfrom & Hw & Hc).
           exists ([S_trySubmit; S_wait QUEUE_CONNECT_RETRY_MS] ++ added).
           rewrite Hlog. cbn [app spawnTimes].
           repeat apply conj.
           ++ rewrite <- !app_assoc. reflexivity.
           ++ exact Hsp.
           ++ exact Hdl.
           ++ intros t Hin. destruct (Hfrom t Hin) as (r' & Hr' & Hu & Hn).
              exists r'. repeat split; [right; exact Hr' | exact Hu | exact Hn].
           ++ intros ms [H | [H | Hin]]; try discriminate.
              ** injection H as <-. reflexivity.
              ** apply Hw. exact Hin.
           ++ change (S_trySubmit :: S_wait QUEUE_CONNECT_RETRY_MS :: added)
                with ([S_trySubmit; S_wait QUEUE_CONNECT_RETRY_MS] ++ added).
              rewrite !count_app, Hc. cbn. lia.
    + destruct (isQueueNotAcceptingError e) eqn:Hq; cbn [negb].
      * destruct (now r >=? deadline) eqn:Hd.
        -- finalRound.
        -- destruct (IH deadline last
                       ((log ++ [S_trySubmit]) ++ [S_wait QUEUE_CONNECT_RETRY_MS]))
             as (added & Hlog & Hsp & Hdl & Hfrom & Hw & Hc).
           exists ([S_trySubmit; S_wait QUEUE_CONNECT_RETRY_MS] ++ added).
           rewrite Hlog. cbn [app spawnTimes].
           repeat apply conj.
           ++ rewrite <- !app_assoc. reflexivity.
           ++ exact Hsp.
           ++ exact Hdl.
           ++ intros t Hin. destruct (Hfrom t Hin) as (r' & Hr' & Hu & Hn).
              exists r'. repeat split; [right; exact Hr' | exact Hu | exact Hn].
           ++ intros ms [H | [H | Hin]]; try discriminate.
              ** injection H as <-. reflexivity.
              ** apply Hw. exact Hin.
           ++ change (S_trySubmit :: S_wait QUEUE_CONNECT_RETRY_MS :: added)
                with ([S_trySubmit; S_wait QUEUE_CONNECT_RETRY_MS] ++ added).
              rewrite !count_app, Hc. cbn. lia.
      * finalRound.
Qed.

(** How the loop ends after rounds that all stalled before the deadline. *)
Lemma loop_after_continuing (pre : list Round) : forall deadline last log rest,
  Forall (continuing deadline) pre ->
  exists last' log',
    loop deadline last (pre ++ rest) log = loop deadline last' rest log'.
Proof.
  induction pre as [|r pre IH]; intros deadline last log rest Hpre.
  - exists last, log. reflexivity.
  - inversion Hpre as [|? ? [Hst Hlt] Hpre']; subst.
    assert (Hd : (now r >=? deadline) = false).
    { destruct (Z.geb_spec (now r) deadline); [lia | reflexivity]. }
    cbn [app loop].
    destruct Hst as [Hu | (e & He & Hq)].
    + rewrite Hu, Hd.
      destruct (now r - last >=? QUEUE_OWNER_RESPAWN_BACKOFF_MS);
        apply IH; exact Hpre'.
    + rewrite He, Hq, Hd. cbn [negb]. apply IH. exact Hpre'.
Qed.

End SpawnFacts.

Section SpawnClaim.
Import Errors Spawn.
Local Open Scope Z_scope.
Local Open Scope list_scope.

(** C5, as the claim words it, fails at the boundary of the backoff: the
    loop starts a second detached owner when the previous spawn is exactly
    250 ms old, which is not "more than 250 ms ago". *)
Lemma C5_respawn_at_exactly_250ms :
  let noOwner (t : Z) : Round :=
    {| ownerRecord := false; usableBefore := false; submitted := inl None;
       usableAfter := false; now := t |} in
  let run := sendViaDetachedQueueOwner 1000000 [noOwner 1000000; noOwner 1000250] in
  snd run
  = [S_trySubmit; S_spawn 1000000; S_wait 50;
     S_trySubmit; S_spawn 1000250; S_wait 50]
  /\ spawnTimes (snd run) = [1000000; 1000250]
  /\ ~ (1000250 - 1000000 > 250).
Proof.
  cbn zeta. repeat apply conj; [reflexivity | reflexivity | lia].
Qed.

(** C5, amended.  [sendViaDetachedQueueOwner] works under a deadline of
    10 s after its start.  As long as its attempts stall (no owner, or an
    owner that raises QUEUE_NOT_ACCEPTING_REQUESTS) before the deadline it
    goes on, sleeping 50 ms after each such attempt.  A detached owner is
    started only in a round whose attempt returned [undefined], only before
    the deadline, and only when the previous spawn is at least 250 ms old
    (the first one when the clock reads at least 250); the first such round
    does start one.  The first attempt that succeeds returns its outcome;
    the first attempt that raises any other error raises that error at
    once; the first stalled attempt that ends at or after the deadline
    raises a retryable QUEUE_NOT_ACCEPTING_REQUESTS connection error. *)
Theorem C5_spawn_or_attach (start : Z) (script : list Round) :
  spaced 0 (spawnTimes (snd (sendViaDetachedQueueOwner start script)))
  /\ Forall (fun t => t < start + 10000)
       (spawnTimes (snd (sendViaDetachedQueueOwner start script)))
  /\ (forall t, In t (spawnTimes (snd (sendViaDetachedQueueOwner start script))) ->
        exists r, In r script /\ trySubmitToRunningOwner r = inl None /\ now r = t)
  /\ (forall ms, In (S_wait ms) (snd (sendViaDetachedQueueOwner start script)) ->
        ms = 50)
  /\ count isTrySubmit (snd (sendViaDetachedQueueOwner start script))
     = (count isWait (snd (sendViaDetachedQueueOwner start script))
        + match fst (sendViaDetachedQueueOwner start script) with
          | Pending => 0 | _ => 1 end)%nat
  /\ (forall r post, script = r :: post ->
        trySubmitToRunningOwner r = inl None ->
        250 <= now r < start + 10000 ->
        exists rest,
          snd (sendViaDetachedQueueOwner start script)
          = [S_trySubmit; S_spawn (now r); S_wait 50] ++ rest)
  /\ (forall pre r post, script = pre ++ r :: post ->
        Forall (continuing (start + 10000)) pre ->
        (forall o, trySubmitToRunningOwner r = inl (Some o) ->
           fst (sendViaDetachedQueueOwner start script) = Returns o)
        /\ (forall e, trySubmitToRunningOwner r = inr e ->
              isQueueNotAcceptingError e = false ->
              fst (sendViaDetachedQueueOwner start script) = Raises e)
        /\ (stalled r -> start + 10000 <= now r ->
              exists e,
                fst (sendViaDetachedQueueOwner start script) = Raises (QueueErr e)
                /\ errorClass e = QueueConnectionError
                /\ detailCode e = Some "QUEUE_NOT_ACCEPTING_REQUESTS"%string
                /\ retryable e = Some true))
  /\ (Forall (continuing (start + 10000)) script ->
        fst (sendViaDetachedQueueOwner start script) = Pending).
Proof.
  unfold sendViaDetachedQueueOwner.
  change QUEUE_OWNER_STARTUP_TIMEOUT_MS with 10000.
  destruct (loop_log script (start + 10000) 0 [])
    as (added & Hlog & Hsp & Hdl & Hfrom & Hw & Hc).
  cbn [app] in Hlog. rewrite Hlog.
  repeat apply conj; try assumption.
  - intros r post -> Hu [Hlo Hhi]. cbn [loop] in Hlog. rewrite Hu in Hlog.
    assert (Hd : (now r >=? start + 10000) = false).
    { destruct (Z.geb_spec (now r) (start + 10000)); [lia | reflexivity]. }
    assert (Hb : (now r - 0 >=? QUEUE_OWNER_RESPAWN_BACKOFF_MS) = true).
    { change QUEUE_OWNER_RESPAWN_BACKOFF_MS with 250.
      destruct (Z.geb_spec (now r - 0) 250); [reflexivity | lia]. }
    rewrite Hd, Hb in Hlog.
    destruct (loop_log post (start + 10000) (now r)
                (([] ++ [S_trySubmit])
                 ++ [S_spawn (now r); S_wait QUEUE_CONNECT_RETRY_MS]))
      as (rest & Hrest & _).
    exists rest. rewrite <- Hlog, Hrest. reflexivity.
  - intros pre r post -> Hpre.
    destruct (loop_after_continuing pre (start + 10000) 0 [] (r :: post) Hpre)
      as (last' & log' & ->).
    cbn [loop]. repeat apply conj.
    + intros o ->. reflexivity.
    + intros e -> ->. reflexivity.
    + intros Hst Hdead.
      assert (Hd : (now r >=? start + 10000) = true).
      { destruct (Z.geb_spec (now r) (start + 10000)); [reflexivity | lia]. }
      destruct Hst as [-> | (e & -> & ->)]; cbn [negb]; rewrite Hd;
        eexists; repeat split; reflexivity.
  - intros Hall.
    destruct (loop_after_continuing script (start + 10000) 0 [] [] Hall)
      as (last' & log' & Heq).
    rewrite app_nil_r in Heq. rewrite Heq. reflexivity.
Qed.

(** The amended statement on a start where no owner runs at first and
    the detached owner then accepts the prompt, and on one where no owner
    ever comes up. *)
Lemma C5_spawn_or_attach_witness :
  let noOwner (t : Z) : Round :=
    {| ownerRecord := false; usableBefore := false; submitted := inl None;
       usableAfter := false; now := t |} in
  let accepted (t : Z) : Round :=
    {| ownerRecord := true; usableBefore := true;
       submitted := inl (Some (QueueSubmit.Queued "s" "r"));
       usableAfter := true; now := t |} in
  fst (sendViaDetachedQueueOwner 1000000
         ([noOwner 1000000; noOwner 1000060] ++ accepted 1000120 :: []))
  = Returns (QueueSubmit.Queued "s" "r")
  /\ (exists e,
         fst (sendViaDetachedQueueOwner 1000000
                ([noOwner 1000000] ++ noOwner 1010000 :: []))
         = Raises (QueueErr e)
         /\ detailCode e = Some "QUEUE_NOT_ACCEPTING_REQUESTS"%string).
Proof.
  cbn zeta. split.
  - match goal with |- fst (sendViaDetachedQueueOwner ?s (?pre ++ ?r :: ?post)) = _ =>
      destruct (C5_spawn_or_attach s (pre ++ r :: post))
        as (_ & _ & _ & _ & _ & _ & H & _);
      destruct (H pre r post eq_refl) as (Hret & _)
    end.
    + repeat constructor; cbn; lia.
    + apply Hret. reflexivity.
  - match goal with
    |- exists e, fst (sendViaDetachedQueueOwner ?s (?pre ++ ?r :: ?post)) = _ /\ _ =>
      destruct (C5_spawn_or_attach s (pre ++ r :: post))
        as (_ & _ & _ & _ & _ & _ & H & _);
      destruct (H pre r post eq_refl) as (_ & _ & Hdead)
    end.
    + repeat constructor; cbn; lia.
    + destruct Hdead as (e & He & _ & Hd & _).
      * left. reflexivity.
      * cbn. lia.
      * exists e. split; assumption.
Defined.

End SpawnClaim.

(* ------------------------------------------------------------------ *)
(** ** The output formatters and [onError]                             *)
(* ------------------------------------------------------------------ *)

Section FormatterClaim.
Import Output.
Local Open Scope string_scope.
Local Open Scope list_scope.



End FormatterClaim.

(* ================================================================== *)
(** * Part III. Further properties of the code                         *)
(* ================================================================== *)

(* ------------------------------------------------------------------ *)
(** ** The normalised TTL                                              *)
(* ------------------------------------------------------------------ *)

Section TtlRange.
Import Js Ttl.
Local Open Scope Q_scope.

(** Where the value of [normalizeQueueOwnerTtlMs] comes from: the
    negative zero it was given, the default, or the rounding of a
    non-negative number. *)
Lemma normalize_cases (ttlMs : option Number) :
  (ttlMs = Some NegZero /\ normalizeQueueOwnerTtlMs ttlMs = NegZero)
  \/ normalizeQueueOwnerTtlMs ttlMs = DEFAULT_QUEUE_OWNER_TTL_MS
  \/ exists q, 0 <= q /\ ttlMs = Some (Fin q)
                /\ normalizeQueueOwnerTtlMs ttlMs = ofZ (roundHalfUp q).
Proof.
  destruct ttlMs as [[| | | |q]|]; try (right; left; reflexivity).
  - left. split; reflexivity.
  - right. destruct (Qlt_le_dec q 0) as [Hneg | Hpos].
    + left. unfold normalizeQueueOwnerTtlMs. cbn [isFinite negb orb ltZero].
      apply Qltb_true in Hneg. rewrite Hneg. reflexivity.
    + right. exists q. repeat split; [exact Hpos | apply normalize_nonneg; exact Hpos].
Qed.

(** X1.  Whatever it is given, [normalizeQueueOwnerTtlMs] returns a zero
    or a non-negative integer: never NaN, never an infinity, never a
    negative or a fractional number of milliseconds. *)
Theorem ttl_normalized_is_natural (ttlMs : option Number) :
  normalizeQueueOwnerTtlMs ttlMs = NegZero
  \/ exists z : Z, (0 <= z)%Z /\ normalizeQueueOwnerTtlMs ttlMs = ofZ z.
Proof.
  destruct (normalize_cases ttlMs) as [[_ H] | [H | (q & Hq & _ & H)]].
  - left. exact H.
  - right. exists 300000%Z. split; [discriminate | exact H].
  - right. exists (roundHalfUp q).
    split; [apply roundHalfUp_nonneg; exact Hq | exact H].
Qed.

Lemma roundHalfUp_integer (z : Z) : roundHalfUp (inject_Z z) = z.
Proof.
  unfold roundHalfUp, Qfloor, Qplus, inject_Z. cbn.
  symmetry. apply Z.div_unique with (r := 1%Z); lia.
Qed.

(** X2.  Normalising twice is normalising once: the TTL that
    [sendViaDetachedQueueOwner] normalises and hands to the detached
    owner is left as it is by the owner's own normalisation. *)
Theorem ttl_normalization_idempotent (ttlMs : option Number) :
  normalizeQueueOwnerTtlMs (Some (normalizeQueueOwnerTtlMs ttlMs))
  = normalizeQueueOwnerTtlMs ttlMs.
Proof.
  assert (Hint : forall z : Z, (0 <= z)%Z ->
            normalizeQueueOwnerTtlMs (Some (ofZ z)) = ofZ z).
  { intros z Hz. unfold ofZ. rewrite normalize_nonneg.
    - rewrite roundHalfUp_integer. reflexivity.
    - change 0 with (inject_Z 0). rewrite <- Zle_Qle. exact Hz. }
  destruct (normalize_cases ttlMs) as [[_ ->] | [-> | (q & Hq & _ & ->)]].
  - reflexivity.
  - apply (Hint 300000%Z). discriminate.
  - apply Hint. apply roundHalfUp_nonneg. exact Hq.
Qed.

End TtlRange.

(* ------------------------------------------------------------------ *)
(** ** Prompt submission                                              *)
(* ------------------------------------------------------------------ *)

Section SubmitProperties.
Import Errors QueueSubmit.
Local Open Scope string_scope.
Local Open Scope nat_scope.
Local Open Scope list_scope.

(** X3.  Whatever the socket reports, [submitToQueueOwner] settles its
    promise at most once: the log holds one [resolve] or [reject] if the
    call is settled and none otherwise. *)
Theorem submit_settles_at_most_once (options : Options) (events : list SocketEvent) :
  settlements (trace (submitToQueueOwner options events))
  = (if settled (submitToQueueOwner options events) then 1 else 0)
  /\ settlements (trace (submitToQueueOwner options events)) <= 1.
Proof.
  pose proof (kept_settlements _ _ (submit_kept options events)) as H.
  split; [exact H|]. rewrite H.
  destruct (settled (submitToQueueOwner options events)); lia.
Qed.

(** X4.  Once the call is settled the socket is no longer listened to:
    whatever it reports afterwards changes neither the outcome nor what
    the formatter has received. *)
Theorem submit_ignores_events_after_settlement (options : Options)
    (pre post : list SocketEvent) :
  settled (submitToQueueOwner options pre) = true ->
  submitToQueueOwner options (pre ++ post) = submitToQueueOwner options pre.
Proof.
  intros Hs. unfold submitToQueueOwner in *. rewrite fold_left_app.
  pose proof (kept_deaf _ _ (submit_kept options pre) Hs) as Hdeaf.
  unfold submitToQueueOwner in Hdeaf.
  set (st := fold_left (step options) pre (start options)) in *.
  clearbody st. clear Hs.
  induction post as [|ev post IH]; [reflexivity|].
  cbn [fold_left]. unfold step at 2. rewrite Hdeaf. cbn [negb]. exact IH.
Qed.

Lemma submit_ignores_events_after_settlement_witness :
  let options : Options :=
    {| sessionId := "s"; requestId := "r"; waitForCompletion := false;
       queueErrorAlreadyEmitted := None |} in
  submitToQueueOwner options
    ([Data [Message "r" accepted]] ++ [Data [Message "r" (done "end_turn")]; Close])
  = submitToQueueOwner options [Data [Message "r" accepted]].
Proof.
  cbn zeta.
  apply (submit_ignores_events_after_settlement
           {| sessionId := "s"; requestId := "r"; waitForCompletion := false;
              queueErrorAlreadyEmitted := None |}).
  reflexivity.
Defined.

(** X5.  Nothing is streamed before the acknowledgement: as long as no
    [accepted] message has been received, no session update, client
    operation or [done] has reached the formatter, and the call has not
    resolved.  What the formatter has been given by then is the context
    and, if the owner has answered with an error, that error and a
    flush. *)
Theorem submit_nothing_before_accepted (options : Options)
    (events : list SocketEvent) :
  acknowledged (submitToQueueOwner options events) = false ->
  streamCalls (trace (submitToQueueOwner options events)) = 0
  /\ Forall (fun x => match x with
                      | Fmt (F_setContext _ _ _) | Fmt (F_onError _ _ _ _ _ _)
                      | Fmt F_flush => True
                      | Fmt _ => False
                      | _ => True
                      end)
       (trace (submitToQueueOwner options events))
  /\ forall out,
       settlement (trace (submitToQueueOwner options events)) <> Some (inl out).
Proof.
  intros Ha.
  destruct (kept_unacknowledged _ _ (submit_kept options events) Ha) as [Hs Hr].
  split; [exact Hs|]. split.
  - unfold streamCalls in Hs. apply length_zero_iff_nil in Hs.
    apply Forall_forall. intros x Hx.
    assert (Hno : isStreamCall x = false).
    { destruct (isStreamCall x) eqn:E; [|reflexivity].
      assert (Hin : In x (List.filter isStreamCall
                            (trace (submitToQueueOwner options events))))
        by (apply filter_In; split; assumption).
      rewrite Hs in Hin. destruct Hin. }
    destruct x as [[]| | | | | |]; try exact I; discriminate Hno.
  - intros out Hout. apply settlement_resolved in Hout. congruence.
Qed.

Lemma submit_nothing_before_accepted_witness :
  let options : Options :=
    {| sessionId := "s"; requestId := "r"; waitForCompletion := true;
       queueErrorAlreadyEmitted := None |} in
  let events := [Data [Message "r" (session_update "u"); Message "r" (done "end_turn")]] in
  acknowledged (submitToQueueOwner options events) = false
  /\ streamCalls (trace (submitToQueueOwner options events)) = 0.
Proof.
  cbn zeta. split; [reflexivity|].
  match goal with |- streamCalls (trace (submitToQueueOwner ?o ?ev)) = 0 =>
    destruct (submit_nothing_before_accepted o ev eq_refl) as [H _]; exact H
  end.
Defined.

(** X6.  A submission that does not wait for completion never resolves
    with a prompt result: if it resolves, it resolves with
    [{queued: true, sessionId, requestId}]. *)
Theorem submit_without_waiting_resolves_queued (options : Options)
    (events : list SocketEvent) (out : SessionSendOutcome) :
  waitForCompletion options = false ->
  settlement (trace (submitToQueueOwner options events)) = Some (inl out) ->
  out = Queued (sessionId options) (requestId options).
Proof.
  intros Hw Hout.
  exact (kept_queued _ _ (submit_kept options events) Hw out Hout).
Qed.

Lemma submit_without_waiting_resolves_queued_witness :
  let options : Options :=
    {| sessionId := "s"; requestId := "r"; waitForCompletion := false;
       queueErrorAlreadyEmitted := None |} in
  let answer : PromptResult := {| stopReason := "end_turn"; rest := "" |} in
  Queued "s" "r" = Queued (sessionId options) (requestId options).
Proof.
  cbn zeta.
  apply (submit_without_waiting_resolves_queued
           {| sessionId := "s"; requestId := "r"; waitForCompletion := false;
              queueErrorAlreadyEmitted := None |}
           [Data [Message "r" accepted;
                  Message "r" (result {| stopReason := "end_turn"; rest := "" |})]]
           (Queued "s" "r")); reflexivity.
Defined.

(** X7.  Every [QueueProtocolError] with which [submitToQueueOwner]
    rejects is retryable, has origin [queue], and carries one of the
    detail codes QUEUE_PROTOCOL_INVALID_JSON,
    QUEUE_PROTOCOL_MALFORMED_MESSAGE and
    QUEUE_PROTOCOL_UNEXPECTED_RESPONSE. *)
Theorem submit_protocol_errors_are_retryable (options : Options)
    (events : list SocketEvent) (e : QueueError) :
  settlement (trace (submitToQueueOwner options events)) = Some (inr (QueueErr e)) ->
  errorClass e = QueueProtocolError ->
  retryable e = Some true
  /\ origin e = Some "queue"
  /\ (detailCode e = Some "QUEUE_PROTOCOL_INVALID_JSON"
      \/ detailCode e = Some "QUEUE_PROTOCOL_MALFORMED_MESSAGE"
      \/ detailCode e = Some "QUEUE_PROTOCOL_UNEXPECTED_RESPONSE").
Proof.
  intros Hset Hclass.
  pose proof (kept_rejects _ _ (submit_kept options events)) as Hall.
  rewrite Forall_forall in Hall.
  specialize (Hall _ (settlement_rejected _ _ Hset)).
  exact (Hall Hclass).
Qed.

Lemma submit_protocol_errors_are_retryable_witness :
  let options : Options :=
    {| sessionId := "s"; requestId := "r"; waitForCompletion := true;
       queueErrorAlreadyEmitted := None |} in
  retryable (protocolError "Queue owner returned unexpected response"
               "QUEUE_PROTOCOL_UNEXPECTED_RESPONSE")
  = Some true.
Proof.
  cbn zeta.
  destruct (submit_protocol_errors_are_retryable
              {| sessionId := "s"; requestId := "r"; waitForCompletion := true;
                 queueErrorAlreadyEmitted := None |}
              [Data [Message "r" accepted; Message "r" (cancel_result true)]]
              (protocolError "Queue owner returned unexpected response"
                 "QUEUE_PROTOCOL_UNEXPECTED_RESPONSE")
              eq_refl eq_refl) as [H _].
  exact H.
Defined.

End SubmitProperties.

Section SubmitViolations.
Import Errors QueueSubmit.
Local Open Scope string_scope.
Local Open Scope list_scope.

(** When the first line of a chunk makes a pending call reject, that is
    how the call ends, whatever follows. *)
Lemma rejecting_line_settles (options : Options) (pre : list SocketEvent)
    (line : Line) (rest : list Line) (post : list SocketEvent) (e : Thrown) :
  settled (submitToQueueOwner options pre) = false ->
  processLine options line (submitToQueueOwner options pre)
  = finishReject false e (submitToQueueOwner options pre) ->
  settlement (trace (submitToQueueOwner options
                       (pre ++ Data (line :: rest) :: post)))
  = Some (inr e).
Proof.
  intros Hs Hline.
  destruct (submit_wellFormed options pre Hs) as [Hl Hn].
  unfold submitToQueueOwner in *. rewrite fold_left_app. cbn [fold_left].
  set (st := fold_left (step options) pre (start options)) in *.
  apply run_settlement_stable.
  unfold step. rewrite Hl. cbn [negb onData fold_left]. rewrite Hline.
  destruct (onData_appends options rest (finishReject false e st)) as (added & Ha).
  unfold onData in Ha. rewrite Ha, settlement_app.
  unfold finishReject. rewrite Hs. cbn [settle trace].
  rewrite settlement_app, Hn. reflexivity.
Qed.



End SubmitViolations.

(* ------------------------------------------------------------------ *)
(** ** Control requests                                                *)
(* ------------------------------------------------------------------ *)

Section ControlFacts.
Import Errors QueueControl.
Local Open Scope string_scope.
Local Open Scope list_scope.
Local Open Scope nat_scope.

Local Abbreviation Body := QueueSubmit.Body.
Local Abbreviation Line := QueueSubmit.Line.
Local Abbreviation SocketEvent := QueueSubmit.SocketEvent.

Variable requestId : string.
Variable isExpectedResponse : string -> Body -> bool.

Local Abbreviation sane := (Sane requestId isExpectedResponse).

Lemma ctl_settlement_app (l1 l2 : list Effect) :
  settlement (l1 ++ l2)
  = match settlement l1 with Some x => Some x | None => settlement l2 end.
Proof.
  induction l1 as [|e l1 IH]; cbn [app settlement]; [reflexivity|].
  destruct e; auto.
Qed.

Lemma ctl_settlements_app (l1 l2 : list Effect) :
  settlements (l1 ++ l2) = settlements l1 + settlements l2.
Proof.
  unfold settlements. rewrite filter_app, length_app. reflexivity.
Qed.

Lemma ctl_settlement_In (l : list Effect) (rid : string) (body : Body) :
  settlement l = Some (inl (rid, body)) -> In (Resolve rid body) l.
Proof.
  induction l as [|e l IH]; cbn [settlement]; [discriminate|].
  destruct e; intros H; try (right; apply IH; exact H).
  - injection H as -> ->. left; reflexivity.
  - discriminate.
Qed.

Lemma ctl_settlement_In_reject (l : list Effect) (e : Thrown) :
  settlement l = Some (inr e) -> In (Reject e) l.
Proof.
  induction l as [|x l IH]; cbn [settlement]; [discriminate|].
  destruct x; intros H; try (right; apply IH; exact H).
  - discriminate.
  - injection H as ->. left; reflexivity.
Qed.

Lemma start_sane : sane start.
Proof.
  constructor; cbn; try reflexivity; try discriminate.
  repeat constructor.
Qed.

Lemma setAcknowledged_sane (st : State) : sane st -> sane (setAcknowledged st).
Proof.
  intros [Hl Hc Hp Hs Ha He]. constructor; cbn; try assumption.
  discriminate.
Qed.

Lemma finishReject_sane (destroyed : bool) (e : Thrown) (st : State) :
  (forall what, e <> mismatched what) ->
  sane st -> sane (finishReject destroyed e st).
Proof.
  intros Hne Hsane. unfold finishReject.
  destruct (settled st) eqn:Es; [exact Hsane|].
  destruct Hsane as [Hl Hc Hp Hs Ha He]. rewrite Es in Hc.
  constructor; cbn [settle settled listening trace acknowledged negb].
  - reflexivity.
  - rewrite ctl_settlements_app, Hc. destruct destroyed; reflexivity.
  - discriminate.
  - intros _. rewrite ctl_settlement_app, (Hp Es).
    destruct destroyed; discriminate.
  - intros _ message. rewrite ctl_settlement_app, (Hp Es).
    destruct destroyed; discriminate.
  - apply Forall_app; split; [exact He|].
    destruct destroyed; repeat constructor; exact Hne.
Qed.

Lemma finishResolve_sane (destroyed : bool) (body : Body) (st : State) :
  acknowledged st = true ->
  isExpectedResponse requestId body = true ->
  sane st -> sane (finishResolve destroyed requestId body st).
Proof.
  intros Hack Hexp Hsane. unfold finishResolve.
  destruct (settled st) eqn:Es; [exact Hsane|].
  destruct Hsane as [Hl Hc Hp Hs Ha He]. rewrite Es in Hc.
  constructor; cbn [settle settled listening trace acknowledged negb].
  - reflexivity.
  - rewrite ctl_settlements_app, Hc. destruct destroyed; reflexivity.
  - discriminate.
  - intros _. rewrite ctl_settlement_app, (Hp Es).
    destruct destroyed; discriminate.
  - rewrite Hack. discriminate.
  - apply Forall_app; split; [exact He|].
    destruct destroyed; repeat constructor; assumption.
Qed.

(** None of the errors an exchange builds is the callers' mismatch error. *)
Lemma protocolError_not_mismatched (msg detail what : string) :
  detail <> "QUEUE_PROTOCOL_MALFORMED_MESSAGE"
  \/ msg = "Queue owner sent malformed message" ->
  QueueErr (protocolError msg detail) <> mismatched what.
Proof.
  intros [Hd | ->] H; unfold mismatched, protocolError in H.
  - injection H as _ Hdet. apply Hd. exact Hdet.
  - cbn in H. discriminate H.
Qed.

Lemma connectionError_not_mismatched (msg detail what : string) :
  QueueErr (connectionError msg detail) <> mismatched what.
Proof. discriminate. Qed.

Lemma ownerError_not_mismatched (m : QueueSubmit.ErrorMessage) (what : string) :
  QueueErr (ownerError m) <> mismatched what.
Proof. discriminate. Qed.

Lemma processLine_sane (line : Line) (st : State) :
  sane st -> sane (processLine requestId isExpectedResponse line st).
Proof.
  intros Hsane. destruct line as [| | rid body]; cbn [processLine].
  - apply finishReject_sane; [|exact Hsane].
    intros what. apply protocolError_not_mismatched. left; discriminate.
  - apply finishReject_sane; [|exact Hsane].
    intros what. apply protocolError_not_mismatched. right; reflexivity.
  - destruct (String.eqb rid requestId) eqn:Er; cbn [negb].
    2:{ apply finishReject_sane; [|exact Hsane].
        intros what. apply protocolError_not_mismatched. right; reflexivity. }
    apply String.eqb_eq in Er. subst rid.
    assert (Hother :
      sane (if negb (acknowledged st) then
              finishReject false
                (QueueErr (connectionError "Queue owner did not acknowledge request"
                             "QUEUE_ACK_MISSING")) st
            else if negb (isExpectedResponse requestId body) then
              finishReject false
                (QueueErr (protocolError "Queue owner returned unexpected response"
                             "QUEUE_PROTOCOL_UNEXPECTED_RESPONSE")) st
            else finishResolve false requestId body st)).
    { destruct (acknowledged st) eqn:Ea; cbn [negb].
      - destruct (isExpectedResponse requestId body) eqn:Ex; cbn [negb].
        + apply finishResolve_sane; assumption.
        + apply finishReject_sane; [|exact Hsane].
          intros what. apply protocolError_not_mismatched. left; discriminate.
      - apply finishReject_sane; [|exact Hsane].
        intros what. apply connectionError_not_mismatched. }
    destruct body; try exact Hother.
    + apply setAcknowledged_sane; exact Hsane.
    + apply finishReject_sane; [|exact Hsane].
      intros what. apply ownerError_not_mismatched.
Qed.

Lemma ctl_onData_sane (lines : list Line) (st : State) :
  sane st -> sane (onData requestId isExpectedResponse lines st).
Proof.
  revert st. induction lines as [|l lines IH]; intros st Hs; [exact Hs|].
  cbn [onData fold_left]. apply IH. apply processLine_sane; exact Hs.
Qed.

Lemma ctl_onClose_sane (st : State) : sane st -> sane (onClose st).
Proof.
  intros Hs. unfold onClose. destruct (settled st); [exact Hs|].
  destruct (acknowledged st); cbn [negb];
    (apply finishReject_sane; [|exact Hs]);
    intros what; apply connectionError_not_mismatched.
Qed.

Lemma ctl_step_sane (st : State) (ev : SocketEvent) :
  sane st -> sane (step requestId isExpectedResponse st ev).
Proof.
  intros Hs. unfold step. destruct (listening st); cbn [negb]; [|exact Hs].
  destruct ev.
  - apply ctl_onData_sane; exact Hs.
  - apply finishReject_sane; [|exact Hs]. discriminate.
  - apply ctl_onClose_sane; exact Hs.
Qed.

Lemma ctl_run_sane (events : list SocketEvent) (st : State) :
  sane st -> sane (fold_left (step requestId isExpectedResponse) events st).
Proof.
  revert st. induction events as [|ev events IH]; intros st Hs; [exact Hs|].
  cbn [fold_left]. apply IH. apply ctl_step_sane; exact Hs.
Qed.

Lemma exchange_sane (events : list SocketEvent) :
  sane (exchange requestId isExpectedResponse events).
Proof. apply ctl_run_sane. apply start_sane. Qed.

(** Once settled, the listeners are gone: nothing changes any more. *)
Lemma ctl_run_settled (events : list SocketEvent) (st : State) :
  sane st -> settled st = true ->
  fold_left (step requestId isExpectedResponse) events st = st.
Proof.
  intros Hs Hset. induction events as [|ev events IH]; [reflexivity|].
  cbn [fold_left]. unfold step at 2.
  rewrite (sane_listening _ _ _ Hs), Hset. cbn [negb]. exact IH.
Qed.

End ControlFacts.

Section ControlProperties.
Import Errors QueueControl.
Local Open Scope string_scope.
Local Open Scope list_scope.
Local Open Scope nat_scope.

Local Abbreviation Body := QueueSubmit.Body.
Local Abbreviation SocketEvent := QueueSubmit.SocketEvent.

(** What an exchange resolves with. *)
Lemma exchange_resolved (requestId : string)
    (isExpectedResponse : string -> Body -> bool) (events : list SocketEvent)
    (rid : string) (body : Body) :
  settlement (trace (exchange requestId isExpectedResponse events))
  = Some (inl (rid, body)) ->
  rid = requestId /\ isExpectedResponse requestId body = true
  /\ acknowledged (exchange requestId isExpectedResponse events) = true.
Proof.
  intros Eset.
  pose proof (exchange_sane requestId isExpectedResponse events) as Hs.
  pose proof (ctl_settlement_In _ _ _ Eset) as Hin.
  pose proof (sane_entries _ _ _ Hs) as He.
  rewrite Forall_forall in He. specialize (He _ Hin). cbn in He.
  destruct He as [-> Hexp]. repeat split; [exact Hexp|].
  destruct (acknowledged _) eqn:Ea; [reflexivity|].
  exfalso. exact (sane_ack _ _ _ Hs Ea _ Eset).
Qed.

Lemma ctl_value_facts (connection : Connection) (requestId : string)
    (isExpectedResponse : string -> Body -> bool) (rid : string) (body : Body) :
  submitControlToQueueOwner connection requestId isExpectedResponse
  = Value (rid, body) ->
  rid = requestId /\ isExpectedResponse requestId body = true.
Proof.
  unfold submitControlToQueueOwner.
  destruct connection as [events | | e]; try discriminate.
  destruct (settlement _) as [[[r b] | e] |] eqn:Eset; try discriminate.
  intros H. injection H as -> ->.
  destruct (exchange_resolved _ _ _ _ _ Eset) as (H1 & H2 & _). split; assumption.
Qed.

Lemma ctl_throws_facts (connection : Connection) (requestId : string)
    (isExpectedResponse : string -> Body -> bool) (e : Thrown) :
  submitControlToQueueOwner connection requestId isExpectedResponse = Throws e ->
  forall what, e <> mismatched what.
Proof.
  unfold submitControlToQueueOwner.
  destruct connection as [events | | err]; try discriminate.
  - pose proof (exchange_sane requestId isExpectedResponse events) as Hs.
    destruct (settlement _) as [[[r b] | e'] |] eqn:Eset; try discriminate.
    intros H. injection H as ->.
    pose proof (ctl_settlement_In_reject _ _ Eset) as Hin.
    pose proof (sane_entries _ _ _ Hs) as He.
    rewrite Forall_forall in He. exact (He _ Hin).
  - intros H. injection H as <-. discriminate.
Qed.

(** X9.  A control request resolves only with a message that carries the
    request's own id and that the type guard takes, read from a socket on
    which the owner had acknowledged the request before. *)
Theorem control_resolves_with_own_expected_response (connection : Connection)
    (requestId : string) (isExpectedResponse : string -> Body -> bool)
    (rid : string) (body : Body) :
  submitControlToQueueOwner connection requestId isExpectedResponse
  = Value (rid, body) ->
  rid = requestId /\ isExpectedResponse requestId body = true
  /\ exists events, connection = QueueConnect.Connected events
       /\ acknowledged (exchange requestId isExpectedResponse events) = true.
Proof.
  unfold submitControlToQueueOwner.
  destruct connection as [events | | e]; try discriminate.
  destruct (settlement _) as [[[r b] | e] |] eqn:Eset; try discriminate.
  intros H. injection H as -> ->.
  destruct (exchange_resolved _ _ _ _ _ Eset) as (Hid & Hexp & Hack).
  repeat split; [exact Hid | exact Hexp|].
  exists events. split; [reflexivity | exact Hack].
Qed.

Lemma control_resolves_with_own_expected_response_witness :
  let connection : Connection :=
    QueueConnect.Connected
      [QueueSubmit.Data [QueueSubmit.Message "r" QueueSubmit.accepted;
                         QueueSubmit.Message "r" (QueueSubmit.cancel_result false)]] in
  submitControlToQueueOwner connection "r" isCancelResult
  = Value ("r", QueueSubmit.cancel_result false)
  /\ ("r" = "r" /\ isCancelResult "r" (QueueSubmit.cancel_result false) = true
      /\ exists events, connection = QueueConnect.Connected events
           /\ acknowledged (exchange "r" isCancelResult events) = true).
Proof.
  cbn zeta. split; [reflexivity|].
  apply (control_resolves_with_own_expected_response _ "r" isCancelResult).
  reflexivity.
Defined.

(** X10.  The three callers of [submitControlToQueueOwner] compare the id
    of the response with the id of the request and throw when they
    differ.  That never happens: the exchange has rejected such a message
    already, and none of the errors it rejects with is that one. *)
Theorem control_mismatch_is_never_thrown (connection : Connection)
    (requestId what : string) :
  submitCancelToQueueOwner connection requestId <> Throws (mismatched what)
  /\ submitSetModeToQueueOwner connection requestId <> Throws (mismatched what)
  /\ submitSetConfigOptionToQueueOwner connection requestId
     <> Throws (mismatched what).
Proof.
  repeat apply conj.
  - unfold submitCancelToQueueOwner.
    destruct (submitControlToQueueOwner connection requestId isCancelResult)
      as [[rid body] | | e |] eqn:E; try discriminate.
    + destruct (ctl_value_facts _ _ _ _ _ E) as (-> & _).
      rewrite String.eqb_refl. cbn [negb]. destruct body; discriminate.
    + intros H. injection H as ->. exact (ctl_throws_facts _ _ _ _ E what eq_refl).
  - unfold submitSetModeToQueueOwner.
    destruct (submitControlToQueueOwner connection requestId isSetModeResult)
      as [[rid body] | | e |] eqn:E; try discriminate.
    + destruct (ctl_value_facts _ _ _ _ _ E) as (-> & _).
      rewrite String.eqb_refl. discriminate.
    + intros H. injection H as ->. exact (ctl_throws_facts _ _ _ _ E what eq_refl).
  - unfold submitSetConfigOptionToQueueOwner.
    destruct (submitControlToQueueOwner connection requestId isSetConfigOptionResult)
      as [[rid body] | | e |] eqn:E; try discriminate.
    + destruct (ctl_value_facts _ _ _ _ _ E) as (-> & _).
      rewrite String.eqb_refl. cbn [negb]. destruct body; discriminate.
    + intros H. injection H as ->. exact (ctl_throws_facts _ _ _ _ E what eq_refl).
Qed.

(** X11.  A control request settles once: after that the socket's events
    change neither the state nor the log, which holds one [resolve] or
    [reject]. *)
Theorem control_ignores_events_after_settlement (requestId : string)
    (isExpectedResponse : string -> Body -> bool) (pre post : list SocketEvent) :
  settled (exchange requestId isExpectedResponse pre) = true ->
  exchange requestId isExpectedResponse (pre ++ post)
  = exchange requestId isExpectedResponse pre
  /\ settlements (trace (exchange requestId isExpectedResponse (pre ++ post))) = 1.
Proof.
  intros Hset.
  assert (Heq : exchange requestId isExpectedResponse (pre ++ post)
                = exchange requestId isExpectedResponse pre).
  { unfold exchange. rewrite fold_left_app.
    apply ctl_run_settled; [apply exchange_sane | exact Hset]. }
  split; [exact Heq|]. rewrite Heq.
  rewrite (sane_count _ _ _ (exchange_sane requestId isExpectedResponse pre)), Hset.
  reflexivity.
Qed.

Lemma control_ignores_events_after_settlement_witness :
  settled (exchange "r" isSetModeResult [QueueSubmit.Close]) = true
  /\ exchange "r" isSetModeResult
       ([QueueSubmit.Close]
        ++ [QueueSubmit.Data [QueueSubmit.Message "r" QueueSubmit.set_mode_result]])
     = exchange "r" isSetModeResult [QueueSubmit.Close]
  /\ settlements
       (trace (exchange "r" isSetModeResult
                 ([QueueSubmit.Close]
                  ++ [QueueSubmit.Data
                        [QueueSubmit.Message "r" QueueSubmit.set_mode_result]]))) = 1.
Proof.
  split; [reflexivity|].
  apply (control_ignores_events_after_settlement "r" isSetModeResult).
  reflexivity.
Defined.

(** X12.  When the socket closes on a pending control request, the
    request rejects with QUEUE_DISCONNECTED_BEFORE_ACK if the owner had
    not acknowledged it and with QUEUE_DISCONNECTED_BEFORE_COMPLETION if
    it had; the socket, closed already, is not destroyed again. *)
Theorem control_close_rejects_pending (requestId : string)
    (isExpectedResponse : string -> Body -> bool) (pre post : list SocketEvent) :
  settled (exchange requestId isExpectedResponse pre) = false ->
  let before := exchange requestId isExpectedResponse pre in
  let error :=
    if acknowledged before
    then QueueErr (connectionError "Queue owner disconnected before responding"
                     "QUEUE_DISCONNECTED_BEFORE_COMPLETION")
    else QueueErr (connectionError
                     "Queue owner disconnected before acknowledging request"
                     "QUEUE_DISCONNECTED_BEFORE_ACK") in
  submitControlToQueueOwner
    (QueueConnect.Connected (pre ++ QueueSubmit.Close :: post))
    requestId isExpectedResponse
  = Throws error
  /\ trace (exchange requestId isExpectedResponse (pre ++ QueueSubmit.Close :: post))
     = trace before ++ [RemoveAllListeners; Reject error].
Proof.
  intros Hset before error.
  pose proof (exchange_sane requestId isExpectedResponse pre) as Hs.
  fold before in Hs, Hset.
  assert (Hstep : step requestId isExpectedResponse before QueueSubmit.Close
                  = settle [RemoveAllListeners; Reject error] before).
  { unfold step. rewrite (sane_listening _ _ _ Hs), Hset. cbn [negb].
    unfold onClose, finishReject, error. rewrite Hset.
    destruct (acknowledged before); reflexivity. }
  assert (Hrun : exchange requestId isExpectedResponse (pre ++ QueueSubmit.Close :: post)
                 = settle [RemoveAllListeners; Reject error] before).
  { unfold exchange. rewrite fold_left_app. cbn [fold_left].
    fold (exchange requestId isExpectedResponse pre). fold before.
    rewrite Hstep. apply ctl_run_settled; [|reflexivity].
    rewrite <- Hstep. apply ctl_step_sane. exact Hs. }
  split.
  - unfold submitControlToQueueOwner. rewrite Hrun. cbn [settle trace].
    rewrite ctl_settlement_app, (sane_pending _ _ _ Hs Hset). reflexivity.
  - rewrite Hrun. reflexivity.
Qed.

Lemma control_close_rejects_pending_witness :
  let pre := [QueueSubmit.Data [QueueSubmit.Message "r" QueueSubmit.accepted]] in
  settled (exchange "r" isCancelResult pre) = false
  /\ submitControlToQueueOwner
       (QueueConnect.Connected (pre ++ QueueSubmit.Close :: []))
       "r" isCancelResult
     = Throws (QueueErr (connectionError "Queue owner disconnected before responding"
                           "QUEUE_DISCONNECTED_BEFORE_COMPLETION")).
Proof.
  cbn zeta. split; [reflexivity|].
  exact (proj1 (control_close_rejects_pending "r" isCancelResult
                  [QueueSubmit.Data [QueueSubmit.Message "r" QueueSubmit.accepted]]
                  [] eq_refl)).
Defined.

End ControlProperties.

Section RunningOwnerProperties.
Import Errors QueueControl.
Local Open Scope string_scope.
Local Open Scope list_scope.
Local Open Scope nat_scope.

Local Abbreviation Body := QueueSubmit.Body.
Local Abbreviation Line := QueueSubmit.Line.
Local Abbreviation SocketEvent := QueueSubmit.SocketEvent.

(** The rest of a chunk is still read after the request has settled, but
    it reaches neither the log nor the promise. *)
Lemma ctl_onData_after_settled (requestId : string)
    (isExpectedResponse : string -> Body -> bool) (lines : list Line) (st : State) :
  settled st = true ->
  settled (onData requestId isExpectedResponse lines st) = true
  /\ trace (onData requestId isExpectedResponse lines st) = trace st.
Proof.
  revert st. induction lines as [|l lines IH]; intros st Hs; [split; [exact Hs | reflexivity]|].
  cbn [onData fold_left].
  assert (H : settled (processLine requestId isExpectedResponse l st) = true
              /\ trace (processLine requestId isExpectedResponse l st) = trace st).
  { destruct l as [| | rid body]; cbn [processLine];
      unfold finishReject, finishResolve; rewrite ?Hs; auto.
    destruct (negb (String.eqb rid requestId)); rewrite ?Hs; auto.
    destruct body; cbn; rewrite ?Hs; auto;
      destruct (negb (acknowledged st)); rewrite ?Hs; auto;
      destruct (negb (isExpectedResponse rid _)); rewrite ?Hs; auto. }
  destruct H as [H1 H2].
  destruct (IH _ H1) as [H3 H4]. split; [exact H3|].
  unfold onData in H4. rewrite H4. exact H2.
Qed.

(** An expected response to a pending, acknowledged request resolves it. *)
Lemma ctl_response_resolves (requestId : string)
    (isExpectedResponse : string -> Body -> bool) (pre : list SocketEvent)
    (body : Body) (rest : list Line) (post : list SocketEvent) :
  settled (exchange requestId isExpectedResponse pre) = false ->
  acknowledged (exchange requestId isExpectedResponse pre) = true ->
  isExpectedResponse requestId body = true ->
  body <> QueueSubmit.accepted -> (forall m, body <> QueueSubmit.error m) ->
  submitControlToQueueOwner
    (QueueConnect.Connected
       (pre ++ QueueSubmit.Data (QueueSubmit.Message requestId body :: rest) :: post))
    requestId isExpectedResponse
  = Value (requestId, body).
Proof.
  intros Hset Hack Hexp Hna Hne.
  pose proof (exchange_sane requestId isExpectedResponse pre) as Hs.
  unfold submitControlToQueueOwner, exchange in *.
  rewrite fold_left_app. cbn [fold_left].
  set (st := fold_left (step requestId isExpectedResponse) pre
               (start)) in *.
  assert (Hline : processLine requestId isExpectedResponse
                    (QueueSubmit.Message requestId body) st
                  = settle [RemoveAllListeners; SocketEnd; Resolve requestId body] st).
  { cbn [processLine]. rewrite String.eqb_refl, Hack, Hexp. cbn [negb].
    unfold finishResolve. rewrite Hset.
    destruct body; try reflexivity; [contradiction | exfalso; eapply Hne; reflexivity]. }
  assert (Hsane1 : Sane requestId isExpectedResponse
                     (step requestId isExpectedResponse st
                        (QueueSubmit.Data (QueueSubmit.Message requestId body :: rest))))
    by (apply ctl_step_sane; exact Hs).
  assert (Hstep : settled (step requestId isExpectedResponse st
                             (QueueSubmit.Data (QueueSubmit.Message requestId body :: rest)))
                  = true
                  /\ trace (step requestId isExpectedResponse st
                              (QueueSubmit.Data (QueueSubmit.Message requestId body :: rest)))
                     = trace st ++ [RemoveAllListeners; SocketEnd; Resolve requestId body]).
  { unfold step. rewrite (sane_listening _ _ _ Hs), Hset. cbn [negb onData fold_left].
    rewrite Hline.
    apply (ctl_onData_after_settled requestId isExpectedResponse rest
             (settle [RemoveAllListeners; SocketEnd; Resolve requestId body] st)).
    reflexivity. }
  destruct Hstep as [Hset1 Htr1].
  rewrite (ctl_run_settled requestId isExpectedResponse post _ Hsane1 Hset1).
  rewrite Htr1, ctl_settlement_app, (sane_pending _ _ _ Hs Hset). reflexivity.
Qed.



Lemma submitCancel_undefined (c : Connection) (requestId : string) :
  submitCancelToQueueOwner c requestId = Undefined <-> c = QueueConnect.NoOwner.
Proof.
  unfold submitCancelToQueueOwner. split.
  - destruct (submitControlToQueueOwner c requestId isCancelResult)
      as [[rid body] | | e |] eqn:E; try discriminate.
    + destruct (ctl_value_facts _ _ _ _ _ E) as (-> & Hexp).
      rewrite String.eqb_refl. cbn [negb]. destruct body; discriminate.
    + intros _. unfold submitControlToQueueOwner in E.
      destruct c; [|reflexivity|discriminate].
      destruct (settlement _) as [[|]|]; discriminate.
  - intros ->. reflexivity.
Qed.

Lemma submitSetMode_undefined (c : Connection) (requestId : string) :
  submitSetModeToQueueOwner c requestId = Undefined <-> c = QueueConnect.NoOwner.
Proof.
  unfold submitSetModeToQueueOwner. split.
  - destruct (submitControlToQueueOwner c requestId isSetModeResult)
      as [[rid body] | | e |] eqn:E; try discriminate.
    + destruct (negb _); discriminate.
    + intros _. unfold submitControlToQueueOwner in E.
      destruct c; [|reflexivity|discriminate].
      destruct (settlement _) as [[|]|]; discriminate.
  - intros ->. reflexivity.
Qed.

Lemma submitSetMode_true (c : Connection) (requestId : string) (b : bool) :
  submitSetModeToQueueOwner c requestId = Value b -> b = true.
Proof.
  unfold submitSetModeToQueueOwner.
  destruct (submitControlToQueueOwner c requestId isSetModeResult)
    as [[rid body] | | e |]; try discriminate.
  destruct (negb _); [discriminate|]. intros H. injection H as <-. reflexivity.
Qed.

Lemma submitSetConfigOption_undefined (c : Connection) (requestId : string) :
  submitSetConfigOptionToQueueOwner c requestId = Undefined
  <-> c = QueueConnect.NoOwner.
Proof.
  unfold submitSetConfigOptionToQueueOwner. split.
  - destruct (submitControlToQueueOwner c requestId isSetConfigOptionResult)
      as [[rid body] | | e |] eqn:E; try discriminate.
    + destruct (ctl_value_facts _ _ _ _ _ E) as (-> & Hexp).
      rewrite String.eqb_refl. cbn [negb]. destruct body; discriminate.
    + intros _. unfold submitControlToQueueOwner in E.
      destruct c; [|reflexivity|discriminate].
      destruct (settlement _) as [[|]|]; discriminate.
  - intros ->. reflexivity.
Qed.

Lemma tryOnRunningOwner_undefined {A : Type} (o : Owner) (submit : Result A)
    (present : A -> bool) (what : string) :
  (forall a, submit = Value a -> present a = true) ->
  (submit = Undefined <-> connection o = QueueConnect.NoOwner) ->
  tryOnRunningOwner o submit present what = Undefined
  <-> ownerRecord o = false \/ usableBefore o = false
      \/ (connection o = QueueConnect.NoOwner /\ usableAfter o = false).
Proof.
  intros Hpres Hund. unfold tryOnRunningOwner.
  destruct (ownerRecord o); cbn [negb]; [|split; auto].
  destruct (usableBefore o); cbn [negb]; [|split; auto].
  destruct submit as [a | | e |].
  - rewrite (Hpres a eq_refl). split; [discriminate|].
    intros [H | [H | [H _]]]; try discriminate.
    apply Hund in H. discriminate.
  - destruct (usableAfter o); cbn [negb]; split; try discriminate.
    + intros [H | [H | [_ H]]]; discriminate.
    + intros _. right; right. split; [apply Hund|]; reflexivity.
    + reflexivity.
  - split; [discriminate|].
    intros [H | [H | [H _]]]; try discriminate.
    apply Hund in H. discriminate.
  - split; [discriminate|].
    intros [H | [H | [H _]]]; try discriminate.
    apply Hund in H. discriminate.
Qed.

(** X14.  The three [try...OnRunningOwner] functions return [undefined],
    which their callers read as: no owner is running, in one and the same
    set of cases: there is no owner record, or the owner was not usable
    before the request, or no socket could be opened and the owner was
    not usable after it.  An answer of the owner never gives [undefined],
    and [trySetModeOnRunningOwner] never returns [false]. *)
Theorem running_owner_reports_no_owner_iff (o : Owner) (requestId : string) :
  let noOwner :=
    ownerRecord o = false \/ usableBefore o = false
    \/ (connection o = QueueConnect.NoOwner /\ usableAfter o = false) in
  (tryCancelOnRunningOwner o requestId = Undefined <-> noOwner)
  /\ (trySetModeOnRunningOwner o requestId = Undefined <-> noOwner)
  /\ (trySetConfigOptionOnRunningOwner o requestId = Undefined <-> noOwner)
  /\ trySetModeOnRunningOwner o requestId <> Value false.
Proof.
  cbn zeta. split; [|split; [|split]].
  - apply tryOnRunningOwner_undefined; [reflexivity | apply submitCancel_undefined].
  - apply tryOnRunningOwner_undefined;
      [intros a; apply submitSetMode_true | apply submitSetMode_undefined].
  - apply tryOnRunningOwner_undefined;
      [reflexivity | apply submitSetConfigOption_undefined].
  - unfold trySetModeOnRunningOwner, tryOnRunningOwner.
    destruct (negb (ownerRecord o)); [discriminate|].
    destruct (negb (usableBefore o)); [discriminate|].
    destruct (submitSetModeToQueueOwner (connection o) requestId) as [a | | e |] eqn:E;
      try discriminate.
    + apply submitSetMode_true in E. subst a. discriminate.
    + destruct (negb (usableAfter o)); discriminate.
Qed.

End RunningOwnerProperties.

(* ------------------------------------------------------------------ *)
(** ** Starting a detached owner                                       *)
(* ------------------------------------------------------------------ *)

Section SpawnMore.
Import Errors Spawn.
Local Open Scope Z_scope.
Local Open Scope list_scope.

(** Moments that are a backoff apart and all before [deadline] are few. *)
Lemma spaced_length (deadline : Z) (ts : list Z) : forall last,
  spaced last ts -> Forall (fun t => t < deadline) ts -> last < deadline ->
  QUEUE_OWNER_RESPAWN_BACKOFF_MS * Z.of_nat (List.length ts) <= deadline - 1 - last.
Proof.
  unfold QUEUE_OWNER_RESPAWN_BACKOFF_MS.
  induction ts as [|t ts IH]; intros last Hsp Hdl Hlast.
  - cbn. lia.
  - destruct Hsp as [Hgap Hsp]. inversion Hdl as [|? ? Ht Hdl']; subst.
    specialize (IH t Hsp Hdl' Ht).
    unfold QUEUE_OWNER_RESPAWN_BACKOFF_MS in Hgap.
    cbn [List.length]. lia.
Qed.

(** The first spawn of a call may follow any earlier moment that is a
    backoff before it. *)
Lemma spaced_from (last last' : Z) (ts : list Z) :
  spaced last ts ->
  Forall (fun t => last' + QUEUE_OWNER_RESPAWN_BACKOFF_MS <= t) ts ->
  spaced last' ts.
Proof.
  destruct ts as [|t ts]; [intros; exact I|].
  intros [_ Hsp] Hall. inversion Hall; subst. split; assumption.
Qed.

(** How a call ends, read off the rounds. *)
Lemma loop_outcome (script : list Round) : forall deadline last log,
  match fst (loop deadline last script log) with
  | Returns o => exists r, In r script /\ trySubmitToRunningOwner r = inl (Some o)
  | Raises e =>
      (exists r, In r script /\ trySubmitToRunningOwner r = inr e
                 /\ isQueueNotAcceptingError e = false)
      \/ ((e = QueueErr timedOutAccepting \/ e = QueueErr timedOutStarting)
          /\ exists r, In r script /\ deadline <= now r)
  | Pending => True
  end.
Proof.
  induction script as [|r script IH]; intros deadline last log; [exact I|].
  assert (Hext : forall last' log',
    match fst (loop deadline last' script log') with
    | Returns o =>
        exists r0, In r0 (r :: script) /\ trySubmitToRunningOwner r0 = inl (Some o)
    | Raises e =>
        (exists r0, In r0 (r :: script) /\ trySubmitToRunningOwner r0 = inr e
                    /\ isQueueNotAcceptingError e = false)
        \/ ((e = QueueErr timedOutAccepting \/ e = QueueErr timedOutStarting)
            /\ exists r0, In r0 (r :: script) /\ deadline <= now r0)
    | Pending => True
    end).
  { intros last' log'. specialize (IH deadline last' log').
    destruct (fst (loop deadline last' script log')) as [o | e |].
    - destruct IH as (r0 & Hin & H). exists r0. split; [right; exact Hin | exact H].
    - destruct IH as [(r0 & Hin & H) | [He (r0 & Hin & H)]].
      + left. exists r0. split; [right; exact Hin | exact H].
      + right. split; [exact He|]. exists r0. split; [right; exact Hin | exact H].
    - exact I. }
  cbn [loop].
  destruct (trySubmitToRunningOwner r) as [[o|]|e] eqn:Htry.
  - cbn. exists r. split; [left; reflexivity | exact Htry].
  - destruct (Z.geb_spec (now r) deadline) as [Hge | Hlt].
    + cbn. right. split; [right; reflexivity|].
      exists r. split; [left; reflexivity | lia].
    + destruct (now r - last >=? QUEUE_OWNER_RESPAWN_BACKOFF_MS); apply Hext.
  - destruct (isQueueNotAcceptingError e) eqn:Hq; cbn [negb].
    + destruct (Z.geb_spec (now r) deadline) as [Hge | Hlt].
      * cbn. right. split; [left; reflexivity|].
        exists r. split; [left; reflexivity | lia].
      * apply Hext.
    + cbn. left. exists r. split; [left; reflexivity|]. split; [exact Htry | exact Hq].
Qed.

End SpawnMore.

Section SpawnProperties.
Import Errors Spawn.
Local Open Scope Z_scope.
Local Open Scope list_scope.

(** X15.  With a clock that never reads less than at the start of the
    call, one call of [sendViaDetachedQueueOwner] starts at most 40
    detached owners: the spawns are 250 ms apart and all before the
    deadline of 10 s. *)
Theorem send_spawns_at_most_40 (start : Z) (script : list Round) :
  Forall (fun r => start <= now r) script ->
  (List.length (spawnTimes (snd (sendViaDetachedQueueOwner start script))) <= 40)%nat.
Proof.
  intros Hclock. unfold sendViaDetachedQueueOwner.
  destruct (loop_log script (start + QUEUE_OWNER_STARTUP_TIMEOUT_MS) 0 [])
    as (added & Hlog & Hsp & Hdl & Hfrom & _).
  rewrite Hlog. cbn [app].
  assert (Hlo : Forall (fun t => (start - QUEUE_OWNER_RESPAWN_BACKOFF_MS)
                                 + QUEUE_OWNER_RESPAWN_BACKOFF_MS <= t)
                  (spawnTimes added)).
  { apply Forall_forall. intros t Hin.
    destruct (Hfrom t Hin) as (r & Hr & _ & <-).
    rewrite Forall_forall in Hclock. specialize (Hclock r Hr). lia. }
  pose proof (spaced_length _ _ _ (spaced_from _ _ _ Hsp Hlo) Hdl) as Hlen.
  unfold QUEUE_OWNER_RESPAWN_BACKOFF_MS, QUEUE_OWNER_STARTUP_TIMEOUT_MS in Hlen.
  lia.
Qed.

Lemma send_spawns_at_most_40_witness :
  let silent (t : Z) : Round :=
    {| ownerRecord := false; usableBefore := false; submitted := inl None;
       usableAfter := false; now := t |} in
  let script := [silent 1000; silent 1050; silent 1250] in
  Forall (fun r => 1000 <= now r) script
  /\ (List.length (spawnTimes (snd (sendViaDetachedQueueOwner 1000%Z script)))
      <= 40)%nat.
Proof.
  cbn zeta. split.
  - repeat constructor; cbn; lia.
  - apply send_spawns_at_most_40. repeat constructor; cbn; lia.
Defined.

(** X16.  An error of [sendViaDetachedQueueOwner] that says the owner is
    not accepting requests always means that the deadline has passed: it
    is one of the two timeouts, and some reading of the clock was at least
    10 s after the start.  Before that, such an error of an attempt is
    swallowed and the attempt repeated, after the wait of 50 ms. *)
Theorem send_not_accepting_means_deadline (start : Z) (script : list Round)
    (e : Thrown) :
  fst (sendViaDetachedQueueOwner start script) = Raises e ->
  isQueueNotAcceptingError e = true ->
  (e = QueueErr timedOutAccepting \/ e = QueueErr timedOutStarting)
  /\ (exists r, In r script /\ start + QUEUE_OWNER_STARTUP_TIMEOUT_MS <= now r)
  /\ (forall (r : Round) (rest : list Round) (e' : Thrown)
        (lastSpawnAttemptAt : Z) (log : list Effect),
        trySubmitToRunningOwner r = inr e' ->
        isQueueNotAcceptingError e' = true ->
        now r < start + QUEUE_OWNER_STARTUP_TIMEOUT_MS ->
        loop (start + QUEUE_OWNER_STARTUP_TIMEOUT_MS) lastSpawnAttemptAt
          (r :: rest) log
        = loop (start + QUEUE_OWNER_STARTUP_TIMEOUT_MS) lastSpawnAttemptAt rest
            (log ++ [S_trySubmit; S_wait QUEUE_CONNECT_RETRY_MS])).
Proof.
  unfold sendViaDetachedQueueOwner. intros Hout Hq.
  pose proof (loop_outcome script (start + QUEUE_OWNER_STARTUP_TIMEOUT_MS) 0 []) as H.
  rewrite Hout in H.
  destruct H as [(r & _ & _ & Hn) | [H1 H2]]; [congruence|].
  split; [exact H1|]. split; [exact H2|].
  intros r rest e' lastSpawnAttemptAt log Htry Hq' Hnow.
  cbn [loop]. rewrite Htry, Hq'. cbn [negb].
  destruct (Z.geb_spec (now r) (start + QUEUE_OWNER_STARTUP_TIMEOUT_MS)); [lia|].
  rewrite <- app_assoc. reflexivity.
Qed.

Lemma send_not_accepting_means_deadline_witness :
  let busy (t : Z) : Round :=
    {| ownerRecord := true; usableBefore := true; submitted := inl None;
       usableAfter := true; now := t |} in
  fst (sendViaDetachedQueueOwner 0 [busy 9999; busy 10000])
  = Raises (QueueErr timedOutAccepting)
  /\ exists r, In r [busy 9999; busy 10000]
               /\ 0 + QUEUE_OWNER_STARTUP_TIMEOUT_MS <= now r.
Proof.
  cbn zeta. split; [reflexivity|].
  refine (proj1 (proj2 (send_not_accepting_means_deadline 0 _
                          (QueueErr timedOutAccepting) _ _))); reflexivity.
Defined.

(** X17.  The first attempt that does not stall decides the call: its
    outcome is returned and its error thrown, whatever the clock reads by
    then.  The deadline is tested only after an attempt that stalled, so
    an answer that arrives late is still returned. *)
Theorem send_first_answer_decides (start : Z) (pre : list Round) (r : Round)
    (post : list Round) :
  Forall (continuing (start + QUEUE_OWNER_STARTUP_TIMEOUT_MS)) pre ->
  ~ stalled r ->
  fst (sendViaDetachedQueueOwner start (pre ++ r :: post))
  = match trySubmitToRunningOwner r with
    | inl (Some o) => Returns o
    | inl None => Pending
    | inr e => Raises e
    end.
Proof.
  intros Hpre Hns. unfold sendViaDetachedQueueOwner.
  destruct (loop_after_continuing pre _ 0 [] (r :: post) Hpre) as (last' & log' & ->).
  cbn [loop]. unfold stalled in Hns.
  destruct (trySubmitToRunningOwner r) as [[o|]|e] eqn:Htry.
  - reflexivity.
  - exfalso. apply Hns. left; reflexivity.
  - destruct (isQueueNotAcceptingError e) eqn:Hq; cbn [negb]; [|reflexivity].
    exfalso. apply Hns. right. exists e. split; [reflexivity | exact Hq].
Qed.

Lemma send_first_answer_decides_witness :
  let silent : Round :=
    {| ownerRecord := false; usableBefore := false; submitted := inl None;
       usableAfter := false; now := 5 |} in
  let late : Round :=
    {| ownerRecord := true; usableBefore := true;
       submitted := inl (Some (QueueSubmit.Queued "s" "r"));
       usableAfter := true; now := 20000 |} in
  fst (sendViaDetachedQueueOwner 0 ([silent] ++ late :: []))
  = Returns (QueueSubmit.Queued "s" "r").
Proof.
  cbn zeta.
  apply (send_first_answer_decides 0
           [{| ownerRecord := false; usableBefore := false; submitted := inl None;
               usableAfter := false; now := 5 |}]).
  - repeat constructor.
  - intros [H | (e & H & _)]; discriminate H.
Defined.

End SpawnProperties.

(* ------------------------------------------------------------------ *)
(** ** The owner process                                               *)
(* ------------------------------------------------------------------ *)

Section OwnerProcessFacts.
Import Trace OwnerRuntime.
Implicit Types (w : World).
Local Open Scope nat_scope.
Local Open Scope list_scope.

(** What is read off a log: the main function's own effects outside the
    turns, the tasks that succeeded, the tasks run, the calls of
    [nextTask], and the wait of these calls. *)
Local Abbreviation digest wait l p s o n :=
  (List.filter isProcessEffect l = p
   /\ countOf isTaskSuccess l = s
   /\ countOf isTaskOutcome l = o
   /\ countOf isNextTask l = n
   /\ waitsAre wait l).

Lemma countOf_app (f : Effect -> bool) (l1 l2 : list Effect) :
  countOf f (l1 ++ l2) = countOf f l1 + countOf f l2.
Proof. unfold countOf. rewrite filter_app, length_app. reflexivity. Qed.

Lemma digest_app (wait : option Js.Number) (l1 l2 p1 p2 p : list Effect)
    (s1 s2 s o1 o2 o n1 n2 n : nat) :
  digest wait l1 p1 s1 o1 n1 -> digest wait l2 p2 s2 o2 n2 ->
  p = p1 ++ p2 -> s = s1 + s2 -> o = o1 + o2 -> n = n1 + n2 ->
  digest wait (l1 ++ l2) p s o n.
Proof.
  intros (Hp1 & Hs1 & Ho1 & Hn1 & Hw1) (Hp2 & Hs2 & Ho2 & Hn2 & Hw2) -> -> -> ->.
  rewrite filter_app, !countOf_app, Hp1, Hp2, Hs1, Hs2, Ho1, Ho2, Hn1, Hn2.
  repeat split. unfold waitsAre. rewrite Forall_app. split; assumption.
Qed.

(** What happens inside a turn is none of the main function's own
    effects. *)
Lemma filter_insideTurn (f : Effect -> bool) (l : list Effect) :
  (forall e, insideTurn e -> f e = false) ->
  Forall insideTurn l -> List.filter f l = [].
Proof.
  intros Hf. induction 1 as [|e l He _ IH]; [reflexivity|].
  cbn [List.filter]. rewrite (Hf e He). exact IH.
Qed.

Lemma insideTurn_not_process (e : Effect) : insideTurn e -> isProcessEffect e = false.
Proof. destruct e; cbn; intros []; reflexivity. Qed.

Lemma insideTurn_not_outcome (e : Effect) : insideTurn e -> isTaskOutcome e = false.
Proof. destruct e; cbn; intros []; reflexivity. Qed.

Lemma insideTurn_not_success (e : Effect) : insideTurn e -> isTaskSuccess e = false.
Proof. destruct e; cbn; intros []; reflexivity. Qed.

Lemma insideTurn_not_nextTask (e : Effect) : insideTurn e -> isNextTask e = false.
Proof. destruct e; cbn; intros []; reflexivity. Qed.

Lemma insideTurn_waits (wait : option Js.Number) (l : list Effect) :
  Forall insideTurn l -> waitsAre wait l.
Proof.
  unfold waitsAre. apply Forall_impl.
  intros e He. destruct e; try exact I; destruct He.
Qed.

Lemma digest_inside (wait : option Js.Number) (l : list Effect) :
  Forall insideTurn l -> digest wait l [] 0 0 0.
Proof.
  intros H. unfold countOf.
  rewrite (filter_insideTurn _ _ insideTurn_not_process H),
    (filter_insideTurn _ _ insideTurn_not_outcome H),
    (filter_insideTurn _ _ insideTurn_not_success H),
    (filter_insideTurn _ _ insideTurn_not_nextTask H).
  repeat split. apply insideTurn_waits. exact H.
Qed.

Lemma digest_outside (wait : option Js.Number) (l : list Effect) :
  Forall outsideEffect l -> digest wait l [] 0 0 0.
Proof.
  intros H. apply digest_inside.
  eapply Forall_impl; [|exact H]. apply outsideEffect_insideTurn.
Qed.

(** One turn. *)
Lemma digest_turn (wait : option Js.Number) (inner : list Effect) (failed : bool) :
  Forall insideTurn inner ->
  digest wait ([E_beginTurn] ++ inner ++ [E_taskOutcome failed; E_endTurn])
    [] (if failed then 0 else 1) 1 0.
Proof.
  intros H. destruct (digest_inside wait inner H) as (Hp & Hs & Ho & Hn & Hw).
  unfold countOf in *.
  rewrite !filter_app, !length_app, Hp.
  apply length_zero_iff_nil in Hs, Ho, Hn. rewrite Hs, Ho, Hn.
  destruct failed; cbn; repeat split;
    (unfold waitsAre; cbn [app]; constructor; [exact I|];
     rewrite Forall_app; split; [exact Hw | repeat constructor]).
Qed.

(** What the loop adds to the log, from a pending [nextTask] on, in a
    process whose server has started. *)
Lemma awaitNextTask_log (ttl : Js.Number) (verbose : bool)
    (script : list NextTask) : forall w,
  owner w = true ->
  exists added,
    log (snd (awaitNextTask ttl verbose script w)) = log w ++ added
    /\ digest (Ttl.idleWaitMs ttl) added
         (repeat E_heartbeat (successes script)
          ++ match leaves script with
             | NoTask => if Js.gtZero ttl && verbose then [E_ttlExpiredNotice] else []
             | _ => []
             end)
         (successes script)
         (successes script + match leaves script with TaskThrew => 1 | _ => 0 end)
         (successes script)
    /\ owner (snd (awaitNextTask ttl verbose script w)) = true
    /\ heartbeatTimer (snd (awaitNextTask ttl verbose script w)) = heartbeatTimer w.
Proof.
  unfold successes.
  induction script as [|[[task|]| |o] rest IH]; intros w Ho;
    cbn [awaitNextTask taken leaves].
  - exists []. rewrite app_nil_r. cbn.
    repeat apply conj; try reflexivity; [constructor | exact Ho].
  - destruct (runPromptTurn_log task w) as (Hfst & Ho1 & Ht1 & inner & Hl & Hall).
    destruct (runPromptTurn (runQueuedTask task) w) as [threw w1].
    cbn [fst snd] in Hfst, Ho1, Ht1, Hl. subst threw. cbn zeta.
    pose proof (digest_turn (Ttl.idleWaitMs ttl) inner (failed task) Hall) as Dturn.
    destruct (outsideAll_keeps (afterTurn task) w1) as (_ & Ho2 & Ht2).
    destruct (outsideAll_log (afterTurn task) w1) as (l2 & Hl2 & Hall2).
    pose proof (digest_outside (Ttl.idleWaitMs ttl) l2 Hall2) as D2.
    set (w2 := outsideAll (afterTurn task) w1) in *.
    destruct (failed task) eqn:Ef; cbn [List.filter]; rewrite Ef; cbn [negb].
    + exists (([E_beginTurn] ++ inner ++ [E_taskOutcome true; E_endTurn]) ++ l2).
      cbn [fst snd].
      split; [rewrite Hl2, Hl, <- !app_assoc; reflexivity|].
      split; [|split; congruence].
      eapply digest_app; [exact Dturn | exact D2 | reflexivity..].
    + assert (Hr : refreshHeartbeat w2 = emit E_heartbeat w2).
      { unfold refreshHeartbeat. rewrite Ho2, Ho1, Ho. reflexivity. }
      rewrite Hr.
      destruct (outsideAll_keeps (duringRefresh task) (emit E_heartbeat w2))
        as (_ & Ho3 & Ht3).
      destruct (outsideAll_log (duringRefresh task) (emit E_heartbeat w2))
        as (l3 & Hl3 & Hall3).
      pose proof (digest_outside (Ttl.idleWaitMs ttl) l3 Hall3) as D3.
      set (w3 := outsideAll (duringRefresh task) (emit E_heartbeat w2)) in *.
      cbn [emit owner heartbeatTimer log] in Ho3, Ht3, Hl3.
      assert (Ho4 : owner (callNextTask ttl w3) = true).
      { cbn [callNextTask emit owner]. congruence. }
      destruct (IH _ Ho4) as (added & Hlog & Dadded & Ho5 & Ht5).
      exists ((([E_beginTurn] ++ inner ++ [E_taskOutcome false; E_endTurn]) ++ l2)
              ++ (([E_heartbeat] ++ l3)
                  ++ [E_nextTask (lifecycleState w3) (Ttl.idleWaitMs ttl)])
              ++ added).
      split.
      { rewrite Hlog. cbn [callNextTask emit log]. rewrite Hl3, Hl2, Hl.
        rewrite <- !app_assoc. reflexivity. }
      split; [|split; [exact Ho5|]].
      * eapply digest_app;
          [eapply digest_app; [exact Dturn | exact D2 | reflexivity..]
          |eapply digest_app;
             [eapply digest_app;
                [eapply digest_app;
                   [instantiate (4 := [E_heartbeat]); instantiate (3 := 0);
                    instantiate (2 := 0); instantiate (1 := 0);
                    cbn; repeat split; repeat constructor
                   |exact D3 | reflexivity..]
                |instantiate (4 := []); instantiate (3 := 0);
                 instantiate (2 := 0); instantiate (1 := 1);
                 cbn; repeat split; repeat constructor
                |reflexivity..]
             |exact Dadded | reflexivity..]
          |..]; cbn [List.length app repeat]; try reflexivity; lia.
      * rewrite Ht5. cbn [callNextTask emit heartbeatTimer]. congruence.
  - exists (if Js.gtZero ttl && verbose then [E_ttlExpiredNotice] else []).
    destruct (Js.gtZero ttl && verbose); cbn; rewrite ?app_nil_r;
      repeat apply conj; try reflexivity; try exact Ho; repeat constructor.
  - exists []. rewrite app_nil_r. cbn.
    repeat apply conj; try reflexivity; [constructor | exact Ho].
  - destruct (outside_keeps o w) as (_ & Ho1 & Ht1).
    destruct (outside_log o w) as (l & Hl & Hall).
    pose proof (digest_outside (Ttl.idleWaitMs ttl) l Hall) as D.
    assert (Ho2 : owner (outside o w) = true) by congruence.
    destruct (IH _ Ho2) as (added & Hlog & Dadded & Ho3 & Ht3).
    exists (l ++ added).
    split; [rewrite Hlog, Hl, <- app_assoc; reflexivity|].
    split; [|split; congruence].
    eapply digest_app; [exact D | exact Dadded | reflexivity..].
Qed.

(** The loop stops at the first answer that is no task, at the first
    rejection and at the first task that fails. *)
Lemma awaitNextTask_stops (ttl : Js.Number) (verbose : bool)
    (pre : list NextTask) (x : NextTask) (post : list NextTask) : forall w,
  Forall (fun y => (exists task, y = Returns (Some task) /\ failed task = false)
                   \/ exists o, y = While o) pre ->
  match x with
  | Returns None | Rejects => True
  | Returns (Some task) => failed task = true
  | While _ => False
  end ->
  awaitNextTask ttl verbose (pre ++ x :: post) w
  = awaitNextTask ttl verbose (pre ++ [x]) w
  /\ leaves (pre ++ [x])
     = match x with
       | Returns None => NoTask
       | Returns (Some _) => TaskThrew
       | Rejects => NextTaskThrew
       | While _ => Waiting
       end.
Proof.
  induction pre as [|y pre IH]; intros w Hpre Hx.
  - cbn [app awaitNextTask leaves].
    destruct x as [[task|]| |o]; try (split; reflexivity); [|destruct Hx].
    destruct (runPromptTurn_log task w) as (Hfst & _).
    destruct (runPromptTurn (runQueuedTask task) w) as [threw w1].
    cbn [fst] in Hfst. cbn zeta. rewrite Hfst, Hx. split; reflexivity.
  - inversion Hpre as [|? ? Hy Hpre']; subst.
    cbn [app awaitNextTask leaves].
    destruct Hy as [(task & -> & Hok) | (o & ->)].
    + destruct (runPromptTurn_log task w) as (Hfst & _).
      destruct (runPromptTurn (runQueuedTask task) w) as [threw w1].
      cbn [fst] in Hfst. cbn zeta. rewrite Hfst, Hok. apply IH; assumption.
    + apply IH; assumption.
Qed.

(** The log of the process at the head of the loop. *)
Lemma started_log (host : Host) :
  exists l0 l1,
    log (started host)
    = (([E_serverStart] ++ l0) ++ [E_heartbeat] ++ l1) ++ [E_timerStart]
    /\ Forall outsideEffect l0 /\ Forall outsideEffect l1.
Proof.
  unfold started, serverStarting.
  destruct (outsideAll_log (duringStart host) (emit E_serverStart initial))
    as (l0 & Hl0 & Hall0).
  set (w1 := outsideAll (duringStart host) (emit E_serverStart initial)) in *.
  destruct (outsideAll_log (duringFirstRefresh host)
              (refreshHeartbeat (withOwner true w1))) as (l1 & Hl1 & Hall1).
  exists l0, l1. split; [|split; assumption].
  cbn [emit withTimer log]. rewrite Hl1.
  unfold refreshHeartbeat. cbn [withOwner owner emit log]. rewrite Hl0.
  cbn [emit initial log app]. rewrite <- !app_assoc. reflexivity.
Qed.

(** The log and the exit of an owner process that holds the lease and
    whose server has started. *)
Lemma served_log (ttlMs : option Js.Number) (verbose : bool) (host : Host)
    (script : list NextTask) :
  acquire host = Lease -> starts host = true ->
  let ttl := Ttl.normalizeQueueOwnerTtlMs ttlMs in
  let run := runQueueOwnerProcess ttlMs verbose host script in
  digest (Ttl.idleWaitMs ttl) (log (snd run))
    ([E_serverStart; E_heartbeat; E_timerStart]
     ++ repeat E_heartbeat (successes script)
     ++ match leaves script with
        | Waiting => []
        | NoTask =>
            (if Js.gtZero ttl && verbose then [E_ttlExpiredNotice] else [])
            ++ [E_timerStop; E_beginClosing; E_serverClose]
            ++ (if closes host then [E_leaseRelease] else [])
        | TaskThrew | NextTaskThrew =>
            [E_timerStop; E_beginClosing; E_serverClose]
            ++ (if closes host then [E_leaseRelease] else [])
        end)
    (successes script)
    (successes script + match leaves script with TaskThrew => 1 | _ => 0 end)
    (successes script + 1)
  /\ fst run
     = match leaves script with
       | Waiting => Running
       | NoTask => if closes host && releases host then Returned else Rejected
       | TaskThrew | NextTaskThrew => Rejected
       end.
Proof.
  intros Hlease Hstart. cbn zeta.
  set (ttl := Ttl.normalizeQueueOwnerTtlMs ttlMs).
  set (wait := Ttl.idleWaitMs ttl).
  destruct (started_keeps host) as (Hidle0 & Ho0 & Ht0).
  destruct (started_free host) as [Hrun0 _].
  destruct (started_log host) as (l0 & l1 & Hl0 & Hall0 & Hall1).
  assert (D0 : digest wait (log (callNextTask ttl (started host)))
                 [E_serverStart; E_heartbeat; E_timerStart] 0 0 1).
  { cbn [callNextTask emit log]. rewrite Hl0, Hidle0.
    eapply digest_app;
      [eapply digest_app;
         [eapply digest_app;
            [eapply digest_app;
               [instantiate (4 := [E_serverStart]); instantiate (3 := 0);
                instantiate (2 := 0); instantiate (1 := 0);
                cbn; repeat split; repeat constructor
               |exact (digest_outside wait l0 Hall0) | reflexivity..]
            |eapply digest_app;
               [instantiate (4 := [E_heartbeat]); instantiate (3 := 0);
                instantiate (2 := 0); instantiate (1 := 0);
                cbn; repeat split; repeat constructor
               |exact (digest_outside wait l1 Hall1) | reflexivity..]
            |reflexivity..]
         |instantiate (4 := [E_timerStart]); instantiate (3 := 0);
          instantiate (2 := 0); instantiate (1 := 0);
          cbn; repeat split; repeat constructor
         |reflexivity..]
      |instantiate (4 := []); instantiate (3 := 0);
       instantiate (2 := 0); instantiate (1 := 1);
       cbn; repeat split; repeat constructor
      |reflexivity..]. }
  assert (Hoc : owner (callNextTask ttl (started host)) = true) by exact Ho0.
  destruct (awaitNextTask_log ttl verbose script (callNextTask ttl (started host)) Hoc)
    as (added & Hlog & Dadded & Ho & Ht).
  destruct (mainLoop_bracket ttl verbose script (started host) Hidle0 Hrun0)
    as (_ & _ & _ & Hexit).
  unfold runQueueOwnerProcess. rewrite Hlease, Hstart. cbn [negb].
  fold ttl. unfold mainLoop in *.
  destruct (awaitNextTask ttl verbose script (callNextTask ttl (started host)))
    as [exit w4].
  cbn [fst snd] in *. subst exit.
  change (heartbeatTimer (callNextTask ttl (started host)))
    with (heartbeatTimer (started host)) in Ht.
  rewrite Ht0 in Ht.
  assert (D4 : digest wait (log w4)
                 ([E_serverStart; E_heartbeat; E_timerStart]
                  ++ repeat E_heartbeat (successes script)
                  ++ match leaves script with
                     | NoTask =>
                         if Js.gtZero ttl && verbose then [E_ttlExpiredNotice] else []
                     | _ => []
                     end)
                 (successes script)
                 (successes script + match leaves script with TaskThrew => 1 | _ => 0 end)
                 (successes script + 1)).
  { rewrite Hlog.
    eapply digest_app; [exact D0 | exact Dadded | try reflexivity; lia ..]. }
  pose proof (finally_exit host w4) as Hft. rewrite Ho in Hft.
  destruct (finally_log host w4) as (during & after & Hfl & Hdall & Haall).
  rewrite Ho, Ht in Hfl. cbn [andb] in Hfl.
  assert (D5 : digest wait (log (snd (finally_ host w4)))
                 (([E_serverStart; E_heartbeat; E_timerStart]
                   ++ repeat E_heartbeat (successes script)
                   ++ match leaves script with
                      | NoTask =>
                          if Js.gtZero ttl && verbose then [E_ttlExpiredNotice] else []
                      | _ => []
                      end)
                  ++ [E_timerStop; E_beginClosing; E_serverClose]
                  ++ (if closes host then [E_leaseRelease] else []))
                 (successes script)
                 (successes script + match leaves script with TaskThrew => 1 | _ => 0 end)
                 (successes script + 1)).
  { rewrite Hfl.
    assert (Dend : digest wait
                     ([E_timerStop] ++ [E_beginClosing] ++ (E_serverClose :: during)
                      ++ (if negb (closes host) then [] else E_leaseRelease :: after))
                     ([E_timerStop; E_beginClosing; E_serverClose]
                      ++ (if closes host then [E_leaseRelease] else []))
                     0 0 0).
    { change ([E_timerStop] ++ [E_beginClosing] ++ (E_serverClose :: during)
              ++ (if negb (closes host) then [] else E_leaseRelease :: after))
        with (([E_timerStop; E_beginClosing; E_serverClose] ++ during)
              ++ (if negb (closes host) then [] else [E_leaseRelease] ++ after)).
      eapply digest_app;
        [eapply digest_app;
           [instantiate (4 := [E_timerStop; E_beginClosing; E_serverClose]);
            instantiate (3 := 0); instantiate (2 := 0); instantiate (1 := 0);
            cbn; repeat split; repeat constructor
           |exact (digest_outside wait during Hdall) | reflexivity..]
        |instantiate (4 := if closes host then [E_leaseRelease] else []);
         instantiate (3 := 0); instantiate (2 := 0); instantiate (1 := 0);
         destruct (closes host); cbn [negb];
           [eapply digest_app;
              [instantiate (4 := [E_leaseRelease]); instantiate (3 := 0);
               instantiate (2 := 0); instantiate (1 := 0);
               cbn; repeat split; repeat constructor
              |exact (digest_outside wait after Haall) | reflexivity..]
           |cbn; repeat split; constructor]
        |rewrite ?app_nil_r; reflexivity..]. }
    eapply digest_app; [exact D4 | exact Dend | try reflexivity; lia ..]. }
  destruct (leaves script) eqn:Hleaves; cbn [snd fst].
  - destruct (finally_ host w4) as [threw w5]. cbn [fst snd] in *. subst threw.
    split; [|destruct (closes host && releases host); reflexivity].
    destruct D5 as (Hp & Hrest). split; [|exact Hrest].
    rewrite Hp, <- ?app_assoc. reflexivity.
  - split; [|reflexivity].
    destruct D5 as (Hp & Hrest). split; [|exact Hrest].
    rewrite Hp, app_nil_r, <- ?app_assoc. reflexivity.
  - split; [|reflexivity].
    destruct D5 as (Hp & Hrest). split; [|exact Hrest].
    rewrite Hp, app_nil_r, <- ?app_assoc. reflexivity.
  - split; [|reflexivity].
    destruct D4 as (Hp & Hrest). split; [|exact Hrest].
    rewrite Hp, !app_nil_r. reflexivity.
Qed.

(** The log of a process whose server does not start. *)
Lemma unserved_log (wait : option Js.Number) (host : Host) :
  digest wait (log (snd (finally_ host (serverStarting host))))
    [E_serverStart; E_beginClosing; E_leaseRelease] 0 0 0.
Proof.
  destruct (finally_log host (serverStarting host))
    as (during & after & Hfl & Hdall & Haall).
  unfold serverStarting in *.
  destruct (outsideAll_keeps (duringStart host) (emit E_serverStart initial))
    as (_ & Ho & Ht).
  destruct (outsideAll_log (duringStart host) (emit E_serverStart initial))
    as (l0 & Hl0 & Hall0).
  rewrite Ho, Ht, Hl0 in Hfl. cbn [emit initial owner heartbeatTimer log andb app] in Hfl.
  rewrite Hfl.
  change (E_serverStart :: l0 ++ E_beginClosing :: E_leaseRelease :: after)
    with (([E_serverStart] ++ l0) ++ ([E_beginClosing; E_leaseRelease] ++ after)).
  eapply digest_app;
    [eapply digest_app;
       [instantiate (4 := [E_serverStart]); instantiate (3 := 0);
        instantiate (2 := 0); instantiate (1 := 0);
        cbn; repeat split; repeat constructor
       |exact (digest_outside wait l0 Hall0) | reflexivity..]
    |eapply digest_app;
       [instantiate (4 := [E_beginClosing; E_leaseRelease]); instantiate (3 := 0);
        instantiate (2 := 0); instantiate (1 := 0);
        cbn; repeat split; repeat constructor
       |exact (digest_outside wait after Haall) | reflexivity..]
    |reflexivity..].
Qed.

End OwnerProcessFacts.

Section OwnerProcessProperties.
Import Trace OwnerRuntime.
Local Open Scope nat_scope.
Local Open Scope list_scope.

(** X18.  What the owner process does outside the turns, in order.  With
    the lease and a server that has started: it starts the server,
    refreshes the lease once and starts the heartbeat timer; it refreshes
    the lease once more after each task that succeeded; when [nextTask]
    returns nothing it prints the TTL notice if the TTL is positive and the
    process verbose; and on every way out of the loop, after a failed task
    and a rejected [nextTask] as well, it stops the timer, closes the turn
    controller and closes the server, and then releases the lease, unless
    the closing of the server failed.  When the server does not start
    there is no timer to stop and no server to close: the process closes
    the turn controller and releases the lease.  A process that did not
    get the lease does none of this: it prints a notice, if verbose, when
    another owner holds the lease. *)
Theorem owner_process_skeleton (ttlMs : option Js.Number) (verbose : bool)
    (host : Host) (script : list NextTask) :
  let ttl := Ttl.normalizeQueueOwnerTtlMs ttlMs in
  List.filter isProcessEffect
    (log (snd (runQueueOwnerProcess ttlMs verbose host script)))
  = match acquire host with
    | AcquireRejects => []
    | NoLease => if verbose then [E_alreadyActiveNotice] else []
    | Lease =>
        if negb (starts host) then [E_serverStart; E_beginClosing; E_leaseRelease]
        else
          [E_serverStart; E_heartbeat; E_timerStart]
          ++ repeat E_heartbeat (successes script)
          ++ match leaves script with
             | Waiting => []
             | NoTask =>
                 (if Js.gtZero ttl && verbose then [E_ttlExpiredNotice] else [])
                 ++ [E_timerStop; E_beginClosing; E_serverClose]
                 ++ (if closes host then [E_leaseRelease] else [])
             | TaskThrew | NextTaskThrew =>
                 [E_timerStop; E_beginClosing; E_serverClose]
                 ++ (if closes host then [E_leaseRelease] else [])
             end
    end.
Proof.
  cbn zeta.
  destruct (acquire host) eqn:Hlease.
  - destruct (starts host) eqn:Hstart; cbn [negb].
    + exact (proj1 (proj1 (served_log ttlMs verbose host script Hlease Hstart))).
    + unfold runQueueOwnerProcess. rewrite Hlease, Hstart. cbn [negb snd].
      exact (proj1 (unserved_log None host)).
  - unfold runQueueOwnerProcess. rewrite Hlease. destruct verbose; reflexivity.
  - unfold runQueueOwnerProcess. rewrite Hlease. reflexivity.
Qed.

(** X19.  An owner process whose server has started calls [nextTask]
    once more than tasks have succeeded, always with the same wait, and
    runs at most one task that fails, the last it takes; without the lease
    or without a started server it calls [nextTask] never and runs no
    task.  The process returns only when [nextTask] came back with nothing
    and the closing of the server and the release of the lease succeeded;
    it rethrows when the acquisition of the lease, the start of the
    server, a [nextTask], a task, the closing or the release failed. *)
Theorem owner_process_counts (ttlMs : option Js.Number) (verbose : bool)
    (host : Host) (script : list NextTask) :
  let run := runQueueOwnerProcess ttlMs verbose host script in
  let served := match acquire host with Lease => starts host | _ => false end in
  countOf isTaskSuccess (log (snd run)) = (if served then successes script else 0)
  /\ countOf isNextTask (log (snd run))
     = (if served then successes script + 1 else 0)
  /\ countOf isTaskOutcome (log (snd run))
     = (if served
        then successes script + match leaves script with TaskThrew => 1 | _ => 0 end
        else 0)
  /\ waitsAre (Ttl.idleWaitMs (Ttl.normalizeQueueOwnerTtlMs ttlMs)) (log (snd run))
  /\ fst run
     = match acquire host with
       | AcquireRejects => Rejected
       | NoLease => NotOwner
       | Lease =>
           if negb (starts host) then Rejected
           else match leaves script with
                | Waiting => Running
                | NoTask => if closes host && releases host then Returned else Rejected
                | TaskThrew | NextTaskThrew => Rejected
                end
       end.
Proof.
  cbn zeta.
  destruct (acquire host) eqn:Hlease.
  - destruct (starts host) eqn:Hstart; cbn [negb].
    + destruct (served_log ttlMs verbose host script Hlease Hstart)
        as ((_ & Hs & Ho & Hn & Hw) & Hexit).
      repeat split; assumption.
    + destruct (unserved_log (Ttl.idleWaitMs (Ttl.normalizeQueueOwnerTtlMs ttlMs)) host)
        as (_ & Hs & Ho & Hn & Hw).
      unfold runQueueOwnerProcess. rewrite Hlease, Hstart. cbn [negb fst snd].
      repeat split; assumption.
  - unfold runQueueOwnerProcess. rewrite Hlease.
    destruct verbose; cbn; repeat apply conj; try reflexivity; repeat constructor.
  - unfold runQueueOwnerProcess. rewrite Hlease.
    cbn; repeat apply conj; try reflexivity; constructor.
Qed.

(** X20.  The wait that the owner hands to [nextTask] is either absent,
    so that the owner waits without a bound, or a positive whole number of
    milliseconds: never zero, negative, fractional or NaN.  The
    [Math.max(0, ...)] of the source never changes its argument. *)
Theorem owner_idle_wait_absent_or_positive (ttlMs : option Js.Number) :
  let ttl := Ttl.normalizeQueueOwnerTtlMs ttlMs in
  (Ttl.idleWaitMs ttl = None
   \/ exists z : Z, (0 < z)%Z /\ Ttl.idleWaitMs ttl = Some (Js.ofZ z))
  /\ (Ttl.idleWaitMs ttl = None \/ Ttl.idleWaitMs ttl = Some ttl).
Proof.
  cbn zeta.
  assert (Hrange : Ttl.normalizeQueueOwnerTtlMs ttlMs = Js.NegZero
                   \/ exists z : Z, (0 <= z)%Z
                        /\ Ttl.normalizeQueueOwnerTtlMs ttlMs = Js.ofZ z).
  { destruct (normalize_cases ttlMs) as [[_ H] | [H | (q & Hq & _ & H)]].
    - left. exact H.
    - right. exists 300000%Z. split; [discriminate | exact H].
    - right. exists (Js.roundHalfUp q).
      split; [apply roundHalfUp_nonneg; exact Hq | exact H]. }
  destruct Hrange as [-> | (z & Hz & ->)].
  - split; left; reflexivity.
  - destruct (Z.eq_dec z 0) as [-> | Hne].
    + split; left; reflexivity.
    + assert (Hpos : (0 < z)%Z) by lia.
      assert (Hq : (0 < inject_Z z)%Q).
      { change 0%Q with (inject_Z 0). rewrite <- Zlt_Qlt. exact Hpos. }
      assert (Hidle : Ttl.idleWaitMs (Js.ofZ z) = Some (Js.ofZ z)).
      { unfold Ttl.idleWaitMs, Js.ofZ, Js.isZero, Js.Math_max0.
        rewrite (proj2 (Qltb_true _ _) Hq).
        destruct (Qeq_bool (inject_Z z) 0) eqn:E; [|reflexivity].
        apply Qeq_bool_eq in E. rewrite E in Hq. exfalso.
        exact (Qlt_irrefl _ Hq). }
      split; [|right; exact Hidle]. right. exists z. split; [exact Hpos | exact Hidle].
Qed.

(** X21.  The owner's loop ends at the first [nextTask] that returns
    nothing and at the first task that fails, and at the first [nextTask]
    that rejects: what would have come after is never asked for.  The
    first ends the process normally, provided the server closes and the
    lease is released; the others make it rethrow. *)
Theorem owner_stops_at_first_failure (ttlMs : option Js.Number) (verbose : bool)
    (host : Host) (pre : list NextTask) (x : NextTask) (post : list NextTask) :
  Forall (fun y => (exists task, y = Returns (Some task) /\ failed task = false)
                   \/ exists o, y = While o) pre ->
  match x with
  | Returns None | Rejects => True
  | Returns (Some task) => failed task = true
  | While _ => False
  end ->
  runQueueOwnerProcess ttlMs verbose host (pre ++ x :: post)
  = runQueueOwnerProcess ttlMs verbose host (pre ++ [x])
  /\ (acquire host = Lease -> starts host = true ->
      fst (runQueueOwnerProcess ttlMs verbose host (pre ++ x :: post))
      = match x with
        | Returns None => if closes host && releases host then Returned else Rejected
        | _ => Rejected
        end).
Proof.
  intros Hpre Hx.
  assert (Heq : runQueueOwnerProcess ttlMs verbose host (pre ++ x :: post)
                = runQueueOwnerProcess ttlMs verbose host (pre ++ [x])).
  { unfold runQueueOwnerProcess, mainLoop.
    rewrite (proj1 (awaitNextTask_stops _ verbose pre x post _ Hpre Hx)).
    reflexivity. }
  split; [exact Heq|]. intros Hlease Hstart. rewrite Heq.
  rewrite (proj2 (served_log ttlMs verbose host (pre ++ [x]) Hlease Hstart)).
  rewrite (proj2 (awaitNextTask_stops (Ttl.normalizeQueueOwnerTtlMs ttlMs) verbose
                    pre x post initial Hpre Hx)).
  destruct x as [[task|]| |o]; try reflexivity. destruct Hx.
Qed.

Lemma owner_stops_at_first_failure_witness :
  let good : Task :=
    {| events := [PromptActive]; failed := false;
       afterTurn := []; duringRefresh := [TimerTick] |} in
  let bad : Task :=
    {| events := []; failed := true; afterTurn := []; duringRefresh := [] |} in
  let host : Host :=
    {| acquire := Lease; starts := true; closes := true; releases := true;
       duringStart := []; duringFirstRefresh := [];
       duringClose := []; duringRelease := [] |} in
  fst (runQueueOwnerProcess (Some (Js.ofZ 0)) false host
         ([Returns (Some good)] ++ Returns (Some bad)
            :: [Returns (Some good); Returns None]))
  = Rejected.
Proof.
  cbn zeta.
  refine (proj2 (owner_stops_at_first_failure (Some (Js.ofZ 0)) false
                   {| acquire := Lease; starts := true; closes := true;
                      releases := true;
                      duringStart := []; duringFirstRefresh := [];
                      duringClose := []; duringRelease := [] |}
                   [Returns (Some {| events := [PromptActive]; failed := false;
                                     afterTurn := [];
                                     duringRefresh := [TimerTick] |})]
                   (Returns (Some {| events := []; failed := true;
                                     afterTurn := []; duringRefresh := [] |}))
                   [Returns (Some {| events := [PromptActive]; failed := false;
                                     afterTurn := [];
                                     duringRefresh := [TimerTick] |});
                    Returns None]
                   _ _) eq_refl eq_refl).
  - constructor; [|constructor]. left. eexists. split; reflexivity.
  - reflexivity.
Defined.

End OwnerProcessProperties.

(* ------------------------------------------------------------------ *)
(** ** The output formatters                                           *)
(* ------------------------------------------------------------------ *)

Section OutputFacts.
Import Output.
Local Open Scope string_scope.
Local Open Scope list_scope.

Lemma feed_failed (calls : list Call) :
  fold_left (fun acc c => match acc with Some o' => invoke c o' | None => None end)
    calls None = None.
Proof. induction calls as [|c calls IH]; [reflexivity | exact IH]. Qed.

Lemma feed_cons (c : Call) (calls : list Call) (o : Formatter) :
  feed (c :: calls) o
  = match invoke c o with Some o' => feed calls o' | None => None end.
Proof.
  unfold feed. cbn [fold_left].
  destruct (invoke c o); [reflexivity | apply feed_failed].
Qed.

Lemma feed_app (calls1 calls2 : list Call) (o : Formatter) :
  feed (calls1 ++ calls2) o
  = match feed calls1 o with Some o' => feed calls2 o' | None => None end.
Proof.
  revert o. induction calls1 as [|c calls1 IH]; intros o; [reflexivity|].
  cbn [app]. rewrite !feed_cons. destruct (invoke c o); [apply IH | reflexivity].
Qed.

Lemma append_empty (s : string) : (s ++ "")%string = s.
Proof. induction s as [|c s IH]; [reflexivity | cbn; rewrite IH; reflexivity]. Qed.

Lemma append_assoc (a b c : string) : ((a ++ b) ++ c = a ++ b ++ c)%string.
Proof. induction a as [|x a IH]; [reflexivity | cbn; rewrite IH; reflexivity]. Qed.

Lemma join_concat (chunks : list string) : String.concat "" chunks = join chunks.
Proof.
  induction chunks as [|c chunks IH]; [reflexivity|].
  cbn [String.concat join]. destruct chunks as [|c' chunks].
  - cbn. rewrite append_empty. reflexivity.
  - rewrite IH. reflexivity.
Qed.

Lemma join_app (l1 l2 : list string) :
  join (l1 ++ l2) = (join l1 ++ join l2)%string.
Proof.
  induction l1 as [|c l1 IH]; [reflexivity|].
  cbn [app join]. rewrite IH, append_assoc. reflexivity.
Qed.

Lemma plainText_app (l1 l2 : list Written) :
  plainText (l1 ++ l2) = (plainText l1 ++ plainText l2)%string.
Proof.
  induction l1 as [|[s|e] l1 IH]; [reflexivity| |exact IH].
  cbn [app plainText]. rewrite IH, append_assoc. reflexivity.
Qed.

Lemma endsWithNewline_app (t : string) :
  endsWithNewline (t ++ newline)%string = true.
Proof.
  induction t as [|c t IH]; [reflexivity|].
  cbn [append endsWithNewline]. destruct t; exact IH.
Qed.

(** The quiet formatter keeps the texts of the message chunks and writes
    nothing. *)
Lemma quiet_updates (timestamp : string) (updates : list SessionUpdate) :
  forall o, format o = quiet ->
  feed (updateCalls timestamp updates) o
  = Some {| format := quiet; stdout := stdout o;
            chunks := chunks o ++ messageTexts updates |}.
Proof.
  induction updates as [|u updates IH]; intros o Hq.
  - cbn. rewrite app_nil_r. destruct o; cbn in *; subst. reflexivity.
  - cbn [updateCalls List.map]. rewrite feed_cons.
    unfold invoke. rewrite Hq. cbn [memberOf declares members existsb Member_eqb orb negb].
    fold (updateCalls timestamp updates).
    destruct u as [[t|] | | | | |];
      (rewrite IH by exact Hq); cbn; rewrite <- ?app_assoc, ?app_nil_r; reflexivity.
Qed.

Lemma quiet_done (timestamp doneAt stopReason : string)
    (updates : list SessionUpdate) :
  exists o, feed (updateCalls timestamp updates ++ [onDone doneAt stopReason])
              (createOutputFormatter quiet) = Some o
            /\ stdout o
               = [Plain (if endsWithNewline (join (messageTexts updates))
                         then join (messageTexts updates)
                         else (join (messageTexts updates) ++ newline)%string)].
Proof.
  rewrite feed_app, quiet_updates by reflexivity.
  eexists. split; [reflexivity|].
  cbn. rewrite join_concat. reflexivity.
Qed.

(** The json formatter writes one line for each update but the chunks
    that are not text. *)
Lemma json_updates (timestamp : string) (updates : list SessionUpdate) :
  forall o, format o = json ->
  exists o',
    feed (updateCalls timestamp updates) o = Some o'
    /\ format o' = json
    /\ exists added,
         stdout o' = stdout o ++ added
         /\ Forall (fun w => isJsonLine w = true) added
         /\ List.length added
            = List.length (List.filter (fun u => negb (isOtherChunk u)) updates).
Proof.
  induction updates as [|u updates IH]; intros o Hj.
  - exists o. split; [reflexivity|]. split; [exact Hj|].
    exists []. rewrite app_nil_r. repeat split. constructor.
  - cbn [updateCalls List.map]. rewrite feed_cons.
    unfold invoke. rewrite Hj. cbn [memberOf declares members existsb Member_eqb orb negb].
    fold (updateCalls timestamp updates).
    assert (Hstep : format (json_onSessionUpdate timestamp u o) = json
                    /\ exists one,
                         stdout (json_onSessionUpdate timestamp u o) = stdout o ++ one
                         /\ Forall (fun w => isJsonLine w = true) one
                         /\ List.length one
                            = if isOtherChunk u then 0%nat else 1%nat).
    { destruct u as [[t|] | [t|] | | | |]; cbn; (split; [exact Hj|]);
        try (eexists; split; [reflexivity|]; split; [repeat constructor | reflexivity]);
        exists []; rewrite app_nil_r; repeat split; constructor. }
    destruct Hstep as (Hj' & one & Hone & Hall1 & Hlen1).
    destruct (IH _ Hj') as (o' & Hfeed & Hfmt & added & Hout & Hall & Hlen).
    exists o'. split; [exact Hfeed|]. split; [exact Hfmt|].
    exists (one ++ added). rewrite Hout, Hone, <- app_assoc.
    split; [reflexivity|]. split; [apply Forall_app; split; assumption|].
    rewrite length_app, Hlen1, Hlen. cbn [List.filter].
    destruct (isOtherChunk u); reflexivity.
Qed.

(** The text formatter writes a message chunk as it is. *)
Lemma text_message_updates (timestamp : string) (updates : list SessionUpdate) :
  Forall (fun u => isMessageChunk u = true) updates ->
  forall o, format o = text ->
  feed (updateCalls timestamp updates) o
  = Some {| format := text;
            stdout := stdout o ++ List.map Plain (messageTexts updates);
            chunks := chunks o |}.
Proof.
  induction 1 as [|u updates Hu _ IH]; intros o Ht.
  - cbn. rewrite app_nil_r. destruct o; cbn in *; subst. reflexivity.
  - cbn [updateCalls List.map]. rewrite feed_cons.
    unfold invoke. rewrite Ht. cbn [memberOf declares members existsb Member_eqb orb negb].
    fold (updateCalls timestamp updates).
    destruct u as [[t|] | | | | |]; try discriminate Hu.
    + rewrite IH; [|exact Ht]. cbn. rewrite <- app_assoc. reflexivity.
    + rewrite IH; [|exact Ht]. reflexivity.
Qed.

Lemma plainText_map_Plain (l : list string) : plainText (List.map Plain l) = join l.
Proof.
  induction l as [|c l IH]; [reflexivity|].
  cbn. rewrite IH. reflexivity.
Qed.

End OutputFacts.

Section OutputProperties.
Import Output.
Local Open Scope string_scope.
Local Open Scope list_scope.

(** X22.  The quiet formatter writes nothing while updates arrive and
    writes once on [onDone]: the texts of the agent's message chunks joined
    in their order, and a newline after them unless they end in one.
    Thoughts, tool calls, plans, the stop reason and the time leave no
    trace in its output. *)
Theorem quiet_writes_the_message_once (timestamp doneAt stopReason : string)
    (updates : list SessionUpdate) :
  let said := join (messageTexts updates) in
  let line := if endsWithNewline said then said else (said ++ newline)%string in
  (exists o, feed (updateCalls timestamp updates) (createOutputFormatter quiet) = Some o
             /\ stdout o = [])
  /\ (exists o, feed (updateCalls timestamp updates ++ [onDone doneAt stopReason])
                  (createOutputFormatter quiet) = Some o
                /\ stdout o = [Plain line])
  /\ endsWithNewline line = true.
Proof.
  cbn zeta. repeat apply conj.
  - eexists. split; [apply quiet_updates; reflexivity | reflexivity].
  - apply quiet_done.
  - destruct (endsWithNewline (join (messageTexts updates))) eqn:E;
      [exact E | apply endsWithNewline_app].
Qed.

(** X23.  The json formatter never throws on an update and writes JSON
    lines only: one for every update, of whatever kind, except that a
    message or thought chunk whose content is not text is dropped; [onDone]
    adds one more. *)
Theorem json_writes_one_line_per_update (timestamp doneAt stopReason : string)
    (updates : list SessionUpdate) :
  exists o,
    feed (updateCalls timestamp updates ++ [onDone doneAt stopReason])
      (createOutputFormatter json) = Some o
    /\ Forall (fun w => isJsonLine w = true) (stdout o)
    /\ List.length (stdout o)
       = S (List.length (List.filter (fun u => negb (isOtherChunk u)) updates))
    /\ List.last (stdout o) (Plain "") = JsonLine (ev_done stopReason doneAt).
Proof.
  destruct (json_updates timestamp updates (createOutputFormatter json) eq_refl)
    as (o' & Hfeed & Hfmt & added & Hout & Hall & Hlen).
  cbn [createOutputFormatter stdout app] in Hout.
  exists (json_onDone doneAt stopReason o').
  rewrite feed_app, Hfeed. repeat apply conj.
  - rewrite feed_cons. unfold invoke. rewrite Hfmt. reflexivity.
  - cbn. rewrite Hout. apply Forall_app. split; [exact Hall | repeat constructor].
  - cbn. rewrite Hout, length_app, Hlen. cbn. lia.
  - cbn. apply last_last.
Qed.

(** X24.  On a stream of message chunks the text formatter and the quiet
    formatter show the same text: the text formatter writes each chunk as
    it comes, the quiet one writes them joined at the end, and only the
    closing lines differ. *)
Theorem text_streams_what_quiet_joins (timestamp doneAt stopReason : string)
    (updates : list SessionUpdate) :
  Forall (fun u => isMessageChunk u = true) updates ->
  exists ot oq,
    feed (updateCalls timestamp updates) (createOutputFormatter text) = Some ot
    /\ feed (updateCalls timestamp updates ++ [onDone doneAt stopReason])
         (createOutputFormatter quiet) = Some oq
    /\ (plainText (stdout oq) = plainText (stdout ot)
        \/ plainText (stdout oq) = (plainText (stdout ot) ++ newline)%string).
Proof.
  intros Hmsg.
  destruct (quiet_done timestamp doneAt stopReason updates)
    as (oq & Hq & Hout).
  eexists. exists oq.
  split; [apply (text_message_updates timestamp updates Hmsg); reflexivity|].
  split; [exact Hq|].
  rewrite Hout. cbn [stdout createOutputFormatter app plainText].
  rewrite append_empty.
  rewrite plainText_map_Plain.
  destruct (endsWithNewline (join (messageTexts updates))); [left | right]; reflexivity.
Qed.

End OutputProperties.

Section OutputWitnesses.
Import Output.
Local Open Scope string_scope.
Local Open Scope list_scope.

Lemma text_streams_what_quiet_joins_witness :
  let updates :=
    [agent_message_chunk (TextContent "a"); agent_message_chunk OtherContent;
     agent_message_chunk (TextContent "b")] in
  Forall (fun u => isMessageChunk u = true) updates
  /\ exists ot oq,
       feed (updateCalls "t" updates) (createOutputFormatter text) = Some ot
       /\ feed (updateCalls "t" updates ++ [onDone "t" "end_turn"])
            (createOutputFormatter quiet) = Some oq
       /\ (plainText (stdout oq) = plainText (stdout ot)
           \/ plainText (stdout oq) = (plainText (stdout ot) ++ newline)%string).
Proof.
  cbn zeta. split; [repeat constructor|].
  apply text_streams_what_quiet_joins. repeat constructor.
Defined.

End OutputWitnesses.

(* ------------------------------------------------------------------ *)
(** ** The command line and the session records                        *)
(* ------------------------------------------------------------------ *)

Section CliProperties.
Import Cli.
Local Open Scope string_scope.
Local Open Scope list_scope.

(** X25.  [resolvePermissionMode] refuses exactly the flag sets in which
    two or more flags are set; otherwise [--approve-all] and [--deny-all]
    give their own mode and everything else, no flag at all included,
    gives approve-reads.  The order in which the source tests the flags
    never matters, since at most one is set when they are tested. *)
Theorem permission_mode_table (flags : PermissionFlags) :
  let a := truthy (approveAll flags) in
  let r := truthy (approveReads flags) in
  let d := truthy (denyAll flags) in
  match resolvePermissionMode flags with
  | inl approve_all => a = true /\ r = false /\ d = false
  | inl deny_all => a = false /\ r = false /\ d = true
  | inl approve_reads => a = false /\ d = false
  | inr _ => (a && r) || (a && d) || (r && d) = true
  end.
Proof.
  destruct flags as [[[|]|] [[|]|] [[|]|]]; cbn; repeat split.
Qed.

End CliProperties.

Section SessionFacts.
Import Sessions.
Local Open Scope string_scope.
Local Open Scope list_scope.

Lemma endsWith_refl (s : string) : endsWith s s = true.
Proof. destruct s; cbn [endsWith]; rewrite String.eqb_refl; reflexivity. Qed.

Lemma endsWith_empty (s : string) : endsWith s "" = true.
Proof.
  induction s as [|c s IH]; [reflexivity|].
  cbn [endsWith]. destruct (String.eqb (String c s) ""); [reflexivity | exact IH].
Qed.

Lemma isExact_isSuffixMatch (query : string) (session : SessionRecord) :
  isExact query session = true -> isSuffixMatch query session = true.
Proof.
  unfold isExact, isSuffixMatch. intros H.
  apply Bool.orb_true_iff in H. apply Bool.orb_true_iff.
  destruct H as [H | H]; apply String.eqb_eq in H; rewrite H;
    [left | right]; apply endsWith_refl.
Qed.

Lemma filter_all {A : Type} (f : A -> bool) (l : list A) :
  (forall x, In x l -> f x = true) -> List.filter f l = l.
Proof.
  induction l as [|x l IH]; intros H; [reflexivity|].
  cbn [List.filter]. rewrite (H x (or_introl eq_refl)).
  rewrite IH; [reflexivity|]. intros y Hy. apply H. right. exact Hy.
Qed.

Lemma filter_none {A : Type} (f : A -> bool) (l : list A) :
  (forall x, In x l -> f x = false) -> List.filter f l = [].
Proof.
  induction l as [|x l IH]; intros H; [reflexivity|].
  cbn [List.filter]. rewrite (H x (or_introl eq_refl)).
  apply IH. intros y Hy. apply H. right. exact Hy.
Qed.

Section Interrupt.
Context {T : Type}.
Implicit Types (st : InterruptState T) (evs : list (InterruptEvent T)).

Lemma interruptStep_inv st seen (ev : InterruptEvent T) :
  interruptInv st seen -> interruptInv (interruptStep st ev) (seen ++ [ev]).
Proof.
  unfold interruptInv. intros (Hc & Hl & Hi & Hs & Hin).
  assert (Hin' : interruptCalls st = 1%nat -> In Sigint (seen ++ [ev])).
  { intros H. apply in_or_app. left. apply Hin. exact H. }
  assert (Hsig : In Sigint (seen ++ [@Sigint T])).
  { apply in_or_app. right. left. reflexivity. }
  clear Hin.
  destruct ev as [result | error | |]; cbn [interruptStep]; unfold finish;
    destruct (settled st) as [x|] eqn:Es; destruct (listening st) eqn:El;
    destruct (interrupting st) as [|n] eqn:En; cbn; rewrite ?Es, ?El, ?En;
    repeat apply conj; intros;
    try lia; try assumption; try discriminate; try congruence;
    try (destruct (Hl eq_refl) as [H0 Hn]; try discriminate; try split;
         try congruence; lia);
    try (apply Hs; congruence); try (apply Hin'; assumption);
    try (apply Hin'; lia).
Qed.

Lemma interrupt_run_inv evs : forall st seen,
  interruptInv st seen -> interruptInv (fold_left interruptStep evs st) (seen ++ evs).
Proof.
  induction evs as [|ev evs IH]; intros st seen H.
  - rewrite app_nil_r. exact H.
  - cbn [fold_left].
    replace (seen ++ ev :: evs) with ((seen ++ [ev]) ++ evs)
      by (rewrite <- app_assoc; reflexivity).
    apply IH. apply interruptStep_inv. exact H.
Qed.

Lemma withInterrupt_inv evs : interruptInv (withInterrupt evs) evs.
Proof.
  apply (interrupt_run_inv evs _ []).
  unfold interruptInv. cbn.
  repeat apply conj; intros; try lia; try discriminate; split; reflexivity.
Qed.

(** Once settled, with the listener gone, the promise stays as it is and
    [onInterrupt] is not called again. *)
Lemma interrupt_run_settled evs (x : Settled T) : forall st,
  settled st = Some x -> listening st = false ->
  settled (fold_left interruptStep evs st) = Some x
  /\ interruptCalls (fold_left interruptStep evs st) = interruptCalls st.
Proof.
  induction evs as [|ev evs IH]; intros st Hs Hl; [split; [exact Hs | reflexivity]|].
  cbn [fold_left].
  assert (H : settled (interruptStep st ev) = Some x
              /\ listening (interruptStep st ev) = false
              /\ interruptCalls (interruptStep st ev) = interruptCalls st).
  { destruct ev as [result | error | |]; cbn [interruptStep]; unfold finish;
      rewrite ?Hs, ?Hl; auto.
    destruct (interrupting st); cbn; rewrite ?Hs; auto. }
  destruct H as (Hs' & Hl' & Hc').
  destruct (IH _ Hs' Hl') as [H1 H2]. split; [exact H1 | lia].
Qed.

(** While the promise is pending, [run] has not ended. *)
Lemma pending_no_run_end evs : forall st,
  settled (fold_left interruptStep evs st) = None ->
  Forall (fun ev => ev = Sigint \/ ev = InterruptDone) evs /\ settled st = None.
Proof.
  induction evs as [|ev evs IH]; intros st H; [split; [constructor | exact H]|].
  cbn [fold_left] in H. destruct (IH _ H) as [Hall Hst].
  destruct ev as [result | error | |]; cbn [interruptStep] in Hst.
  - unfold finish in Hst. destruct (settled st) eqn:Es;
      [rewrite Es in Hst|]; discriminate Hst.
  - unfold finish in Hst. destruct (settled st) eqn:Es;
      [rewrite Es in Hst|]; discriminate Hst.
  - split; [constructor; [left; reflexivity | exact Hall]|].
    destruct (listening st); exact Hst.
  - split; [constructor; [right; reflexivity | exact Hall]|].
    destruct (interrupting st); [exact Hst|].
    unfold finish in Hst. cbn [settled] in Hst.
    destruct (settled st) eqn:Es; [|discriminate Hst].
    cbn [settled] in Hst. discriminate Hst.
Qed.

(** A promise rejected as interrupted was settled by the end of an
    [onInterrupt] call, at a moment when it was pending and the signal
    had been received. *)
Lemma interrupted_at_done evs :
  settled (withInterrupt evs) = Some Interrupted ->
  exists pre post,
    evs = pre ++ InterruptDone :: post
    /\ In Sigint pre
    /\ settled (withInterrupt pre) = None.
Proof.
  induction evs as [|ev evs IH] using rev_ind; intros H; [discriminate H|].
  unfold withInterrupt in H. rewrite fold_left_app in H. cbn [fold_left] in H.
  fold (withInterrupt evs) in H.
  destruct (withInterrupt_inv evs) as (Hc & _ & Hi & _ & Hin).
  destruct (settled (withInterrupt evs)) as [x|] eqn:Es.
  - assert (Hx : x = Interrupted).
    { destruct ev as [result | error | |]; cbn [interruptStep] in H;
        unfold finish in H; rewrite ?Es in H.
      - congruence.
      - congruence.
      - destruct (listening (withInterrupt evs)); cbn [settled] in H; congruence.
      - destruct (interrupting (withInterrupt evs)); cbn [settled] in H;
          rewrite ?Es in H; congruence. }
    subst x. destruct (IH eq_refl) as (pre & post & He & Hsig & Hnone).
    exists pre, (post ++ [ev]). split; [|split; assumption].
    rewrite He, <- app_assoc. reflexivity.
  - destruct ev as [result | error | |]; cbn [interruptStep] in H;
      unfold finish in H; rewrite ?Es in H; try discriminate H.
    + destruct (listening (withInterrupt evs)); cbn [settled] in H; congruence.
    + destruct (interrupting (withInterrupt evs)) as [|n] eqn:En;
        [congruence|].
      exists evs, []. split; [reflexivity|]. split; [|exact Es].
      apply Hin. lia.
Qed.

(** The promise is rejected as interrupted only when an [onInterrupt]
    call ends. *)
Lemma interrupted_needs_done evs : forall st,
  settled (fold_left interruptStep evs st) = Some Interrupted ->
  settled st = Some Interrupted \/ In InterruptDone evs.
Proof.
  induction evs as [|ev evs IH]; intros st H; [left; exact H|].
  cbn [fold_left] in H. destruct (IH _ H) as [H' | H']; [|right; right; exact H'].
  destruct ev as [result | error | |]; cbn [interruptStep] in H'.
  - unfold finish in H'. destruct (settled st) eqn:E;
      [left; rewrite <- E; exact H' | discriminate H'].
  - unfold finish in H'. destruct (settled st) eqn:E;
      [left; rewrite <- E; exact H' | discriminate H'].
  - destruct (listening st); left; exact H'.
  - right. left. reflexivity.
Qed.

End Interrupt.

End SessionFacts.

Section SessionProperties.
Import Sessions.
Local Open Scope string_scope.
Local Open Scope list_scope.

(** X26.  When there is no record file under the given id,
    [resolveSessionRecord] returns only a session of the list whose id or
    session id ends with the query, and that session is then the only one
    of the list that matches the query exactly, if any does. *)
Theorem resolve_returns_the_match (sessions : list SessionRecord) (query : string)
    (found : SessionRecord) :
  resolveSessionRecord None sessions query = inl found ->
  In found sessions
  /\ isSuffixMatch query found = true
  /\ forall other, In other sessions -> isExact query other = true -> other = found.
Proof.
  unfold resolveSessionRecord.
  destruct (List.filter (isExact query) sessions) as [|a [|b l]] eqn:Ee.
  - destruct (List.filter (isSuffixMatch query) sessions) as [|a [|b l]] eqn:Es;
      try discriminate.
    intros H. injection H as ->.
    assert (Hin : In found (List.filter (isSuffixMatch query) sessions))
      by (rewrite Es; left; reflexivity).
    apply filter_In in Hin. destruct Hin as [Hin Hm].
    repeat split; [exact Hin | exact Hm|].
    intros other Ho He.
    assert (Hf : In other (List.filter (isExact query) sessions))
      by (apply filter_In; split; assumption).
    rewrite Ee in Hf. destruct Hf.
  - intros H. injection H as ->.
    assert (Hin : In found (List.filter (isExact query) sessions))
      by (rewrite Ee; left; reflexivity).
    apply filter_In in Hin. destruct Hin as [Hin Hm].
    repeat split; [exact Hin | apply isExact_isSuffixMatch; exact Hm|].
    intros other Ho He.
    assert (Hf : In other (List.filter (isExact query) sessions))
      by (apply filter_In; split; assumption).
    rewrite Ee in Hf. destruct Hf as [<- | []]. reflexivity.
  - discriminate.
Qed.

Lemma resolve_returns_the_match_witness :
  let s1 := {| id := "abc-1"; sessionId := "x1"; agentCommand := "a"; cwd := "/";
               createdAt := "t"; lastUsedAt := "t" |} in
  let s2 := {| id := "1"; sessionId := "x2"; agentCommand := "a"; cwd := "/";
               createdAt := "t"; lastUsedAt := "t" |} in
  resolveSessionRecord None [s1; s2] "1" = inl s2
  /\ In s2 [s1; s2].
Proof.
  cbn zeta. split; [reflexivity|].
  refine (proj1 (resolve_returns_the_match _ "1" _ _)). reflexivity.
Defined.

(** X27.  Every string ends with the empty string.  So for an empty query
    that no session matches exactly, the answer depends on the number of
    sessions alone: the only session there is is returned, two or more
    are ambiguous. *)
Theorem resolve_empty_query (sessions : list SessionRecord) :
  (forall s, In s sessions -> isExact "" s = false) ->
  resolveSessionRecord None sessions ""
  = match sessions with
    | [] => inr "Session not found: "
    | [only] => inl only
    | _ :: _ :: _ => inr "Session id is ambiguous: "
    end.
Proof.
  intros Hno. unfold resolveSessionRecord.
  rewrite (filter_none _ _ Hno).
  rewrite filter_all.
  - destruct sessions as [|a [|b l]]; reflexivity.
  - intros s _. unfold isSuffixMatch. rewrite endsWith_empty. reflexivity.
Qed.

Lemma resolve_empty_query_witness :
  let s1 := {| id := "abc-1"; sessionId := "x1"; agentCommand := "a"; cwd := "/";
               createdAt := "t"; lastUsedAt := "t" |} in
  resolveSessionRecord None [s1] "" = inl s1.
Proof.
  cbn zeta.
  apply (resolve_empty_query
           [{| id := "abc-1"; sessionId := "x1"; agentCommand := "a"; cwd := "/";
               createdAt := "t"; lastUsedAt := "t" |}]).
  intros s [<- | []]. reflexivity.
Defined.

(** X28.  The promise of [withInterrupt] settles once: what happens
    after that, a late SIGINT or the late end of [run] or of
    [onInterrupt], changes neither its outcome nor the number of
    [onInterrupt] calls, which is never more than one. *)
Theorem interrupt_settles_once (T : Type) (pre post : list (InterruptEvent T))
    (outcome : Settled T) :
  settled (withInterrupt pre) = Some outcome ->
  settled (withInterrupt (pre ++ post)) = Some outcome
  /\ interruptCalls (withInterrupt (pre ++ post)) = interruptCalls (withInterrupt pre)
  /\ (interruptCalls (withInterrupt (pre ++ post)) <= 1)%nat.
Proof.
  intros Hs.
  destruct (withInterrupt_inv pre) as (_ & Hl & _).
  assert (Hoff : listening (withInterrupt pre) = false).
  { destruct (listening (withInterrupt pre)); [|reflexivity].
    destruct (Hl eq_refl) as [_ Hn]. rewrite Hn in Hs. discriminate. }
  destruct (interrupt_run_settled post outcome _ Hs Hoff) as [H1 H2].
  unfold withInterrupt in *. rewrite fold_left_app.
  repeat split; [exact H1 | exact H2|].
  rewrite <- fold_left_app.
  exact (proj1 (withInterrupt_inv (pre ++ post))).
Qed.

Lemma interrupt_settles_once_witness :
  settled (withInterrupt ([RunFulfilled 7%nat] ++ [Sigint; InterruptDone]))
  = Some (Fulfilled 7%nat).
Proof.
  refine (proj1 (interrupt_settles_once nat [RunFulfilled 7%nat] [Sigint; InterruptDone]
                   (Fulfilled 7%nat) _)).
  reflexivity.
Defined.

(** X29.  [withInterrupt] rejects with [InterruptedError] only after a
    SIGINT, and only when the one [onInterrupt] call that the signal
    started has ended before [run] has. *)
Theorem interrupted_only_after_sigint (T : Type) (evs : list (InterruptEvent T)) :
  settled (withInterrupt evs) = Some Interrupted ->
  In Sigint evs /\ In InterruptDone evs
  /\ interruptCalls (withInterrupt evs) = 1%nat
  /\ exists pre post,
       evs = pre ++ InterruptDone :: post
       /\ In Sigint pre
       /\ Forall (fun ev => ev = Sigint \/ ev = InterruptDone) pre.
Proof.
  intros Hs.
  destruct (withInterrupt_inv evs) as (_ & _ & _ & Hone & Hin).
  specialize (Hone Hs).
  split; [apply Hin; exact Hone|]. split; [|split; [exact Hone|]].
  - clear Hone Hin. unfold withInterrupt in Hs.
    destruct (interrupted_needs_done evs _ Hs) as [H | H]; [discriminate H | exact H].
  - destruct (interrupted_at_done evs Hs) as (pre & post & He & Hsig & Hnone).
    exists pre, post. split; [exact He|]. split; [exact Hsig|].
    exact (proj1 (pending_no_run_end pre _ Hnone)).
Qed.

Lemma interrupted_only_after_sigint_witness :
  settled (withInterrupt (T := nat) [Sigint; InterruptDone]) = Some Interrupted
  /\ In Sigint [Sigint; @InterruptDone nat].
Proof.
  split; [reflexivity|].
  refine (proj1 (interrupted_only_after_sigint nat [Sigint; InterruptDone] _)).
  reflexivity.
Defined.

End SessionProperties.
